(** * Clawdbot: exec approvals, exec tool gating, SSRF guard

    A shallow embedding of the parts of the gateway that decide whether a
    shell command may run (src/infra/exec-approvals.ts and
    src/agents/bash-tools.exec.ts), of the SSRF guard
    (src/infra/net/ssrf.ts), and of two small components that the
    repository only ships tests for (session model overrides and the
    macOS push-to-transport mapping).

    Conventions.
    - JavaScript strings are [string]; characters are [ascii].  Case mapping
      and whitespace are those of the ASCII range.
    - [undefined]/[null] fields of TypeScript records are [option] fields.
    - Code that may throw returns an [Outcome].
    - Numbers that the code only compares with small integer bounds are [Z]. *)

From Stdlib Require Import ZArith String Ascii List Bool Lia.
From stdpp Require Import base gmap strings list.

Local Open Scope string_scope.
Local Open Scope list_scope.

(** ** Outcomes of code that may throw *)

Inductive Outcome (A : Type) : Type :=
| Return (a : A)
| Throw (message : string).

Arguments Return {A} a.
Arguments Throw {A} message.

#[global] Instance outcome_ret : MRet Outcome := fun A a => Return a.

#[global] Instance outcome_bind : MBind Outcome := fun A B k m =>
  match m with
  | Return a => k a
  | Throw e => Throw e
  end.

(** [try { body } catch { handler }] *)
Definition try_catch {A : Type} (body : Outcome A) (handler : Outcome A) : Outcome A :=
  match body with
  | Return a => Return a
  | Throw _ => handler
  end.

(** ** JavaScript string primitives used by the sources *)

Module Js.

Definition is_upper (c : ascii) : bool :=
  let n := nat_of_ascii c in (65 <=? n)%nat && (n <=? 90)%nat.

Definition lower_char (c : ascii) : ascii :=
  if is_upper c then ascii_of_nat (nat_of_ascii c + 32) else c.

(** [s.toLowerCase()] *)
Fixpoint toLowerCase (s : string) : string :=
  match s with
  | EmptyString => EmptyString
  | String c r => String (lower_char c) (toLowerCase r)
  end.

(** White space and line terminators removed by [trim] and skipped by
    [parseInt]: TAB, LF, VT, FF, CR, SPACE. *)
Definition is_space (c : ascii) : bool :=
  let n := nat_of_ascii c in ((9 <=? n)%nat && (n <=? 13)%nat) || (n =? 32)%nat.

Fixpoint trimStart (s : string) : string :=
  match s with
  | EmptyString => EmptyString
  | String c r => if is_space c then trimStart r else s
  end.

Fixpoint trimEnd (s : string) : string :=
  match s with
  | EmptyString => EmptyString
  | String c r =>
      match trimEnd r with
      | EmptyString => if is_space c then EmptyString else String c EmptyString
      | r' => String c r'
      end
  end.

(** [s.trim()] *)
Definition trim (s : string) : string := trimEnd (trimStart s).

(** [s.startsWith(p)] *)
Fixpoint startsWith (s p : string) : bool :=
  match p, s with
  | EmptyString, _ => true
  | String _ _, EmptyString => false
  | String a p', String b s' => Ascii.eqb a b && startsWith s' p'
  end.

(** [s.includes(p)] *)
Fixpoint includes (s p : string) : bool :=
  startsWith s p ||
  match s with
  | EmptyString => false
  | String _ r => includes r p
  end.

(** [s.endsWith(p)] *)
Fixpoint endsWith (s p : string) : bool :=
  String.eqb s p ||
  match s with
  | EmptyString => false
  | String _ r => endsWith r p
  end.

(** Truthiness of a string: [!s] is [true] exactly for the empty string. *)
Definition truthy (s : string) : bool :=
  match s with EmptyString => false | _ => true end.

(** [s.slice(n)] for [0 <= n]. *)
Fixpoint drop (n : nat) (s : string) : string :=
  match n, s with
  | O, _ => s
  | S n', String _ r => drop n' r
  | S _, EmptyString => EmptyString
  end.

(** [s.slice(1, -1)] *)
Definition slice1m1 (s : string) : string :=
  match s with
  | EmptyString => EmptyString
  | String _ r => substring 0 (String.length r - 1) r
  end.

(** [s.split(sep)] for a one-character separator: never the empty list. *)
Fixpoint split (sep : ascii) (s : string) : list string :=
  match s with
  | EmptyString => [EmptyString]
  | String c r =>
      if Ascii.eqb c sep then EmptyString :: split sep r
      else match split sep r with
           | [] => [String c EmptyString]
           | h :: t => String c h :: t
           end
  end.

(** Value of a digit in the given radix, if it is one. *)
Definition digit_value (radix : Z) (c : ascii) : option Z :=
  let n := Z.of_nat (nat_of_ascii c) in
  let v :=
    if (48 <=? n)%Z && (n <=? 57)%Z then Some (n - 48)%Z
    else if (97 <=? n)%Z && (n <=? 122)%Z then Some (n - 87)%Z
    else if (65 <=? n)%Z && (n <=? 90)%Z then Some (n - 55)%Z
    else None in
  match v with
  | Some d => if (d <? radix)%Z then Some d else None
  | None => None
  end.

(** Longest prefix of digits, accumulated left to right; [None] when the
    prefix is empty. *)
Fixpoint digits_prefix (radix : Z) (acc : option Z) (s : string) : option Z :=
  match s with
  | EmptyString => acc
  | String c r =>
      match digit_value radix c with
      | Some d =>
          digits_prefix radix
            (Some (match acc with Some a => a * radix + d | None => d end)%Z) r
      | None => acc
      end
  end.

(** [Number.parseInt(s, radix)] for radix 10 or 16; [None] is [NaN].
    Leading white space is skipped, one sign is accepted, radix 16 accepts
    a [0x] prefix, and parsing stops at the first character that is not a
    digit. *)
Definition parseInt (s : string) (radix : Z) : option Z :=
  let s1 := trimStart s in
  let '(neg, s2) :=
    match s1 with
    | String "-" r => (true, r)
    | String "+" r => (false, r)
    | _ => (false, s1)
    end in
  let s3 :=
    if (radix =? 16)%Z then
      match s2 with
      | String "0" (String "x" r) => r
      | String "0" (String "X" r) => r
      | _ => s2
      end
    else s2 in
  match digits_prefix radix None s3 with
  | Some v => Some (if neg then (- v)%Z else v)
  | None => None
  end.

End Js.

(** ** The fragment of JavaScript regular expressions that [globToRegExp]
    can emit from patterns free of regular-expression syntax

    [parse] reads a regular-expression source.  It accepts the assertions
    [^] and [$], the wildcard [.], the class [[^/]], literal characters that
    are not syntax characters, and the quantifier [*] on an atom.  Every
    other source is outside the fragment and yields [None]: JavaScript
    either rejects it with a SyntaxError or gives it a meaning that is not
    modelled here.  [test] is [RegExp.prototype.test] under the flag [i]. *)

Module RegExp.

Inductive atom : Type :=
| Lit (c : ascii)
| Dot
| NotSlash.

Inductive node : Type :=
| One (a : atom)
| Star (a : atom)
| Bol
| Eol.

Definition is_syntax_char (c : ascii) : bool :=
  existsb (Ascii.eqb c)
    ["\"; "^"; "$"; "."; "*"; "+"; "?"; "("; ")"; "["; "]"; "{"; "}"; "|"]%char.

Fixpoint parse (src : string) : option (list node) :=
  match src with
  | EmptyString => Some []
  | String c r =>
      if Ascii.eqb c "^" then cons Bol <$> parse r
      else if Ascii.eqb c "$" then cons Eol <$> parse r
      else if Ascii.eqb c "." then
        match r with
        | String k r' =>
            if Ascii.eqb k "*" then cons (Star Dot) <$> parse r'
            else cons (One Dot) <$> parse r
        | EmptyString => cons (One Dot) <$> parse r
        end
      else if Ascii.eqb c "[" then
        match r with
        | String k1 (String k2 (String k3 r')) =>
            if Ascii.eqb k1 "^" && Ascii.eqb k2 "/" && Ascii.eqb k3 "]" then
              match r' with
              | String k r'' =>
                  if Ascii.eqb k "*" then cons (Star NotSlash) <$> parse r''
                  else cons (One NotSlash) <$> parse r'
              | EmptyString => cons (One NotSlash) <$> parse r'
              end
            else None
        | _ => None
        end
      else if is_syntax_char c then None
      else
        match r with
        | String k r' =>
            if Ascii.eqb k "*" then cons (Star (Lit c)) <$> parse r'
            else cons (One (Lit c)) <$> parse r
        | EmptyString => cons (One (Lit c)) <$> parse r
        end
  end.

(** Canonicalize of the flag [i]: upper case. *)
Definition canonicalize (c : ascii) : ascii :=
  let n := nat_of_ascii c in
  if (97 <=? n)%nat && (n <=? 122)%nat then ascii_of_nat (n - 32) else c.

(** Line terminators, which [.] does not match without the flag [s]. *)
Definition is_line_terminator (c : ascii) : bool :=
  let n := nat_of_ascii c in (n =? 10)%nat || (n =? 13)%nat.

Definition atom_matches (a : atom) (c : ascii) : bool :=
  match a with
  | Lit l => Ascii.eqb (canonicalize l) (canonicalize c)
  | Dot => negb (is_line_terminator c)
  | NotSlash => negb (Ascii.eqb (canonicalize c) "/")
  end.

(** Does [r] match a prefix of [s]?  [at_start] tells whether [s] is the
    whole input.  The quantifier tries every number of repetitions, which
    finds a match exactly when the backtracking matcher does. *)
Fixpoint match_here (r : list node) (at_start : bool) (s : string) : bool :=
  match r with
  | [] => true
  | Bol :: r' => at_start && match_here r' at_start s
  | Eol :: r' =>
      match s with
      | EmptyString => match_here r' at_start s
      | String _ _ => false
      end
  | One a :: r' =>
      match s with
      | String c s' => atom_matches a c && match_here r' false s'
      | EmptyString => false
      end
  | Star a :: r' =>
      (fix repeat (st : bool) (s : string) {struct s} : bool :=
         match_here r' st s ||
         match s with
         | String c s' => atom_matches a c && repeat false s'
         | EmptyString => false
         end) at_start s
  end.

(** A match may start at any position of the input. *)
Fixpoint search (r : list node) (at_start : bool) (s : string) : bool :=
  match_here r at_start s ||
  match s with
  | String _ s' => search r false s'
  | EmptyString => false
  end.

Definition test (r : list node) (s : string) : bool := search r true s.

End RegExp.

(** ** The Node.js runtime as far as the sources observe it *)

(** Library functions and ambient values the sources call but do not
    define.  [JSON_parse] yields [Throw] on a SyntaxError, [None] for the
    JSON value [null], and otherwise the parsed value seen through the
    unchecked cast [as ExecApprovalsFile]: the text is read at the declared
    type, and a text whose value lies outside that type has no reading
    here.  [RegExp_other src target] is
    what [new RegExp(src, flag i).test(target)] does for a source that
    [RegExp.parse] does not read: a SyntaxError or a boolean. *)
Record NodeRuntime (File : Type) : Type := {
  os_homedir : string;
  path_join : string -> string -> string;
  JSON_parse : string -> Outcome (option File);
  JSON_stringify : File -> string;
  RegExp_other : string -> string -> Outcome bool
}.

Arguments os_homedir {File} _.
Arguments path_join {File} _ _ _.
Arguments JSON_parse {File} _ _.
Arguments JSON_stringify {File} _ _.
Arguments RegExp_other {File} _ _ _.

(** ** src/infra/exec-approvals.ts *)

Module ExecApprovals.

Inductive ExecHost : Type := HostSandbox | HostGateway | HostNode.
Inductive ExecSecurity : Type := SecDeny | SecAllowlist | SecFull.
Inductive ExecAsk : Type := AskOff | AskOnMiss | AskAlways.

#[global] Instance ExecHost_eq_dec : EqDecision ExecHost.
Proof. solve_decision. Defined.
#[global] Instance ExecSecurity_eq_dec : EqDecision ExecSecurity.
Proof. solve_decision. Defined.
#[global] Instance ExecAsk_eq_dec : EqDecision ExecAsk.
Proof. solve_decision. Defined.

Record ExecApprovalsDefaults : Type := {
  security : option ExecSecurity;
  ask : option ExecAsk;
  askFallback : option ExecSecurity;
  autoAllowSkills : option bool
}.

Record ExecAllowlistEntry : Type := {
  pattern : string;
  lastUsedAt : option Z;
  lastUsedCommand : option string;
  lastResolvedPath : option string
}.

(** [ExecApprovalsDefaults & { allowlist? }] *)
Record ExecApprovalsAgent : Type := {
  scalars : ExecApprovalsDefaults;
  allowlist : option (list ExecAllowlistEntry)
}.

Record ExecApprovalsSocket : Type := {
  socket_path : option string;
  socket_token : option string
}.

(** The declared type fixes [version] to [1]; the value read from disk
    carries whatever number the file holds, or none. *)
Record ExecApprovalsFile : Type := {
  version : option Z;
  socket : option ExecApprovalsSocket;
  defaults : option ExecApprovalsDefaults;
  agents : option (gmap string ExecApprovalsAgent)
}.

(** [Required<ExecApprovalsDefaults>] *)
Record RequiredDefaults : Type := {
  r_security : ExecSecurity;
  r_ask : ExecAsk;
  r_askFallback : ExecSecurity;
  r_autoAllowSkills : bool
}.

Record ExecApprovalsResolved : Type := {
  path : string;
  socketPath : string;
  token : string;
  resolved_defaults : RequiredDefaults;
  agent : RequiredDefaults;
  resolved_allowlist : list ExecAllowlistEntry;
  file : ExecApprovalsFile
}.

Definition DEFAULT_SECURITY : ExecSecurity := SecDeny.
Definition DEFAULT_ASK : ExecAsk := AskOnMiss.
Definition DEFAULT_ASK_FALLBACK : ExecSecurity := SecDeny.
Definition DEFAULT_AUTO_ALLOW_SKILLS : bool := false.
Definition DEFAULT_SOCKET : string := "~/.clawdbot/exec-approvals.sock".
Definition DEFAULT_FILE : string := "~/.clawdbot/exec-approvals.json".

Abbreviation Runtime := (NodeRuntime ExecApprovalsFile).

(** The approvals file on disk, the only file these functions touch, and
    the next value of the random token generator. *)
Inductive FileState : Type :=
| FileMissing
| FileUnreadable
| FileContent (raw : string).

Record World : Type := {
  approvals_file : FileState;
  writable : bool;
  random_token : string;
  now : Z
}.

Definition expandHome (rt : Runtime) (value : string) : string :=
  if negb (Js.truthy value) then value
  else if String.eqb value "~" then os_homedir rt
  else if Js.startsWith value "~/" then path_join rt (os_homedir rt) (Js.drop 2 value)
  else value.

Definition resolveExecApprovalsPath (rt : Runtime) : string :=
  expandHome rt DEFAULT_FILE.

Definition resolveExecApprovalsSocketPath (rt : Runtime) : string :=
  expandHome rt DEFAULT_SOCKET.

(** [value?.trim()] followed by [v && v.length > 0 ? v : undefined] *)
Definition nonempty_trimmed (value : option string) : option string :=
  match Js.trim <$> value with
  | Some v => if Js.truthy v && (0 <? String.length v)%nat then Some v else None
  | None => None
  end.

Definition normalizeExecApprovals (f : ExecApprovalsFile) : ExecApprovalsFile :=
  let socketPath := nonempty_trimmed (socket f ≫= socket_path) in
  let token := nonempty_trimmed (socket f ≫= socket_token) in
  {| version := Some 1%Z;
     socket := Some {| socket_path := socketPath; socket_token := token |};
     defaults := Some
       {| security := defaults f ≫= security;
          ask := defaults f ≫= ask;
          askFallback := defaults f ≫= askFallback;
          autoAllowSkills := defaults f ≫= autoAllowSkills |};
     agents := Some (default ∅ (agents f)) |}.

(** The literal [{ version: 1, agents: {} }] *)
Definition empty_file : ExecApprovalsFile :=
  {| version := Some 1%Z; socket := None; defaults := None; agents := Some ∅ |}.

(** [parsed?.version !== 1] *)
Definition version_is_not_1 (parsed : option ExecApprovalsFile) : bool :=
  match parsed ≫= version with
  | Some v => negb (v =? 1)%Z
  | None => true
  end.

(** [fs.readFileSync(filePath, "utf8")] once [fs.existsSync] said yes. *)
Definition readFileSync (w : World) : Outcome string :=
  match approvals_file w with
  | FileContent raw => Return raw
  | FileUnreadable => Throw "EACCES"
  | FileMissing => Throw "ENOENT"
  end.

Definition existsSync (w : World) : bool :=
  match approvals_file w with
  | FileMissing => false
  | _ => true
  end.

Definition loadExecApprovals (rt : Runtime) (w : World) : Outcome ExecApprovalsFile :=
  try_catch
    (if negb (existsSync w) then Return (normalizeExecApprovals empty_file)
     else
       raw ← readFileSync w;
       parsed ← JSON_parse rt raw;
       if version_is_not_1 parsed then Return (normalizeExecApprovals empty_file)
       else
         match parsed with
         | Some f => Return (normalizeExecApprovals f)
         | None => Throw "TypeError"
         end)
    (Return (normalizeExecApprovals empty_file)).

(** [ensureDir] and [fs.writeFileSync] throw when the location cannot be
    written; the best-effort [chmod] never does. *)
Definition saveExecApprovals (rt : Runtime) (f : ExecApprovalsFile) (w : World)
    : Outcome World :=
  if writable w then
    Return {| approvals_file := FileContent (JSON_stringify rt f +:+ String "010" EmptyString);
              writable := writable w;
              random_token := random_token w;
              now := now w |}
  else Throw "EACCES".

Definition generateToken (w : World) : string := random_token w.

Definition ensureExecApprovals (rt : Runtime) (w : World)
    : Outcome (ExecApprovalsFile * World) :=
  loaded ← loadExecApprovals rt w;
  let next := normalizeExecApprovals loaded in
  let socketPath := nonempty_trimmed (socket next ≫= socket_path) in
  let token := nonempty_trimmed (socket next ≫= socket_token) in
  let updated :=
    {| version := version next;
       socket := Some
         {| socket_path := Some (default (resolveExecApprovalsSocketPath rt) socketPath);
            socket_token := Some (default (generateToken w) token) |};
       defaults := defaults next;
       agents := agents next |} in
  w' ← saveExecApprovals rt updated w;
  Return (updated, w').

Definition normalizeSecurity (value : option ExecSecurity) (fallback : ExecSecurity)
    : ExecSecurity :=
  match value with
  | Some SecAllowlist => SecAllowlist
  | Some SecFull => SecFull
  | Some SecDeny => SecDeny
  | None => fallback
  end.

Definition normalizeAsk (value : option ExecAsk) (fallback : ExecAsk) : ExecAsk :=
  match value with
  | Some AskAlways => AskAlways
  | Some AskOff => AskOff
  | Some AskOnMiss => AskOnMiss
  | None => fallback
  end.

(** [a ?? b] on optional values *)
Definition nullish {A : Type} (a b : option A) : option A :=
  match a with
  | Some _ => a
  | None => b
  end.

Definition no_defaults : ExecApprovalsDefaults :=
  {| security := None; ask := None; askFallback := None; autoAllowSkills := None |}.

(** The literal [{}] where an agent record is expected. *)
Definition no_agent : ExecApprovalsAgent :=
  {| scalars := no_defaults; allowlist := None |}.

Definition resolveExecApprovals (rt : Runtime) (agentId : option string)
    (overrides : option ExecApprovalsDefaults) (w : World)
    : Outcome (ExecApprovalsResolved * World) :=
  ensured ← ensureExecApprovals rt w;
  let f := ensured.1 in
  let w' := ensured.2 in
  let defaults_ := default no_defaults (defaults f) in
  let agentKey := default "default" agentId in
  let agent_ := default no_agent (agents f ≫= (.!! agentKey)) in
  let wildcard := default no_agent (agents f ≫= (.!! "*")) in
  let fallbackSecurity := default DEFAULT_SECURITY (overrides ≫= security) in
  let fallbackAsk := default DEFAULT_ASK (overrides ≫= ask) in
  let fallbackAskFallback := default DEFAULT_ASK_FALLBACK (overrides ≫= askFallback) in
  let fallbackAutoAllowSkills :=
    default DEFAULT_AUTO_ALLOW_SKILLS (overrides ≫= autoAllowSkills) in
  let resolvedDefaults :=
    {| r_security := normalizeSecurity (security defaults_) fallbackSecurity;
       r_ask := normalizeAsk (ask defaults_) fallbackAsk;
       r_askFallback :=
         normalizeSecurity
           (Some (default fallbackAskFallback (askFallback defaults_)))
           fallbackAskFallback;
       r_autoAllowSkills :=
         default fallbackAutoAllowSkills (autoAllowSkills defaults_) |} in
  let resolvedAgent :=
    {| r_security :=
         normalizeSecurity
           (Some (default (r_security resolvedDefaults)
                    (nullish (security (scalars agent_)) (security (scalars wildcard)))))
           (r_security resolvedDefaults);
       r_ask :=
         normalizeAsk
           (Some (default (r_ask resolvedDefaults)
                    (nullish (ask (scalars agent_)) (ask (scalars wildcard)))))
           (r_ask resolvedDefaults);
       r_askFallback :=
         normalizeSecurity
           (Some (default (r_askFallback resolvedDefaults)
                    (nullish (askFallback (scalars agent_))
                       (askFallback (scalars wildcard)))))
           (r_askFallback resolvedDefaults);
       r_autoAllowSkills :=
         default (r_autoAllowSkills resolvedDefaults)
           (nullish (autoAllowSkills (scalars agent_))
              (autoAllowSkills (scalars wildcard))) |} in
  let allowlist_ :=
    default [] (allowlist wildcard) ++ default [] (allowlist agent_) in
  Return
    ({| path := resolveExecApprovalsPath rt;
        socketPath :=
          expandHome rt
            (default (resolveExecApprovalsSocketPath rt) (socket f ≫= socket_path));
        token := default EmptyString (socket f ≫= socket_token);
        resolved_defaults := resolvedDefaults;
        agent := resolvedAgent;
        resolved_allowlist := allowlist_;
        file := f |}, w').

Record CommandResolution : Type := {
  rawExecutable : string;
  resolvedPath : option string;
  executableName : string
}.

(** [value.replace(/\\\\/g, "/")]: the regular expression, written with
    four backslashes in the source, matches two consecutive backslash
    characters. *)
Fixpoint replace_backslash_pairs (value : string) : string :=
  match value with
  | EmptyString => EmptyString
  | String a t =>
      match t with
      | String b r =>
          if Ascii.eqb a "\" && Ascii.eqb b "\" then String "/" (replace_backslash_pairs r)
          else String a (replace_backslash_pairs t)
      | EmptyString => String a EmptyString
      end
  end.

Definition normalizeMatchTarget (value : string) : string :=
  Js.toLowerCase (replace_backslash_pairs value).

(** The character class of [/[.*+?^${}()|[\\]\\\\]/g]. *)
Definition escape_class (c : ascii) : bool :=
  existsb (Ascii.eqb c)
    ["."; "*"; "+"; "?"; "^"; "$"; "{"; "}"; "("; ")"; "|"; "["; "\"]%char.

(** [s.replace(/[.*+?^${}()|[\\]\\\\]/g, "\\$&")].  After the class the
    regular expression goes on with two backslashes and a closing bracket,
    so a match is four characters long; each match is prefixed with a
    backslash. *)
Fixpoint escape_replace (s : string) : string :=
  match s with
  | EmptyString => EmptyString
  | String c t =>
      match t with
      | String b1 (String b2 (String k r)) =>
          if escape_class c && Ascii.eqb b1 "\" && Ascii.eqb b2 "\" && Ascii.eqb k "]"
          then String "\" (String c (String b1 (String b2 (String k (escape_replace r)))))
          else String c (escape_replace t)
      | _ => String c (escape_replace t)
      end
  end.

(** The body of the loop of [globToRegExp], from index [i] on. *)
Fixpoint globToRegExp_from (pattern : string) : string :=
  match pattern with
  | EmptyString => EmptyString
  | String ch r =>
      if Ascii.eqb ch "*" then
        match r with
        | String next r' =>
            if Ascii.eqb next "*" then ".*" +:+ globToRegExp_from r'
            else "[^/]*" +:+ globToRegExp_from r
        | EmptyString => "[^/]*" +:+ globToRegExp_from r
        end
      else if Ascii.eqb ch "?" then "." +:+ globToRegExp_from r
      else escape_replace (String ch EmptyString) +:+ globToRegExp_from r
  end.

(** The source of the regular expression; it is compiled with the flag [i]. *)
Definition globToRegExp (pattern : string) : string :=
  "^" +:+ globToRegExp_from pattern +:+ "$".

(** [new RegExp(src, "i").test(target)] *)
Definition RegExp_test (rt : Runtime) (src target : string) : Outcome bool :=
  match RegExp.parse src with
  | Some r => Return (RegExp.test r target)
  | None => RegExp_other rt src target
  end.

Definition matchesPattern (rt : Runtime) (pattern target : string) : Outcome bool :=
  let trimmed := Js.trim pattern in
  if negb (Js.truthy trimmed) then Return false
  else
    let expanded := if Js.startsWith trimmed "~" then expandHome rt trimmed else trimmed in
    let normalizedPattern := normalizeMatchTarget expanded in
    let normalizedTarget := normalizeMatchTarget target in
    RegExp_test rt (globToRegExp normalizedPattern) normalizedTarget.

(** [pattern.includes("/") || pattern.includes("\\") || pattern.includes("~")] *)
Definition hasPath (pattern : string) : bool :=
  Js.includes pattern "/" || Js.includes pattern "\" || Js.includes pattern "~".

(** The [for] loop of [matchAllowlist]. *)
Fixpoint matchAllowlist_entries (rt : Runtime) (entries : list ExecAllowlistEntry)
    (resolution : CommandResolution) : Outcome (option ExecAllowlistEntry) :=
  match entries with
  | [] => Return None
  | entry :: rest =>
      let pattern_ := Js.trim (pattern entry) in
      if negb (Js.truthy pattern_) then matchAllowlist_entries rt rest resolution
      else if hasPath pattern_ then
        let target := default (rawExecutable resolution) (resolvedPath resolution) in
        if Js.truthy target then
          m ← matchesPattern rt pattern_ target;
          if m : bool then Return (Some entry)
          else matchAllowlist_entries rt rest resolution
        else matchAllowlist_entries rt rest resolution
      else if Js.truthy (executableName resolution) then
        m ← matchesPattern rt pattern_ (executableName resolution);
        if m : bool then Return (Some entry)
        else matchAllowlist_entries rt rest resolution
      else matchAllowlist_entries rt rest resolution
  end.

Definition matchAllowlist (rt : Runtime) (entries : list ExecAllowlistEntry)
    (resolution : option CommandResolution) : Outcome (option ExecAllowlistEntry) :=
  match entries, resolution with
  | [], _ => Return None
  | _, None => Return None
  | _, Some res => matchAllowlist_entries rt entries res
  end.

(** [{ ...existing, allowlist }] stored at [agents[target]] *)
Definition with_allowlist (f : ExecApprovalsFile) (target : string)
    (existing : ExecApprovalsAgent) (l : list ExecAllowlistEntry) : ExecApprovalsFile :=
  {| version := version f;
     socket := socket f;
     defaults := defaults f;
     agents :=
       Some (<[target := {| scalars := scalars existing; allowlist := Some l |}]>
               (default ∅ (agents f))) |}.

Definition recordAllowlistUse (rt : Runtime) (approvals : ExecApprovalsFile)
    (agentId : option string) (entry : ExecAllowlistEntry) (command : string)
    (resolvedPath_ : option string) (w : World) : Outcome (ExecApprovalsFile * World) :=
  let target := default "default" agentId in
  let agents_ := default ∅ (agents approvals) in
  let existing := default no_agent (agents_ !! target) in
  let allowlist_ := default [] (allowlist existing) in
  let nextAllowlist :=
    map (fun item =>
           if String.eqb (pattern item) (pattern entry) then
             {| pattern := pattern item;
                lastUsedAt := Some (now w);
                lastUsedCommand := Some command;
                lastResolvedPath := resolvedPath_ |}
           else item) allowlist_ in
  let approvals' := with_allowlist approvals target existing nextAllowlist in
  w' ← saveExecApprovals rt approvals' w;
  Return (approvals', w').

Definition addAllowlistEntry (rt : Runtime) (approvals : ExecApprovalsFile)
    (agentId : option string) (pattern_ : string) (w : World)
    : Outcome (ExecApprovalsFile * World) :=
  let target := default "default" agentId in
  let agents_ := default ∅ (agents approvals) in
  let existing := default no_agent (agents_ !! target) in
  let allowlist_ := default [] (allowlist existing) in
  let trimmed := Js.trim pattern_ in
  if negb (Js.truthy trimmed) then Return (approvals, w)
  else if existsb (fun entry => String.eqb (pattern entry) trimmed) allowlist_
  then Return (approvals, w)
  else
    let pushed :=
      allowlist_ ++
      [{| pattern := trimmed; lastUsedAt := Some (now w);
          lastUsedCommand := None; lastResolvedPath := None |}] in
    let approvals' := with_allowlist approvals target existing pushed in
    w' ← saveExecApprovals rt approvals' w;
    Return (approvals', w').

Definition security_order (s : ExecSecurity) : Z :=
  match s with SecDeny => 0 | SecAllowlist => 1 | SecFull => 2 end.

Definition ask_order (a : ExecAsk) : Z :=
  match a with AskOff => 0 | AskOnMiss => 1 | AskAlways => 2 end.

Definition minSecurity (a b : ExecSecurity) : ExecSecurity :=
  if (security_order a <=? security_order b)%Z then a else b.

Definition maxAsk (a b : ExecAsk) : ExecAsk :=
  if (ask_order a >=? ask_order b)%Z then a else b.

(** *** The approval socket *)

(** [ExecApprovalDecision | null]: the decision string, or [None] for
    [null]. *)
Definition SocketDecision : Type := option string.

(** What the client sees after [connect]: the socket fails, the timer of
    [timeoutMs] fires, or a chunk of data arrives.  [SocketData] carries
    the text [data.toString("utf8")] of that one chunk: every chunk is
    decoded on its own. *)
Inductive SocketEvent : Type :=
| SocketError
| TimerFires
| SocketData (data : string).

(** [settled] with the resolved value, and the line buffer. *)
Record SocketRequest : Type := {
  resolved_with : option SocketDecision;
  buffer : string
}.

(** [finish(value)]: the first call resolves the promise, later calls do
    nothing. *)
Definition finish (value : SocketDecision) (s : SocketRequest) : SocketRequest :=
  match resolved_with s with
  | Some _ => s
  | None => {| resolved_with := Some value; buffer := buffer s |}
  end.

(** The [while] loop of the data handler over the buffer [pending +:+ rest],
    where [pending] is the text read since the last newline.
    [decision_of line] is the decision of a line that parses as JSON with
    [type === "decision"] and a truthy [decision], and [None] for every
    other line.  The result is the first decision found, if any, and the
    text left in the buffer. *)
Fixpoint drain_lines (decision_of : string -> option string) (pending : string)
    (rest : string) : option string * string :=
  match rest with
  | EmptyString => (None, pending)
  | String c rest' =>
      if Ascii.eqb c "010" then
        let line := Js.trim pending in
        if negb (Js.truthy line) then drain_lines decision_of EmptyString rest'
        else
          match decision_of line with
          | Some d => (Some d, rest')
          | None => drain_lines decision_of EmptyString rest'
          end
      else drain_lines decision_of (pending +:+ String c EmptyString) rest'
  end.

Definition socket_step (decision_of : string -> option string) (s : SocketRequest)
    (e : SocketEvent) : SocketRequest :=
  match e with
  | SocketError => finish None s
  | TimerFires => finish None s
  | SocketData data =>
      let drained := drain_lines decision_of EmptyString (buffer s +:+ data) in
      match drained.1 with
      | Some d => finish (Some d) {| resolved_with := resolved_with s; buffer := drained.2 |}
      | None => {| resolved_with := resolved_with s; buffer := drained.2 |}
      end
  end.

(** The value the promise of [requestExecApprovalViaSocket] resolves with
    after the given events; [None] while it is pending. *)
Definition requestExecApprovalViaSocket (decision_of : string -> option string)
    (socketPath_ token_ : string) (events : list SocketEvent) : option SocketDecision :=
  if negb (Js.truthy socketPath_) || negb (Js.truthy token_) then Some None
  else
    resolved_with
      (fold_left (socket_step decision_of) events
         {| resolved_with := None; buffer := EmptyString |}).

End ExecApprovals.

(** ** src/agents/bash-tools.exec.ts *)

Module ExecTool.

Import ExecApprovals.

Inductive ElevatedLevel : Type := LevelOn | LevelOff.

Record ExecElevatedDefaults : Type := {
  enabled : bool;
  allowed : bool;
  defaultLevel : ElevatedLevel
}.

(** The fields of [ExecToolDefaults] that the gates read. *)
Record ExecToolDefaults : Type := {
  d_host : option ExecHost;
  d_security : option ExecSecurity;
  d_ask : option ExecAsk;
  d_agentId : option string;
  d_elevated : option ExecElevatedDefaults
}.

(** The fields of the tool-call arguments that the gates read. *)
Record ExecParams : Type := {
  command : string;
  p_elevated : option bool;
  p_host : option string;
  p_security : option string;
  p_ask : option string
}.

(** [value?.trim().toLowerCase()] *)
Definition trim_lower (value : option string) : option string :=
  (fun v => Js.toLowerCase (Js.trim v)) <$> value.

Definition normalizeExecHost (value : option string) : option ExecHost :=
  match trim_lower value with
  | Some n =>
      if String.eqb n "sandbox" then Some HostSandbox
      else if String.eqb n "gateway" then Some HostGateway
      else if String.eqb n "node" then Some HostNode
      else None
  | None => None
  end.

Definition normalizeExecSecurity (value : option string) : option ExecSecurity :=
  match trim_lower value with
  | Some n =>
      if String.eqb n "deny" then Some SecDeny
      else if String.eqb n "allowlist" then Some SecAllowlist
      else if String.eqb n "full" then Some SecFull
      else None
  | None => None
  end.

Definition normalizeExecAsk (value : option string) : option ExecAsk :=
  match trim_lower value with
  | Some n =>
      if String.eqb n "off" then Some AskOff
      else if String.eqb n "on-miss" then Some AskOnMiss
      else if String.eqb n "always" then Some AskAlways
      else None
  | None => None
  end.

(** [elevatedDefaults?.defaultLevel === "on" && elevatedDefaults.enabled &&
    elevatedDefaults.allowed] *)
Definition elevatedDefaultOn (defaults : ExecToolDefaults) : bool :=
  match d_elevated defaults with
  | Some e =>
      match defaultLevel e with
      | LevelOn => enabled e && allowed e
      | LevelOff => false
      end
  | None => false
  end.

(** [typeof params.elevated === "boolean" ? params.elevated : elevatedDefaultOn] *)
Definition elevatedRequested (defaults : ExecToolDefaults) (params : ExecParams) : bool :=
  default (elevatedDefaultOn defaults) (p_elevated params).

(** [!elevatedDefaults?.enabled || !elevatedDefaults.allowed] *)
Definition elevated_gates_fail (defaults : ExecToolDefaults) : bool :=
  match d_elevated defaults with
  | Some e => negb (enabled e) || negb (allowed e)
  | None => true
  end.

(** [defaults?.security ?? (host === "sandbox" ? "deny" : "allowlist")] *)
Definition configuredSecurity (defaults : ExecToolDefaults) (host : ExecHost)
    : ExecSecurity :=
  default (match host with HostSandbox => SecDeny | _ => SecAllowlist end)
    (d_security defaults).

(** [defaults?.ask ?? "on-miss"] *)
Definition configuredAsk (defaults : ExecToolDefaults) : ExecAsk :=
  default AskOnMiss (d_ask defaults).

Record ExecPolicy : Type := {
  host : ExecHost;
  policy_security : ExecSecurity;
  policy_ask : ExecAsk
}.

(** The gates of [execute] from the command check to the composition of
    [security] and [ask]. *)
Definition resolveExecPolicy (defaults : ExecToolDefaults) (params : ExecParams)
    : Outcome ExecPolicy :=
  if negb (Js.truthy (command params)) then Throw "Provide a command to start."
  else if elevatedRequested defaults params && elevated_gates_fail defaults
  then Throw "elevated is not available right now"
  else
    let configuredHost := default HostSandbox (d_host defaults) in
    let requestedHost := normalizeExecHost (p_host params) in
    let host0 := default configuredHost requestedHost in
    if negb (elevatedRequested defaults params) &&
       match requestedHost with
       | Some rh => negb (bool_decide (rh = configuredHost))
       | None => false
       end
    then Throw "exec host not allowed"
    else
      let host1 := if elevatedRequested defaults params then HostGateway else host0 in
      let configured := configuredSecurity defaults host1 in
      let requestedSecurity := normalizeExecSecurity (p_security params) in
      let security0 := minSecurity configured (default configured requestedSecurity) in
      let security1 := if elevatedRequested defaults params then SecFull else security0 in
      let requestedAsk := normalizeExecAsk (p_ask params) in
      let ask0 :=
        maxAsk (configuredAsk defaults) (default (configuredAsk defaults) requestedAsk) in
      Return {| host := host1; policy_security := security1; policy_ask := ask0 |}.

(** Truthiness of [decision], a string or [null]. *)
Definition decision_truthy (decision : option string) : bool :=
  match decision with
  | Some d => Js.truthy d
  | None => false
  end.

Definition decision_is (decision : option string) (value : string) : bool :=
  match decision with
  | Some d => String.eqb d value
  | None => false
  end.

(** [s.split(/\s+/).shift()]: the characters before the first white space. *)
Fixpoint first_field (s : string) : string :=
  match s with
  | EmptyString => EmptyString
  | String c r => if Js.is_space c then EmptyString else String c (first_field r)
  end.

(** [resolution?.resolvedPath ?? resolution?.rawExecutable ??
    params.command.split(/\s+/).shift() ?? ""] *)
Definition allow_always_pattern (resolution : option CommandResolution)
    (command_ : string) : string :=
  match resolution with
  | Some res => default (rawExecutable res) (resolvedPath res)
  | None => first_field command_
  end.

Definition approval_unavailable : string :=
  "exec denied: approval required (approval UI not available)".

(** The block [if (requiresAsk) { ... }] of [host === "gateway"].
    [decision] is the decision carried by the answer to
    [exec.approval.request], [None] when there is none. *)
Definition gatewayAsk (rt : Runtime) (defaults : ExecToolDefaults) (command_ : string)
    (hostSecurity askFallback_ : ExecSecurity)
    (allowlistMatch : option ExecAllowlistEntry)
    (resolution : option CommandResolution) (f : ExecApprovalsFile)
    (decision : option string) (w : World)
    : Outcome (bool * ExecApprovalsFile * World) :=
  if decision_is decision "deny" then Throw "exec denied: user denied"
  else
    approved0 ←
      (if negb (decision_truthy decision) then
         match askFallback_ with
         | SecFull => Return true
         | SecAllowlist =>
             match allowlistMatch with
             | None => Throw approval_unavailable
             | Some _ => Return true
             end
         | SecDeny => Throw approval_unavailable
         end
       else Return false);
    let approved1 := approved0 || decision_is decision "allow-once" in
    if decision_is decision "allow-always" then
      if bool_decide (hostSecurity = SecAllowlist) &&
         Js.truthy (allow_always_pattern resolution command_)
      then
        added ← addAllowlistEntry rt f (d_agentId defaults)
                  (allow_always_pattern resolution command_) w;
        Return (true, added.1, added.2)
      else Return (true, f, w)
    else Return (approved1, f, w).

Record GatewayPass : Type := {
  approvedByAsk : bool;
  allowlistMatched : option ExecAllowlistEntry;
  approvals_after : ExecApprovalsFile
}.

(** The overrides that the gateway and node hosts pass to
    [resolveExecApprovals]: [{ security: "allowlist" }]. *)
Definition host_overrides : option ExecApprovalsDefaults :=
  Some {| security := Some SecAllowlist; ask := None;
          askFallback := None; autoAllowSkills := None |}.

(** [hostSecurity === "allowlist" ? matchAllowlist(approvals.allowlist,
    resolution) : null] *)
Definition gateway_allowlistMatch (rt : Runtime) (hostSecurity : ExecSecurity)
    (approvals : ExecApprovalsResolved) (resolution : option CommandResolution)
    : Outcome (option ExecAllowlistEntry) :=
  if bool_decide (hostSecurity = SecAllowlist)
  then matchAllowlist rt (resolved_allowlist approvals) resolution
  else Return None.

(** [hostAsk === "always" || (hostAsk === "on-miss" && hostSecurity ===
    "allowlist" && !allowlistMatch)] *)
Definition gateway_requiresAsk (hostAsk : ExecAsk) (hostSecurity : ExecSecurity)
    (allowlistMatch : option ExecAllowlistEntry) : bool :=
  bool_decide (hostAsk = AskAlways) ||
  (bool_decide (hostAsk = AskOnMiss) && bool_decide (hostSecurity = SecAllowlist) &&
   negb (bool_decide (is_Some allowlistMatch))).

(** The block [if (host === "gateway") { ... }]: it returns when the
    command may be spawned and throws when it is denied. *)
Definition gatewayGate (rt : Runtime) (defaults : ExecToolDefaults) (command_ : string)
    (security_ : ExecSecurity) (ask_ : ExecAsk)
    (resolution : option CommandResolution) (decision : option string) (w : World)
    : Outcome (GatewayPass * World) :=
  resolved ← resolveExecApprovals rt (d_agentId defaults) host_overrides w;
  let approvals := resolved.1 in
  let hostSecurity := minSecurity security_ (r_security (agent approvals)) in
  let hostAsk := maxAsk ask_ (r_ask (agent approvals)) in
  let askFallback_ := r_askFallback (agent approvals) in
  if bool_decide (hostSecurity = SecDeny)
  then Throw "exec denied: host=gateway security=deny"
  else
    allowlistMatch ← gateway_allowlistMatch rt hostSecurity approvals resolution;
    asked ←
      (if gateway_requiresAsk hostAsk hostSecurity allowlistMatch
       then gatewayAsk rt defaults command_ hostSecurity askFallback_ allowlistMatch
              resolution (file approvals) decision resolved.2
       else Return (false, file approvals, resolved.2));
    if bool_decide (hostSecurity = SecAllowlist) &&
       negb (bool_decide (is_Some allowlistMatch)) && negb asked.1.1
    then Throw "exec denied: allowlist miss"
    else
      match allowlistMatch with
      | Some entry =>
          recorded ← recordAllowlistUse rt asked.1.2 (d_agentId defaults) entry command_
                       (resolution ≫= resolvedPath) asked.2;
          Return ({| approvedByAsk := asked.1.1; allowlistMatched := allowlistMatch;
                     approvals_after := recorded.1 |}, recorded.2)
      | None =>
          Return ({| approvedByAsk := asked.1.1; allowlistMatched := None;
                     approvals_after := asked.1.2 |}, asked.2)
      end.

Inductive NodeApprovalDecision : Type := AllowOnce | AllowAlways.

(** The block [if (requiresAsk) { ... }] of [host === "node"]: the pair
    [(approvedByAsk, approvalDecision)] sent on to the node, or a denial. *)
Definition nodeAsk (askFallback_ : ExecSecurity) (decision : option string)
    : Outcome (bool * option NodeApprovalDecision) :=
  if decision_is decision "deny" then Throw "exec denied: user denied"
  else
    fallback ←
      (if negb (decision_truthy decision) then
         match askFallback_ with
         | SecFull => Return (true, Some AllowOnce)
         | SecAllowlist => Return (false, None)
         | SecDeny => Throw approval_unavailable
         end
       else Return (false, None));
    let once :=
      if decision_is decision "allow-once" then (true, Some AllowOnce) else fallback in
    Return (if decision_is decision "allow-always" then (true, Some AllowAlways) else once).

(** *** Abort and timeout handling of a spawned session *)

Inductive KillCause : Type := ByAbort | ByTimeout.

#[global] Instance KillCause_eq_dec : EqDecision KillCause.
Proof. solve_decision. Defined.

(** The variables of [execute] and the fields of the session that the
    handlers read and write.  A timer field is [true] while the timer is
    pending.  [kill_log] records every call of [killSession] with its cause
    and whether the session was backgrounded (or the call had yielded) at
    that moment. *)
Record Session : Type := {
  yielded : bool;
  backgrounded : bool;
  settled : bool;
  timedOut : bool;
  exited : bool;
  timeoutTimer : bool;
  timeoutFinalizeTimer : bool;
  yieldTimer : bool;
  kill_log : list (KillCause * bool)
}.

Definition set_flags (s : Session) (yielded_ backgrounded_ settled_ timedOut_ exited_ : bool)
    : Session :=
  {| yielded := yielded_; backgrounded := backgrounded_; settled := settled_;
     timedOut := timedOut_; exited := exited_; timeoutTimer := timeoutTimer s;
     timeoutFinalizeTimer := timeoutFinalizeTimer s; yieldTimer := yieldTimer s;
     kill_log := kill_log s |}.

Definition set_timers (s : Session) (timeout_ finalize_ yield_ : bool) : Session :=
  {| yielded := yielded s; backgrounded := backgrounded s; settled := settled s;
     timedOut := timedOut s; exited := exited s; timeoutTimer := timeout_;
     timeoutFinalizeTimer := finalize_; yieldTimer := yield_;
     kill_log := kill_log s |}.

(** Modelled from the spec: [killSession] of bash-tools.shared.ts is not
    among the sources; the spec has it kill the child process.  The model
    records the request. *)
Definition killSession (cause : KillCause) (s : Session) : Session :=
  {| yielded := yielded s; backgrounded := backgrounded s; settled := settled s;
     timedOut := timedOut s; exited := exited s; timeoutTimer := timeoutTimer s;
     timeoutFinalizeTimer := timeoutFinalizeTimer s; yieldTimer := yieldTimer s;
     kill_log := kill_log s ++ [(cause, yielded s || backgrounded s)] |}.

(** Modelled from the spec: [markBackgrounded] of bash-process-registry.ts
    is not among the sources; the spec has it mark [backgrounded=true]. *)
Definition markBackgrounded (s : Session) : Session :=
  set_flags s (yielded s) true (settled s) (timedOut s) (exited s).

(** Modelled from the spec: [markExited] of bash-process-registry.ts is not
    among the sources; it marks the session [exited]. *)
Definition markExited (s : Session) : Session :=
  set_flags s (yielded s) (backgrounded s) (settled s) (timedOut s) true.

(** [settle(fn)] *)
Definition settle (s : Session) : Session :=
  set_flags s (yielded s) (backgrounded s) true (timedOut s) (exited s).

Definition onAbortSignal (s : Session) : Session :=
  if yielded s || backgrounded s then s else killSession ByAbort s.

Definition onTimeout (s : Session) : Session :=
  let s1 := set_flags s (yielded s) (backgrounded s) (settled s) true (exited s) in
  let s2 := killSession ByTimeout s1 in
  set_timers s2 (timeoutTimer s2) true (yieldTimer s2).

(** The callback of the one-second timer armed by [onTimeout]. *)
Definition finalizeTimeout (s : Session) : Session :=
  if exited s then s else settle (markExited s).

(** [onYieldNow] and the callback of the yield timer. *)
Definition onYield (s : Session) : Session :=
  let s1 := set_timers s (timeoutTimer s) (timeoutFinalizeTimer s) false in
  if settled s1 then s1
  else
    let s2 := set_flags s1 true (backgrounded s1) (settled s1) (timedOut s1) (exited s1) in
    settle (markBackgrounded s2).

(** [handleExit]: the timers are cleared, the session is marked exited, and
    the promise settles unless the call has yielded. *)
Definition handleExit (s : Session) : Session :=
  let s1 := markExited (set_timers s false false false) in
  if yielded s1 || backgrounded s1 then s1 else settle s1.

Inductive Event : Type :=
| AbortSignal
| TimeoutExpires
| FinalizeExpires
| YieldElapses
| ProcessBackgrounds
| ChildExits.

(** One turn of the event loop.  A timer fires once and only while it is
    pending.  [ProcessBackgrounds] is a call of [markBackgrounded] from
    outside [execute]. *)
Definition step (s : Session) (e : Event) : Session :=
  match e with
  | AbortSignal => onAbortSignal s
  | TimeoutExpires =>
      if timeoutTimer s
      then onTimeout (set_timers s false (timeoutFinalizeTimer s) (yieldTimer s))
      else s
  | FinalizeExpires =>
      if timeoutFinalizeTimer s
      then finalizeTimeout (set_timers s (timeoutTimer s) false (yieldTimer s))
      else s
  | YieldElapses => if yieldTimer s then onYield s else s
  | ProcessBackgrounds => markBackgrounded s
  | ChildExits => if exited s then s else handleExit s
  end.

Definition run (s : Session) (events : list Event) : Session :=
  fold_left step events s.

(** The session right after spawn, with the timers armed as given. *)
Definition spawned (timeout_armed yield_armed : bool) : Session :=
  {| yielded := false; backgrounded := false; settled := false; timedOut := false;
     exited := false; timeoutTimer := timeout_armed; timeoutFinalizeTimer := false;
     yieldTimer := yield_armed; kill_log := [] |}.

End ExecTool.

(** ** src/infra/net/ssrf.ts *)

Module Ssrf.

Inductive SsrfError : Type :=
| SsrFBlockedError (message : string)
| Error (message : string).

Inductive Checked : Type :=
| Passed
| Raised (e : SsrfError).

Definition PRIVATE_IPV6_PREFIXES : list string := ["fe80:"; "fec0:"; "fc"; "fd"].
Definition BLOCKED_HOSTNAMES : list string := ["localhost"; "metadata.google.internal"].

(** [s.replace(/\.$/, EmptyString)]: one trailing dot is removed. *)
Fixpoint strip_trailing_dot (s : string) : string :=
  match s with
  | EmptyString => EmptyString
  | String c r =>
      match r with
      | EmptyString => if Ascii.eqb c "." then EmptyString else s
      | String _ _ => String c (strip_trailing_dot r)
      end
  end.

(** [s.startsWith("[") && s.endsWith("]") ? s.slice(1, -1) : s] *)
Definition strip_brackets (s : string) : string :=
  if Js.startsWith s "[" && Js.endsWith s "]" then Js.slice1m1 s else s.

Definition normalizeHostname (hostname : string) : string :=
  strip_brackets (strip_trailing_dot (Js.toLowerCase (Js.trim hostname))).

(** [Number.isNaN(value) || value < 0 || value > bound] *)
Definition out_of_range (bound : Z) (value : option Z) : bool :=
  match value with
  | None => true
  | Some v => (v <? 0)%Z || (bound <? v)%Z
  end.

Definition parseIpv4 (address : string) : option (list Z) :=
  let parts := Js.split "." address in
  if negb (length parts =? 4)%nat then None
  else
    let numbers := map (fun part => Js.parseInt part 10) parts in
    if existsb (out_of_range 255) numbers then None
    else Some (omap id numbers).

(** ToUint32 and ToInt32 *)
Definition to_uint32 (v : Z) : Z := (v mod 2 ^ 32)%Z.
Definition to_int32 (v : Z) : Z := ((v + 2 ^ 31) mod 2 ^ 32 - 2 ^ 31)%Z.

(** [(value >>> n) & 0xff] *)
Definition byte_at (value : Z) (n : Z) : Z :=
  Z.land (Z.shiftr (to_uint32 value) n) 255.

(** [[(value >>> 24) & 0xff, (value >>> 16) & 0xff, (value >>> 8) & 0xff,
    value & 0xff]] *)
Definition octets_of (value : Z) : list Z :=
  [byte_at value 24; byte_at value 16; byte_at value 8; Z.land (to_int32 value) 255].

Definition parseIpv4FromMappedIpv6 (mapped : string) : option (list Z) :=
  if Js.includes mapped "." then parseIpv4 mapped
  else
    let parts := filter (fun p => Js.truthy p = true) (Js.split ":" mapped) in
    match parts with
    | [single] =>
        let value := Js.parseInt single 16 in
        if out_of_range 4294967295 value then None
        else octets_of <$> value
    | [high_; low_] =>
        let high := Js.parseInt high_ 16 in
        let low := Js.parseInt low_ 16 in
        if out_of_range 65535 high || out_of_range 65535 low then None
        else
          match high, low with
          | Some h, Some l => Some (octets_of (to_int32 (Z.shiftl h 16) + l))
          | _, _ => None
          end
    | _ => None
    end.

(** [const [octet1, octet2] = parts] yields [undefined] past the end; a
    comparison with [undefined] is false. *)
Definition isPrivateIpv4 (parts : list Z) : bool :=
  let octet1 := parts !! 0%nat in
  let octet2 := parts !! 1%nat in
  let is1 (v : Z) := bool_decide (octet1 = Some v) in
  let is2 (v : Z) := bool_decide (octet2 = Some v) in
  let between2 (lo hi : Z) :=
    match octet2 with
    | Some o => (lo <=? o)%Z && (o <=? hi)%Z
    | None => false
    end in
  if is1 0%Z then true
  else if is1 10%Z then true
  else if is1 127%Z then true
  else if is1 169%Z && is2 254%Z then true
  else if is1 172%Z && between2 16%Z 31%Z then true
  else if is1 192%Z && is2 168%Z then true
  else if is1 100%Z && between2 64%Z 127%Z then true
  else false.

Definition isPrivateIpAddress (address : string) : bool :=
  let normalized := strip_brackets (Js.toLowerCase (Js.trim address)) in
  if negb (Js.truthy normalized) then false
  else
    match
      (if Js.startsWith normalized "::ffff:"
       then parseIpv4FromMappedIpv6 (Js.drop 7 normalized)
       else None)
    with
    | Some ipv4 => isPrivateIpv4 ipv4
    | None =>
        if Js.includes normalized ":" then
          if String.eqb normalized "::" || String.eqb normalized "::1" then true
          else existsb (fun prefix => Js.startsWith normalized prefix) PRIVATE_IPV6_PREFIXES
        else
          match parseIpv4 normalized with
          | None => false
          | Some ipv4 => isPrivateIpv4 ipv4
          end
    end.

Definition isBlockedHostname (hostname : string) : bool :=
  let normalized := normalizeHostname hostname in
  if negb (Js.truthy normalized) then false
  else if existsb (String.eqb normalized) BLOCKED_HOSTNAMES then true
  else
    Js.endsWith normalized ".localhost" ||
    Js.endsWith normalized ".local" ||
    Js.endsWith normalized ".internal".

(** [lookupFn(normalized, { all: true })]: the addresses, or a failure. *)
Definition LookupFn : Type := string -> Outcome (list string).

Definition assertPublicHostname (hostname : string) (lookupFn : LookupFn) : Checked :=
  let normalized := normalizeHostname hostname in
  if negb (Js.truthy normalized) then Raised (Error "Invalid hostname")
  else if isBlockedHostname normalized
  then Raised (SsrFBlockedError ("Blocked hostname: " +:+ hostname))
  else if isPrivateIpAddress normalized
  then Raised (SsrFBlockedError "Blocked: private/internal IP address")
  else
    match lookupFn normalized with
    | Throw e => Raised (Error e)
    | Return results =>
        if (length results =? 0)%nat
        then Raised (Error ("Unable to resolve hostname: " +:+ hostname))
        else if existsb isPrivateIpAddress results
        then Raised (SsrFBlockedError "Blocked: resolves to private/internal IP address")
        else Passed
    end.

End Ssrf.

(** ** Session model overrides (src/auto-reply/reply/session-reset-model.ts
    and src/sessions/model-overrides.ts; only their tests and callers are
    among the sources) *)

Module SessionOverrides.

Record SessionEntry : Type := {
  sessionId : string;
  updatedAt : Z;
  providerOverride : option string;
  modelOverride : option string;
  authProfileOverride : option string;
  authProfileOverrideSource : option string;
  authProfileOverrideCompactionCount : option Z
}.

Record ModelSelection : Type := {
  provider : string;
  model : string;
  isDefault : bool
}.

Definition set_model (entry : SessionEntry) (p m : option string) : SessionEntry :=
  {| sessionId := sessionId entry; updatedAt := updatedAt entry;
     providerOverride := p; modelOverride := m;
     authProfileOverride := authProfileOverride entry;
     authProfileOverrideSource := authProfileOverrideSource entry;
     authProfileOverrideCompactionCount := authProfileOverrideCompactionCount entry |}.

Definition clear_auth_profile (entry : SessionEntry) : SessionEntry :=
  {| sessionId := sessionId entry; updatedAt := updatedAt entry;
     providerOverride := providerOverride entry; modelOverride := modelOverride entry;
     authProfileOverride := None;
     authProfileOverrideSource := None;
     authProfileOverrideCompactionCount := None |}.

(** Modelled from the spec: [applyModelOverrideToSessionEntry] is called by
    session-status-tool.ts but not among the sources.  The spec has
    [providerOverride] and [modelOverride] set or cleared together: the
    default selection clears both, any other selection sets both. *)
Definition applyModelOverrideToSessionEntry (entry : SessionEntry)
    (selection : ModelSelection) : SessionEntry :=
  if isDefault selection then set_model entry None None
  else set_model entry (Some (provider selection)) (Some (model selection)).

(** Modelled from the spec: [applyResetModelOverride] is exercised by the
    tests of session-reset-model.ts but not among the sources.  Without a
    reset nothing changes.  On a reset, [select] reads a model hint at the
    head of the body; when it selects a model the hint is stripped from the
    body, the model override is applied and the auth-profile override is
    cleared with its source and compaction counter. *)
Definition applyResetModelOverride
    (select : string -> option (ModelSelection * string))
    (resetTriggered : bool) (bodyStripped : string) (entry : SessionEntry)
    : SessionEntry * string :=
  if negb resetTriggered then (entry, bodyStripped)
  else
    match select bodyStripped with
    | None => (entry, bodyStripped)
    | Some (selection, rest) =>
        (clear_auth_profile (applyModelOverrideToSessionEntry entry selection), rest)
    end.

(** [providerOverride] and [modelOverride] are both set or both cleared. *)
Definition overrides_paired (entry : SessionEntry) : Prop :=
  is_Some (providerOverride entry) <-> is_Some (modelOverride entry).

End SessionOverrides.

(** ** Push-to-transport mapping of the macOS chat transport
    (MacGatewayChatTransport.mapPushToTransportEvent; only its tests and the
    [AnyCodable] accessors are among the sources) *)

Module ChatTransport.

#[local] Set Warnings "-register-all".

(** The values an [AnyCodable] wraps. *)
Inductive AnyCodable : Type :=
| AnyNull
| AnyBool (b : bool)
| AnyInt (n : Z)
| AnyDouble (bits : Z)
| AnyString (s : string)
| AnyArray (items : list AnyCodable)
| AnyDictionary (entries : list (string * AnyCodable)).

(** The accessors of the extension of [AnyCodable]. *)
Definition stringValue (v : AnyCodable) : option string :=
  match v with AnyString s => Some s | _ => None end.

Definition boolValue (v : AnyCodable) : option bool :=
  match v with AnyBool b => Some b | _ => None end.

Definition intValue (v : AnyCodable) : option Z :=
  match v with AnyInt n => Some n | _ => None end.

Definition dictionaryValue (v : AnyCodable) : option (list (string * AnyCodable)) :=
  match v with AnyDictionary d => Some d | _ => None end.

Definition arrayValue (v : AnyCodable) : option (list AnyCodable) :=
  match v with AnyArray a => Some a | _ => None end.

(** [dict[key]] *)
Fixpoint dict_get (d : list (string * AnyCodable)) (key : string) : option AnyCodable :=
  match d with
  | [] => None
  | (k, v) :: rest => if String.eqb k key then Some v else dict_get rest key
  end.

(** [value.dictionaryValue?[key]] *)
Definition member (v : AnyCodable) (key : string) : option AnyCodable :=
  dictionaryValue v ≫= (fun d => dict_get d key).

Record Snapshot : Type := {
  health : AnyCodable;
  uptimems : Z
}.

Record HelloOk : Type := {
  protocol : Z;
  snapshot : Snapshot
}.

Record EventFrame : Type := {
  event : string;
  payload : option AnyCodable;
  seq : option Z
}.

Inductive GatewayPush : Type :=
| PushSnapshot (hello : HelloOk)
| PushEvent (frame : EventFrame)
| PushSeqGap (expected received : Z).

Record ChatEventPayload : Type := {
  runId : string;
  sessionKey : string;
  state : string
}.

Inductive TransportEvent : Type :=
| TransportHealth (ok : bool)
| TransportTick
| TransportChat (chat : ChatEventPayload)
| TransportSeqGap (expected received : Z).

(** Modelled from the spec: decoding of a chat payload [{runId, sessionKey,
    state}]. *)
Definition decodeChat (v : AnyCodable) : option ChatEventPayload :=
  r ← member v "runId" ≫= stringValue;
  k ← member v "sessionKey" ≫= stringValue;
  s ← member v "state" ≫= stringValue;
  Some {| runId := r; sessionKey := k; state := s |}.

(** Modelled from the spec: [mapPushToTransportEvent] is exercised by
    MacGatewayChatTransportMappingTests.swift but not among the sources.
    The mapping rules of the spec: a snapshot whose [health.ok] is a boolean
    maps to [health]; the events [health], [tick] and [chat] map to their
    transport events; any other event is dropped; a sequence gap maps to
    [seqGap].  Where the spec names no outcome (a payload of another shape)
    the frame is dropped. *)
Definition mapPushToTransportEvent (push : GatewayPush) : option TransportEvent :=
  match push with
  | PushSnapshot hello =>
      TransportHealth <$> (member (health (snapshot hello)) "ok" ≫= boolValue)
  | PushEvent frame =>
      if String.eqb (event frame) "health" then
        TransportHealth <$> ((payload frame ≫= (fun v => member v "ok")) ≫= boolValue)
      else if String.eqb (event frame) "tick" then Some TransportTick
      else if String.eqb (event frame) "chat" then
        TransportChat <$> (payload frame ≫= decodeChat)
      else None
  | PushSeqGap expected received => Some (TransportSeqGap expected received)
  end.

End ChatTransport.

(** * Specification-side definitions and scenarios *)

Import ExecApprovals ExecTool.
Import Ssrf.
Import SessionOverrides.
Import ChatTransport.

(** ** Scenarios of the exec tool *)

Definition witness_defaults : ExecToolDefaults :=
  {| d_host := Some HostSandbox; d_security := Some SecFull; d_ask := Some AskOff;
     d_agentId := Some "main";
     d_elevated := Some {| enabled := true; allowed := true; defaultLevel := LevelOff |} |}.

Definition witness_params (elevated : bool) : ExecParams :=
  {| command := "rg --version"; p_elevated := Some elevated; p_host := None;
     p_security := Some " Allowlist "; p_ask := Some "always" |}.

(** The kills that an abort signal caused. *)
Definition abort_kills (s : Session) : list (KillCause * bool) :=
  filter (fun k => k.1 = ByAbort) (kill_log s).

(** The call has yielded or the session is backgrounded. *)
Definition detached (s : Session) : bool := yielded s || backgrounded s.

(** ** The approvals file *)

(** The states of the file that the loader treats as malformed. *)
Definition malformed (rt : Runtime) (w : World) : Prop :=
  match approvals_file w with
  | FileMissing => True
  | FileUnreadable => True
  | FileContent raw =>
      match JSON_parse rt raw with
      | Throw _ => True
      | Return parsed => version_is_not_1 parsed = true
      end
  end.

Definition empty_normalized : ExecApprovalsFile :=
  {| version := Some 1%Z;
     socket := Some {| socket_path := None; socket_token := None |};
     defaults := Some no_defaults;
     agents := Some ∅ |}.

Definition plain_runtime (parsed : Outcome (option ExecApprovalsFile)) : Runtime :=
  {| os_homedir := "/home/clawd";
     path_join := fun a b => a +:+ "/" +:+ b;
     JSON_parse := fun _ => parsed;
     JSON_stringify := fun _ => "{}";
     RegExp_other := fun _ _ => Throw "SyntaxError" |}.

Definition world_with (content : FileState) : World :=
  {| approvals_file := content; writable := true; random_token := "dG9rZW4";
     now := 1700000000000%Z |}.


Definition entry_of (p : string) : ExecAllowlistEntry :=
  {| pattern := p; lastUsedAt := None; lastUsedCommand := None; lastResolvedPath := None |}.

Definition agent_with_allowlist (l : list ExecAllowlistEntry) : ExecApprovalsAgent :=
  {| scalars := no_defaults; allowlist := Some l |}.

(** The file of the wildcard-merge scenario. *)
Definition wildcard_merge_file : ExecApprovalsFile :=
  {| version := Some 1%Z; socket := None; defaults := None;
     agents := Some (<["*" := agent_with_allowlist [entry_of "/bin/hostname"]]>
                      (<["main" := agent_with_allowlist [entry_of "/usr/bin/uname"]]> ∅)) |}.

(** ** The gateway gate *)

(** The gate lets the command through. *)
Definition permits (o : Outcome (GatewayPass * World)) : Prop :=
  exists pass w', o = Return (pass, w').

Definition rg_resolution : CommandResolution :=
  {| rawExecutable := "rg"; resolvedPath := Some "/opt/homebrew/bin/rg";
     executableName := "rg" |}.

(** An approvals file whose agent [main] always asks, falls back on the
    allowlist, and allows [RG]. *)
Definition fallback_file (sec : ExecSecurity) : ExecApprovalsFile :=
  {| version := Some 1%Z; socket := None; defaults := None;
     agents :=
       Some (<["main" :=
                {| scalars := {| security := Some sec; ask := Some AskAlways;
                                 askFallback := Some SecAllowlist;
                                 autoAllowSkills := None |};
                   allowlist := Some [entry_of "RG"] |}]> ∅) |}.

Definition fallback_runtime (sec : ExecSecurity) : Runtime :=
  plain_runtime (Return (Some (fallback_file sec))).

Definition fallback_world : World := world_with (FileContent "{}").

Definition main_defaults : ExecToolDefaults :=
  {| d_host := Some HostGateway; d_security := Some SecFull; d_ask := Some AskOff;
     d_agentId := Some "main"; d_elevated := None |}.

(** ** The SSRF guard *)

(** A resolver that answers an IP literal with the literal itself. *)
Definition literal_lookup : LookupFn := fun host => Return [host].

(** ** Session entries and pushes *)

(** The selection of the tests: the catalog offers [minimax/m2.1], and the
    hint [minimax] at the head of the body selects it. *)
Definition select_minimax (body : string) : option (ModelSelection * string) :=
  if Js.startsWith body "minimax "
  then Some ({| provider := "minimax"; model := "m2.1"; isDefault := false |},
             Js.drop 8 body)
  else None.

Definition entry_s1 : SessionEntry :=
  {| sessionId := "s1"; updatedAt := 0%Z; providerOverride := None;
     modelOverride := None; authProfileOverride := Some "anthropic:default";
     authProfileOverrideSource := Some "user";
     authProfileOverrideCompactionCount := Some 2%Z |}.

Definition known_event (name : string) : bool :=
  String.eqb name "health" || String.eqb name "tick" || String.eqb name "chat".

Definition health_value (b : bool) : AnyCodable := AnyDictionary [("ok", AnyBool b)].

Definition chat_value (r k s : string) : AnyCodable :=
  AnyDictionary [("runId", AnyString r); ("sessionKey", AnyString k);
                 ("state", AnyString s)].

(** ** The glob semantics of the spec *)

(** The glob semantics in the words of the spec: [**] matches any
    characters, path separators included; [*] matches anything but a path
    separator; [?] matches one character; every other character matches
    itself; letters match in either case. *)
Inductive glob_token : Type :=
| GlobDeep
| GlobStar
| GlobOne
| GlobChar (c : ascii).

Fixpoint glob_tokens (p : string) : list glob_token :=
  match p with
  | EmptyString => []
  | String ch r =>
      if Ascii.eqb ch "*" then
        match r with
        | String next r' =>
            if Ascii.eqb next "*" then GlobDeep :: glob_tokens r'
            else GlobStar :: glob_tokens r
        | EmptyString => GlobStar :: glob_tokens r
        end
      else if Ascii.eqb ch "?" then GlobOne :: glob_tokens r
      else GlobChar ch :: glob_tokens r
  end.

Definition same_letter (c d : ascii) : bool :=
  Ascii.eqb (Js.lower_char c) (Js.lower_char d).

Fixpoint spec_glob_match (g : list glob_token) (s : string) : bool :=
  match g with
  | [] => match s with EmptyString => true | String _ _ => false end
  | GlobChar c :: g' =>
      match s with
      | String d s' => same_letter c d && spec_glob_match g' s'
      | EmptyString => false
      end
  | GlobOne :: g' =>
      match s with
      | String _ s' => spec_glob_match g' s'
      | EmptyString => false
      end
  | GlobStar :: g' =>
      (fix within_segment (s : string) : bool :=
         spec_glob_match g' s ||
         match s with
         | String d s' => negb (Ascii.eqb d "/") && within_segment s'
         | EmptyString => false
         end) s
  | GlobDeep :: g' =>
      (fix anywhere (s : string) : bool :=
         spec_glob_match g' s ||
         match s with
         | String _ s' => anywhere s'
         | EmptyString => false
         end) s
  end.

(** The target the code matches a trimmed pattern against: the resolved
    path, or else the raw executable, for a pattern that holds a slash, a
    backslash or a tilde; the executable name otherwise. *)
Definition match_target (p : string) (res : CommandResolution) : string :=
  if hasPath p then default (rawExecutable res) (resolvedPath res)
  else executableName res.

(** Characters of a pattern that the regular expression takes literally,
    besides the two glob characters. *)
Definition plain_char (c : ascii) : bool :=
  Ascii.eqb c "*" || Ascii.eqb c "?" || negb (RegExp.is_syntax_char c).

Fixpoint plain_pattern (p : string) : bool :=
  match p with
  | EmptyString => true
  | String c r => plain_char c && plain_pattern r
  end.

Fixpoint no_line_terminator (s : string) : bool :=
  match s with
  | EmptyString => true
  | String c r => negb (RegExp.is_line_terminator c) && no_line_terminator r
  end.

Definition node_of (t : glob_token) : RegExp.node :=
  match t with
  | GlobDeep => RegExp.Star RegExp.Dot
  | GlobStar => RegExp.Star RegExp.NotSlash
  | GlobOne => RegExp.One RegExp.Dot
  | GlobChar c => RegExp.One (RegExp.Lit c)
  end.

Definition lower_token (t : glob_token) : glob_token :=
  match t with
  | GlobChar c => GlobChar (Js.lower_char c)
  | _ => t
  end.

Definition tilde_resolution : CommandResolution :=
  {| rawExecutable := "rg~"; resolvedPath := Some "/opt/homebrew/bin/rg~";
     executableName := "rg~" |}.

(** No two backslashes follow one another in the string. *)
Fixpoint no_backslash_pair (s : string) : bool :=
  match s with
  | EmptyString => true
  | String a t =>
      match t with
      | String b _ => negb (Ascii.eqb a "\" && Ascii.eqb b "\") && no_backslash_pair t
      | EmptyString => true
      end
  end.

(** An executable whose name is [a], two backslashes and [b]. *)
Definition backslash_resolution : CommandResolution :=
  {| rawExecutable := "a\\b"; resolvedPath := None; executableName := "a\\b" |}.

(** Does the guard raise a [SsrFBlockedError] for this host? *)
Definition is_blocked (hostname : string) : bool :=
  match assertPublicHostname hostname literal_lookup with
  | Raised (SsrFBlockedError _) => true
  | _ => false
  end.

(** One host per blocked name and per blocked range. *)
Definition blocked_samples : list string :=
  ["localhost"; "LOCALHOST."; "api.localhost"; "printer.local"; "db.internal";
   "metadata.google.internal"; "0.0.0.0"; "10.1.2.3"; "127.0.0.1"; "169.254.169.254";
   "172.16.0.1"; "172.31.255.255"; "192.168.1.1"; "100.64.0.1"; "100.127.255.255";
   "::"; "[::1]"; "fc00::1"; "fdff::1"; "fe80::1"; "fec0::1";
   "::ffff:10.0.0.1"; "::ffff:7f00:1"; "::ffff:c0a8:101"].

(** A request that no responder has answered: pending, or resolved with
    [null]. *)
Definition unanswered (s : SocketRequest) : Prop :=
  resolved_with s = None \/ resolved_with s = Some None.

(** * Further parts of the sources *)

(** ** src/infra/exec-approvals.ts: snapshot and command parsing *)

Module ApprovalsStore.




(** The approval socket before decoding: the socket fails, the timer
    fires, or a chunk of bytes arrives. *)
Inductive SocketInput : Type :=
| InputError
| InputTimer
| InputChunk (data : list Byte.byte).

(** [data.toString("utf8")], applied by the data handler to every chunk on
    its own; [toString] is the decoder of the library. *)
Definition decoded (toString : list Byte.byte -> string) (input : SocketInput)
    : SocketEvent :=
  match input with
  | InputError => SocketError
  | InputTimer => TimerFires
  | InputChunk data => SocketData (toString data)
  end.

(** [requestExecApprovalViaSocket] over the bytes that arrive. *)
Definition requestExecApprovalViaSocket_bytes (toString : list Byte.byte -> string)
    (decision_of : string -> option string) (socketPath_ token_ : string)
    (inputs : list SocketInput) : option SocketDecision :=
  requestExecApprovalViaSocket decision_of socketPath_ token_ (map (decoded toString) inputs).

(** [s.indexOf(c)]: the position of the first [c], if there is one. *)
Fixpoint index_of (c : ascii) (s : string) : option nat :=
  match s with
  | EmptyString => None
  | String d r => if Ascii.eqb d c then Some 0%nat else S <$> index_of c r
  end.

(** [s.slice(0, n)] *)
Fixpoint take (n : nat) (s : string) : string :=
  match n, s with
  | S n', String c r => String c (take n' r)
  | _, _ => EmptyString
  end.

(** The match of [/^[^\s]+/]: the characters before the first white space. *)
Fixpoint leading_non_space (s : string) : string :=
  match s with
  | EmptyString => EmptyString
  | String c r => if Js.is_space c then EmptyString else String c (leading_non_space r)
  end.

Definition is_quote (c : ascii) : bool := Ascii.eqb c "034" || Ascii.eqb c "'".

(** [parseFirstToken]: a token that opens with a quote runs to the next
    quote of the same kind, when that quote is not right behind it, and to
    the end of the command otherwise. *)
Definition parseFirstToken (command_ : string) : option string :=
  match Js.trim command_ with
  | EmptyString => None
  | String first rest =>
      if is_quote first then
        match index_of first rest with
        | Some (S n) => Some (take (S n) rest)
        | _ => Some rest
        end
      else
        match leading_non_space (String first rest) with
        | EmptyString => None
        | token => Some token
        end
  end.

(** The parts of [node:path], [node:fs] and [process] that
    [resolveExecutablePath] reads. *)
Record PathRuntime : Type := {
  path_isAbsolute : string -> bool;
  path_resolve : string -> string -> string;
  path_basename : string -> string;
  path_delimiter : ascii;
  fs_existsSync : string -> bool;
  process_cwd : string;
  process_env_PATH : option string
}.

(** The [for] loop over the entries of [PATH]. *)
Fixpoint first_existing (rt : Runtime) (prt : PathRuntime) (entries : list string)
    (expanded : string) : option string :=
  match entries with
  | [] => None
  | entry :: rest =>
      let candidate := path_join rt entry expanded in
      if fs_existsSync prt candidate then Some candidate
      else first_existing rt prt rest expanded
  end.

(** [a ?? b] *)
Definition or_else {A : Type} (a b : option A) : option A :=
  match a with
  | Some _ => a
  | None => b
  end.

Definition resolveExecutablePath (rt : Runtime) (prt : PathRuntime) (rawExecutable : string)
    (cwd : option string) (env : option (gmap string string)) : option string :=
  let expanded :=
    if Js.startsWith rawExecutable "~" then expandHome rt rawExecutable
    else rawExecutable in
  if Js.includes expanded "/" || Js.includes expanded "\" then
    if path_isAbsolute prt expanded then Some expanded
    else
      let base :=
        match cwd with
        | Some c => if Js.truthy c && Js.truthy (Js.trim c) then Js.trim c
                    else process_cwd prt
        | None => process_cwd prt
        end in
      Some (path_resolve prt base expanded)
  else
    let envPath :=
      default EmptyString (or_else (env ≫= (.!! "PATH")) (process_env_PATH prt)) in
    let entries := List.filter Js.truthy (Js.split (path_delimiter prt) envPath) in
    first_existing rt prt entries expanded.

End ApprovalsStore.

(** ** src/agents/bash-tools.exec.ts: the environment of the child and the
    exit notification *)

Module ExecEnv.

(** [parts.join(sep)] for a one-character separator. *)
Fixpoint join (sep : ascii) (parts : list string) : string :=
  match parts with
  | [] => EmptyString
  | p :: rest =>
      match rest with
      | [] => p
      | _ :: _ => p +:+ String sep (join sep rest)
      end
  end.

(** [value.replace(/\s+/g, " ")]; [in_run] tells that the character before
    was white space. *)
Fixpoint replace_space_runs (in_run : bool) (value : string) : string :=
  match value with
  | EmptyString => EmptyString
  | String c r =>
      if Js.is_space c then
        if in_run then replace_space_runs true r
        else String " " (replace_space_runs true r)
      else String c (replace_space_runs false r)
  end.

Definition normalizeNotifyOutput (value : string) : string :=
  Js.trim (replace_space_runs false value).

(** The [for] loop of [normalizePathPrepend] with its set [seen] and its
    array [normalized]. *)
Fixpoint normalizePathPrepend_loop (entries : list string) (seen : gset string)
    (normalized : list string) : list string :=
  match entries with
  | [] => normalized
  | entry :: rest =>
      let trimmed := Js.trim entry in
      if negb (Js.truthy trimmed) || bool_decide (trimmed ∈ seen)
      then normalizePathPrepend_loop rest seen normalized
      else normalizePathPrepend_loop rest ({[trimmed]} ∪ seen) (normalized ++ [trimmed])
  end.

(** [entries] at its declared type, an optional array of strings. *)
Definition normalizePathPrepend (entries : option (list string)) : list string :=
  match entries with
  | None => []
  | Some l => normalizePathPrepend_loop l ∅ []
  end.

(** The [for] loop of [mergePathPrepend] with its set [seen] and its array
    [merged]. *)
Fixpoint mergePathPrepend_loop (parts : list string) (seen : gset string)
    (merged : list string) : list string :=
  match parts with
  | [] => merged
  | part :: rest =>
      if bool_decide (part ∈ seen) then mergePathPrepend_loop rest seen merged
      else mergePathPrepend_loop rest ({[part]} ∪ seen) (merged ++ [part])
  end.

(** [s.split(path.delimiter).map((part) => part.trim()).filter(Boolean)] *)
Definition path_parts (delimiter : ascii) (s : string) : list string :=
  List.filter Js.truthy (map Js.trim (Js.split delimiter s)).

Definition mergePathPrepend (delimiter : ascii) (existing : option string)
    (prepend : list string) : option string :=
  match prepend with
  | [] => existing
  | _ :: _ =>
      let partsExisting := path_parts delimiter (default EmptyString existing) in
      Some (join delimiter (mergePathPrepend_loop (prepend ++ partsExisting) ∅ []))
  end.

(** Truthiness of [env.PATH]; the environment is a [Record<string, string>]. *)
Definition has_PATH (env : gmap string string) : bool :=
  match env !! "PATH" with
  | Some v => Js.truthy v
  | None => false
  end.

(** [if (merged) env.PATH = merged] *)
Definition set_PATH (merged : option string) (env : gmap string string) : gmap string string :=
  match merged with
  | Some m => if Js.truthy m then <["PATH" := m]> env else env
  | None => env
  end.

(** [requireExisting] is [options?.requireExisting], [false] when absent. *)
Definition applyPathPrepend (delimiter : ascii) (env : gmap string string) (prepend : list string)
    (requireExisting : bool) : gmap string string :=
  match prepend with
  | [] => env
  | _ :: _ =>
      if requireExisting && negb (has_PATH env) then env
      else set_PATH (mergePathPrepend delimiter (env !! "PATH") prepend) env
  end.

Definition applyShellPath (delimiter : ascii) (env : gmap string string) (shellPath : option string)
    : gmap string string :=
  match shellPath with
  | None => env
  | Some sp =>
      if negb (Js.truthy sp) then env
      else
        match path_parts delimiter sp with
        | [] => env
        | entries => set_PATH (mergePathPrepend delimiter (env !! "PATH") entries) env
        end
  end.

(** [session.exitSignal]: a signal name or a number. *)
Inductive ExitSignal : Type :=
| SignalName (name : string)
| SignalNumber (n : Z).

(** The fields of [ProcessSession] that [maybeNotifyOnExit] reads and
    writes. *)
Record ProcessSession : Type := {
  ps_id : string;
  ps_backgrounded : bool;
  ps_notifyOnExit : bool;
  ps_exitNotified : bool;
  ps_sessionKey : option string;
  ps_exitSignal : option ExitSignal;
  ps_exitCode : option Z;
  ps_tail : string;
  ps_aggregated : string
}.

Inductive ExitStatus : Type := Completed | Failed.

(** What [enqueueSystemEvent] and [requestHeartbeatNow] have been asked
    for, oldest first. *)
Record Outbox : Type := {
  system_events : list (string * string);
  heartbeats : list string
}.

Definition signal_truthy (sig : option ExitSignal) : bool :=
  match sig with
  | Some (SignalName n) => Js.truthy n
  | Some (SignalNumber n) => negb (n =? 0)%Z
  | None => false
  end.

Definition status_text (status : ExitStatus) : string :=
  match status with
  | Completed => "completed"
  | Failed => "failed"
  end.

(** [a || b] on strings *)
Definition or_string (a b : string) : string := if Js.truthy a then a else b.

(** [maybeNotifyOnExit].  [tail] is the function of that name of
    bash-process-registry.ts and [show] renders a number in a template
    string. *)
Definition maybeNotifyOnExit (tail : string -> nat -> string) (show : Z -> string)
    (session : ProcessSession) (status : ExitStatus) (out : Outbox)
    : ProcessSession * Outbox :=
  if negb (ps_backgrounded session) || negb (ps_notifyOnExit session) ||
     ps_exitNotified session
  then (session, out)
  else
    match Js.trim <$> ps_sessionKey session with
    | None => (session, out)
    | Some sessionKey =>
        if negb (Js.truthy sessionKey) then (session, out)
        else
          let session' :=
            {| ps_id := ps_id session; ps_backgrounded := ps_backgrounded session;
               ps_notifyOnExit := ps_notifyOnExit session; ps_exitNotified := true;
               ps_sessionKey := ps_sessionKey session;
               ps_exitSignal := ps_exitSignal session;
               ps_exitCode := ps_exitCode session; ps_tail := ps_tail session;
               ps_aggregated := ps_aggregated session |} in
          let exitLabel :=
            if signal_truthy (ps_exitSignal session) then
              "signal " +:+
              match ps_exitSignal session with
              | Some (SignalName n) => n
              | Some (SignalNumber n) => show n
              | None => EmptyString
              end
            else "code " +:+ show (default 0%Z (ps_exitCode session)) in
          let output :=
            normalizeNotifyOutput
              (tail (or_string (ps_tail session)
                       (or_string (ps_aggregated session) EmptyString)) 400%nat) in
          let head :=
            "Exec " +:+ status_text status +:+ " (" +:+ substring 0 8 (ps_id session) +:+
            ", " +:+ exitLabel +:+ ")" in
          let summary := if Js.truthy output then head +:+ " :: " +:+ output else head in
          (session',
           {| system_events := system_events out ++ [(summary, sessionKey)];
              heartbeats :=
                heartbeats out ++ ["exec:" +:+ ps_id session +:+ ":exit"] |})
    end.

End ExecEnv.

(** * Further specification-side definitions *)

Import ApprovalsStore.
Import ExecEnv.

(** No character of the string is white space. *)
Fixpoint no_space (s : string) : bool :=
  match s with
  | EmptyString => true
  | String c r => negb (Js.is_space c) && no_space r
  end.

(** The character does not occur in the string. *)
Fixpoint lacks (c : ascii) (s : string) : bool :=
  match s with
  | EmptyString => true
  | String d r => negb (Ascii.eqb d c) && lacks c r
  end.


(** The key under which an agent is stored: [agentId ?? "default"]. *)
Definition agent_key (agentId : option string) : string := default "default" agentId.

(** The record stored for a key, [{}] when there is none. *)
Definition stored_agent (f : ExecApprovalsFile) (key : string) : ExecApprovalsAgent :=
  default no_agent (default ∅ (agents f) !! key).

(** The allowlist stored for a key, empty when there is none. *)
Definition stored_allowlist (f : ExecApprovalsFile) (key : string)
    : list ExecAllowlistEntry :=
  default [] (allowlist (stored_agent f key)).

(** The entry after a use was recorded on it. *)
Definition used_entry (item : ExecAllowlistEntry) (at_ : Z) (command_ : string)
    (resolvedPath_ : option string) : ExecAllowlistEntry :=
  {| pattern := pattern item; lastUsedAt := Some at_; lastUsedCommand := Some command_;
     lastResolvedPath := resolvedPath_ |}.

(** What the loop of [matchAllowlist] asks of one entry: a blank pattern
    and an empty target do not match; any other pattern is matched against
    its target. *)
Definition entry_matches (rt : Runtime) (res : CommandResolution)
    (e : ExecAllowlistEntry) : Outcome bool :=
  let p := Js.trim (pattern e) in
  if negb (Js.truthy p) then Return false
  else if Js.truthy (match_target p res) then matchesPattern rt p (match_target p res)
  else Return false.

(** Characters of a pattern that are neither glob characters nor
    regular-expression syntax, the dot apart. *)
Definition exact_char (c : ascii) : bool :=
  negb (existsb (Ascii.eqb c)
          ["*"; "?"; "\"; "^"; "$"; "+"; "("; ")"; "["; "]"; "{"; "}"; "|"]%char).

Fixpoint exact_pattern (p : string) : bool :=
  match p with
  | EmptyString => true
  | String c r => exact_char c && exact_pattern r
  end.

(** The pattern and the target have the same length and agree position by
    position: letters in either case, and a dot of the pattern with any
    character that is not a line terminator. *)
Fixpoint letters_agree (p t : string) : bool :=
  match p, t with
  | EmptyString, EmptyString => true
  | String a p', String b t' =>
      ((Ascii.eqb a "." && negb (RegExp.is_line_terminator b)) || same_letter a b) &&
      letters_agree p' t'
  | _, _ => false
  end.

(** The node of the regular expression for a character of such a pattern. *)
Definition exact_node (c : ascii) : RegExp.node :=
  if Ascii.eqb c "." then RegExp.One RegExp.Dot else RegExp.One (RegExp.Lit c).

(** The file a first run leaves on disk when there was none: the default
    socket path, a fresh token, no defaults and no agents. *)
Definition fresh_file (rt : Runtime) (w : World) : ExecApprovalsFile :=
  {| version := Some 1%Z;
     socket := Some {| socket_path := Some (resolveExecApprovalsSocketPath rt);
                       socket_token := Some (random_token w) |};
     defaults := Some no_defaults;
     agents := Some ∅ |}.

(** The text [saveExecApprovals] writes for a file. *)
Definition saved_text (rt : Runtime) (f : ExecApprovalsFile) : string :=
  JSON_stringify rt f +:+ String "010" EmptyString.

(** The value is not empty and has no white space around it. *)
Definition trimmed_nonempty (s : string) : Prop := nonempty_trimmed (Some s) = Some s.

(** A runtime whose JSON reader returns the fresh file of the scenario
    world, with the home directory of [plain_runtime]. *)
Definition fresh_runtime : Runtime :=
  plain_runtime
    (Return (Some (fresh_file (plain_runtime (Throw "unused")) (world_with FileMissing)))).

(** A responder protocol for the scenarios: every non-blank line is a
    decision that carries its own text. *)
Definition line_decision (line : string) : option string :=
  if Js.truthy line then Some line else None.

(** The states of a request that behave alike: both resolved with the same
    value, or both pending with the same buffer, which holds no complete
    line. *)
Definition alike (s s' : SocketRequest) : Prop :=
  resolved_with s = resolved_with s' /\
  (resolved_with s = None -> buffer s = buffer s' /\ lacks "010" (buffer s) = true).

(** A line of text with its terminator. *)
Definition line_of (text : string) : string := text +:+ String "010" EmptyString.

(** The entry [addAllowlistEntry] appends for a pattern. *)
Definition added_entry (p : string) (w : World) : ExecAllowlistEntry :=
  {| pattern := Js.trim p; lastUsedAt := Some (now w);
     lastUsedCommand := None; lastResolvedPath := None |}.

(** ** Path lists *)

(** The list without repetitions: of equal strings the first is kept. *)
Fixpoint nub (l : list string) : list string :=
  match l with
  | [] => []
  | x :: r => x :: List.filter (fun y => negb (String.eqb y x)) (nub r)
  end.

(** The string is none of the given ones. *)
Definition outside (a : list string) (y : string) : bool :=
  negb (existsb (String.eqb y) a).

(** An entry of a path list as the code leaves it: not empty, without
    surrounding white space and without the delimiter. *)
Definition path_entry (delimiter : ascii) (p : string) : bool :=
  Js.truthy p && String.eqb (Js.trim p) p && lacks delimiter p.

(** An environment without [PATH]. *)
Definition home_env : gmap string string := <["HOME" := "/home/clawd"]> ∅.

(** ** Notification text *)

(** Every white-space character of the string is a space that follows a
    character that is not white space; [prev] tells that the character
    before the string was white space. *)
Fixpoint single_spaces (prev : bool) (s : string) : bool :=
  match s with
  | EmptyString => true
  | String c r =>
      if Js.is_space c then Ascii.eqb c " " && negb prev && single_spaces true r
      else single_spaces false r
  end.

(** The last character, if there is one, is not white space. *)
Fixpoint ends_clean (s : string) : bool :=
  match s with
  | EmptyString => true
  | String c r =>
      match r with
      | EmptyString => negb (Js.is_space c)
      | String _ _ => ends_clean r
      end
  end.

(** Words separated by single spaces, with no white space at either end. *)
Definition tidy (s : string) : bool := single_spaces true s && ends_clean s.

(** The characters that are not white space, in order. *)
Fixpoint letters (s : string) : string :=
  match s with
  | EmptyString => EmptyString
  | String c r => if Js.is_space c then letters r else String c (letters r)
  end.

(** The conditions under which an exit is announced: the session is
    backgrounded, asks for the notification, has not been announced, and
    has a session key that is not blank. *)
Definition announces (session : ProcessSession) : bool :=
  ps_backgrounded session && ps_notifyOnExit session && negb (ps_exitNotified session) &&
  match ps_sessionKey session with
  | Some key => Js.truthy (Js.trim key)
  | None => false
  end.

(** A backgrounded session that has exited with code 0. *)
Definition finished_session : ProcessSession :=
  {| ps_id := "a1b2c3d4e5f6"; ps_backgrounded := true; ps_notifyOnExit := true;
     ps_exitNotified := false; ps_sessionKey := Some " agent:main "; ps_exitSignal := None;
     ps_exitCode := Some 0%Z; ps_tail := EmptyString; ps_aggregated := EmptyString |}.

(** ** Looking up an executable *)

(** The executable after [~] expansion, as [resolveExecutablePath] computes
    it. *)
Definition expanded_executable (rt : Runtime) (rawExecutable_ : string) : string :=
  if Js.startsWith rawExecutable_ "~" then expandHome rt rawExecutable_ else rawExecutable_.

(** The directories that are searched: the entries of the [PATH] of the
    given environment, or else of the process, that are not empty. *)
Definition search_path (prt : PathRuntime) (env : option (gmap string string))
    : list string :=
  List.filter Js.truthy
    (Js.split (path_delimiter prt)
       (default EmptyString (or_else (env ≫= (.!! "PATH")) (process_env_PATH prt)))).

(** The executable names a path: it holds a slash or a backslash. *)
Definition names_path (s : string) : bool := Js.includes s "/" || Js.includes s "\".

(** A file system in which [/usr/bin/rg] is the only file. *)
Definition rg_files : PathRuntime :=
  {| path_isAbsolute := fun p => Js.startsWith p "/";
     path_resolve := fun base p => base +:+ "/" +:+ p;
     path_basename := fun p => p;
     path_delimiter := ":";
     fs_existsSync := fun p => String.eqb p "/usr/bin/rg";
     process_cwd := "/work";
     process_env_PATH := Some "/opt/bin::/usr/bin:/bin" |}.

(** ** Address literals *)

Definition is_digit (c : ascii) : bool :=
  let n := nat_of_ascii c in (48 <=? n)%nat && (n <=? 57)%nat.

Definition digit (k : Z) : ascii := ascii_of_nat (48 + Z.to_nat k).

(** The decimal text of an octet. *)
Definition decimal (n : Z) : string :=
  if (n <? 10)%Z then String (digit n) EmptyString
  else if (n <? 100)%Z
  then String (digit (n / 10)) (String (digit (n mod 10)) EmptyString)
  else String (digit (n / 100))
         (String (digit (n / 10 mod 10)) (String (digit (n mod 10)) EmptyString)).

(** The dotted-quad literal of four octets. *)
Definition dotted (a b c d : Z) : string :=
  decimal a +:+ "." +:+ decimal b +:+ "." +:+ decimal c +:+ "." +:+ decimal d.

Definition is_octet (n : Z) : Prop := (0 <= n <= 255)%Z.

(** The private IPv4 ranges 0/8, 10/8, 127/8, 169.254/16, 172.16/12,
    192.168/16 and 100.64/10, by the first two octets. *)
Definition private_range (a b : Z) : Prop :=
  (a = 0 \/ a = 10 \/ a = 127 \/ (a = 169 /\ b = 254) \/
   (a = 172 /\ 16 <= b <= 31) \/ (a = 192 /\ b = 168) \/
   (a = 100 /\ 64 <= b <= 127))%Z.

(** Every character is a digit or a dot. *)
Fixpoint digits_dots (s : string) : bool :=
  match s with
  | EmptyString => true
  | String c r => (is_digit c || Ascii.eqb c ".") && digits_dots r
  end.

(** What the guard needs of the text of one octet. *)
Definition octet_text (n : Z) : bool :=
  bool_decide (Js.parseInt (decimal n) 10 = Some n) &&
  digits_dots (decimal n) && lacks "." (decimal n) && Js.truthy (decimal n) &&
  String.eqb (strip_trailing_dot (decimal n)) (decimal n).

Definition blocked_address : Checked :=
  Raised (SsrFBlockedError "Blocked: private/internal IP address").

(** The IPv4-mapped IPv6 literal of four octets. *)
Definition mapped (a b c d : Z) : string := "::ffff:" +:+ dotted a b c d.

(** The octets of a 32-bit value, most significant first. *)
Definition octets (v : Z) : list Z :=
  [v / 2 ^ 24; v / 2 ^ 16 mod 256; v / 2 ^ 8 mod 256; v mod 256]%Z.

(** A resolver that answers every name with the given addresses. *)
Definition answers (addresses : list string) : LookupFn := fun _ => Return addresses.

(** ** Local host names *)

Definition local_suffixes : list string := [".localhost"; ".local"; ".internal"].

(** The names the guard refuses: [localhost], [metadata.google.internal]
    and every name under [.localhost], [.local] or [.internal]. *)
Definition local_name (n : string) : Prop :=
  In n BLOCKED_HOSTNAMES \/
  exists label suffix, In suffix local_suffixes /\ n = label +:+ suffix.

(** What the proofs need of the end of a local name. *)
Definition clean_tail (t : string) : bool :=
  Js.truthy t && String.eqb (strip_trailing_dot t) t && ends_clean t &&
  negb (Js.endsWith t "]") && String.eqb (Js.toLowerCase t) t.

(** ** The life of a session *)

(** The kills that an expired timeout caused. *)
Definition timeout_kills (s : Session) : list (KillCause * bool) :=
  filter (fun k => k.1 = ByTimeout) (kill_log s).

(** What holds of every session that [execute] has spawned, whatever
    happened since: a pending finalizer means that the timeout has fired, a
    session that has exited has no timeout pending, and the timeout has
    killed at most once, and not at all while it is still pending. *)
Definition timers_sound (s : Session) : Prop :=
  (timeoutFinalizeTimer s = true -> timeoutTimer s = false) /\
  (exited s = true -> timeoutTimer s = false) /\
  (length (timeout_kills s) + (if timeoutTimer s then 1 else 0) <= 1)%nat.

(** What holds as long as nothing outside [execute] marks the session
    backgrounded: the call has yielded exactly when the session is
    backgrounded, and the promise is settled once the call has yielded or
    the child has exited. *)
Definition promise_sound (s : Session) : Prop :=
  yielded s = backgrounded s /\
  (yielded s = true -> settled s = true) /\
  (exited s = true -> settled s = true).

(** * Properties *)

(** ** Security and ask composition *)

Lemma minSecurity_order (a b : ExecSecurity) :
  security_order (minSecurity a b) = Z.min (security_order a) (security_order b).
Proof. destruct a, b; reflexivity. Qed.

Lemma maxAsk_order (a b : ExecAsk) :
  ask_order (maxAsk a b) = Z.max (ask_order a) (ask_order b).
Proof. destruct a, b; reflexivity. Qed.

(** C5: [minSecurity] is commutative and associative on
    {deny, allowlist, full} and [deny] absorbs; [maxAsk] is commutative and
    associative on {off, on-miss, always} and [always] absorbs. *)
Theorem minSecurity_maxAsk_algebra :
  (forall a b, minSecurity a b = minSecurity b a) /\
  (forall a b c, minSecurity a (minSecurity b c) = minSecurity (minSecurity a b) c) /\
  (forall x, minSecurity SecDeny x = SecDeny /\ minSecurity x SecDeny = SecDeny) /\
  (forall a b, maxAsk a b = maxAsk b a) /\
  (forall a b c, maxAsk a (maxAsk b c) = maxAsk (maxAsk a b) c) /\
  (forall x, maxAsk AskAlways x = AskAlways /\ maxAsk x AskAlways = AskAlways).
Proof.
  repeat split.
  - intros [] []; reflexivity.
  - intros [] [] []; reflexivity.
  - destruct x; reflexivity.
  - destruct x; reflexivity.
  - intros [] []; reflexivity.
  - intros [] [] []; reflexivity.
  - destruct x; reflexivity.
  - destruct x; reflexivity.
Qed.

(** ** The gates of the exec tool *)

Lemma resolveExecPolicy_inv defaults params pol :
  resolveExecPolicy defaults params = Return pol ->
  host pol =
    (if elevatedRequested defaults params then HostGateway
     else default (default HostSandbox (d_host defaults)) (normalizeExecHost (p_host params)))
  /\ policy_security pol =
       (if elevatedRequested defaults params then SecFull
        else minSecurity (configuredSecurity defaults (host pol))
               (default (configuredSecurity defaults (host pol))
                  (normalizeExecSecurity (p_security params))))
  /\ policy_ask pol =
       maxAsk (configuredAsk defaults)
         (default (configuredAsk defaults) (normalizeExecAsk (p_ask params))).
Proof.
  unfold resolveExecPolicy.
  destruct (negb (Js.truthy (command params))); [discriminate |].
  destruct (elevatedRequested defaults params && elevated_gates_fail defaults);
    [discriminate |].
  match goal with |- context [if ?c then Throw "exec host not allowed" else _] =>
    destruct c end; [discriminate |].
  intros [= <-]; cbn [host policy_security policy_ask].
  destruct (elevatedRequested defaults params); auto.
Qed.

(** C2: the security of a request is the minimum of the configured and the
    requested security under deny < allowlist < full (the configured one
    stands in when none is requested), its ask is the maximum of the
    configured and the requested ask under off < on-miss < always, and a
    request that is elevated and passes the elevated gates runs on the
    gateway with security full, whatever was configured or requested. *)
Theorem exec_policy_composition (defaults : ExecToolDefaults) (params : ExecParams) :
  (forall pol,
     resolveExecPolicy defaults params = Return pol ->
     let configured := configuredSecurity defaults (host pol) in
     let requested := default configured (normalizeExecSecurity (p_security params)) in
     let requestedAsk :=
       default (configuredAsk defaults) (normalizeExecAsk (p_ask params)) in
     (elevatedRequested defaults params = false ->
        policy_security pol = minSecurity configured requested /\
        security_order (policy_security pol) =
          Z.min (security_order configured) (security_order requested)) /\
     (policy_ask pol = maxAsk (configuredAsk defaults) requestedAsk /\
      ask_order (policy_ask pol) =
        Z.max (ask_order (configuredAsk defaults)) (ask_order requestedAsk)) /\
     (elevatedRequested defaults params = true ->
        host pol = HostGateway /\ policy_security pol = SecFull)) /\
  (Js.truthy (command params) = true ->
   elevatedRequested defaults params = true ->
   elevated_gates_fail defaults = false ->
   exists pol, resolveExecPolicy defaults params = Return pol /\
               host pol = HostGateway /\ policy_security pol = SecFull).
Proof.
  split.
  - intros pol Hpol.
    destruct (resolveExecPolicy_inv _ _ _ Hpol) as (Hh & Hs & Ha).
    cbn zeta. split; [| split].
    + intros He. rewrite He in Hs. split; [exact Hs |].
      rewrite Hs. apply minSecurity_order.
    + split; [exact Ha |]. rewrite Ha. apply maxAsk_order.
    + intros He. rewrite He in Hh, Hs. split; assumption.
  - intros Hc He Hg. unfold resolveExecPolicy.
    rewrite Hc, He, Hg. cbn. eexists. split; [reflexivity | split; reflexivity].
Qed.

Lemma exec_policy_composition_witness :
  (resolveExecPolicy witness_defaults (witness_params false) =
     Return {| host := HostSandbox; policy_security := SecAllowlist;
               policy_ask := AskAlways |}) /\
  (policy_security
     {| host := HostSandbox; policy_security := SecAllowlist; policy_ask := AskAlways |} =
   minSecurity SecFull SecAllowlist) /\
  (exists pol, resolveExecPolicy witness_defaults (witness_params true) = Return pol /\
               host pol = HostGateway /\ policy_security pol = SecFull).
Proof.
  split; [reflexivity |]. split.
  - apply (proj1 (exec_policy_composition witness_defaults (witness_params false))
             {| host := HostSandbox; policy_security := SecAllowlist;
                policy_ask := AskAlways |}); reflexivity.
  - apply (proj2 (exec_policy_composition witness_defaults (witness_params true)));
      reflexivity.
Defined.

(** ** Abort and timeout *)

Lemma step_detached s e : detached s = true -> detached (step s e) = true.
Proof.
  unfold detached. destruct s as [y b st t x tt tf yt log].
  cbn. intros H.
  destruct e, y, b, st, x, tt, tf, yt; cbn in *; congruence.
Qed.

Lemma step_abort_kills s e :
  detached s = true -> abort_kills (step s e) = abort_kills s.
Proof.
  unfold detached, abort_kills. destruct s as [y b st t x tt tf yt log].
  cbn. intros H.
  destruct e, y, b, st, x, tt, tf, yt; cbn in *; try congruence;
    rewrite filter_app, filter_cons_False, filter_nil, app_nil_r
      by (cbn; congruence);
    reflexivity.
Qed.

Lemma run_detached s events :
  detached s = true ->
  detached (run s events) = true /\ abort_kills (run s events) = abort_kills s.
Proof.
  revert s. induction events as [| e events IH]; intros s H; [easy |].
  unfold run in *. cbn [fold_left].
  destruct (IH (step s e) (step_detached _ _ H)) as [Hd Hk].
  split; [exact Hd |]. rewrite Hk. apply step_abort_kills, H.
Qed.

(** C7: once a session is backgrounded (or the call has yielded) an abort
    signal never kills the child, over any later sequence of events, while
    an expiring timeout kills it, backgrounded or not. *)
Theorem abort_spares_backgrounded_timeout_kills :
  (forall s, yielded s || backgrounded s = true ->
     kill_log (onAbortSignal s) = kill_log s) /\
  (forall s events, yielded s || backgrounded s = true ->
     (yielded (run s events) || backgrounded (run s events) = true) /\
     abort_kills (run s events) = abort_kills s) /\
  (forall s, kill_log (onTimeout s) =
             kill_log s ++ [(ByTimeout, yielded s || backgrounded s)]) /\
  (forall s, timeoutTimer s = true ->
     kill_log (step s TimeoutExpires) =
     kill_log s ++ [(ByTimeout, yielded s || backgrounded s)]).
Proof.
  repeat split.
  - intros s H. unfold onAbortSignal. rewrite H. reflexivity.
  - apply (run_detached s events); assumption.
  - apply (run_detached s events); assumption.
  - intros s H. cbn. rewrite H. reflexivity.
Qed.

Lemma abort_spares_backgrounded_timeout_kills_witness :
  let s := run (spawned true true) [YieldElapses] in
  (yielded s || backgrounded s = true) /\
  abort_kills (run s [AbortSignal; ChildExits; AbortSignal]) = abort_kills s /\
  kill_log (step s TimeoutExpires) = [(ByTimeout, true)].
Proof.
  cbn zeta. split; [reflexivity |]. split.
  - apply (proj1 (proj2 abort_spares_backgrounded_timeout_kills)
             (run (spawned true true) [YieldElapses])
             [AbortSignal; ChildExits; AbortSignal]).
    reflexivity.
  - apply (proj2 (proj2 (proj2 abort_spares_backgrounded_timeout_kills))
             (run (spawned true true) [YieldElapses])).
    reflexivity.
Defined.

(** ** Loading and resolving the approvals file *)

Lemma normalize_empty_file : normalizeExecApprovals empty_file = empty_normalized.
Proof. reflexivity. Qed.

Lemma loadExecApprovals_cases (rt : Runtime) (w : World) :
  (malformed rt w /\ loadExecApprovals rt w = Return (normalizeExecApprovals empty_file)) \/
  (exists raw f0,
     approvals_file w = FileContent raw /\
     JSON_parse rt raw = Return (Some f0) /\
     version f0 = Some 1%Z /\
     loadExecApprovals rt w = Return (normalizeExecApprovals f0)).
Proof.
  unfold loadExecApprovals, malformed, existsSync, readFileSync.
  destruct (approvals_file w) as [| | raw]; cbn; auto.
  destruct (JSON_parse rt raw) as [parsed | e] eqn:Hparse; cbn; auto.
  destruct (version_is_not_1 parsed) eqn:Hv; cbn; auto.
  destruct parsed as [f0 |]; [| discriminate].
  right. exists raw, f0. repeat split; auto.
  unfold version_is_not_1 in Hv. cbn in Hv.
  destruct (version f0) as [v |]; [| discriminate].
  apply negb_false_iff, Z.eqb_eq in Hv. congruence.
Qed.


(** C10: [loadExecApprovals] never throws.  Whatever the state of the file,
    it returns a file with version 1, a socket object, a defaults object
    and a defined agents map; when the file is missing or unreadable, is
    not valid JSON, or holds a version other than 1, the result is the
    empty normalized file. *)
Theorem loadExecApprovals_total (rt : Runtime) (w : World) :
  exists f,
    loadExecApprovals rt w = Return f /\
    version f = Some 1%Z /\
    is_Some (socket f) /\ is_Some (defaults f) /\ is_Some (agents f) /\
    (malformed rt w -> f = empty_normalized).
Proof.
  destruct (loadExecApprovals_cases rt w) as [[Hm H] | (raw & f0 & Hc & Hp & Hv & H)].
  - exists (normalizeExecApprovals empty_file). repeat split; eauto.
  - exists (normalizeExecApprovals f0). repeat split; eauto.
    unfold malformed. rewrite Hc, Hp. unfold version_is_not_1. cbn. rewrite Hv.
    discriminate.
Qed.

Lemma loadExecApprovals_total_witness :
  malformed (plain_runtime (Throw "SyntaxError")) (world_with (FileContent "{ not json")) /\
  loadExecApprovals (plain_runtime (Throw "SyntaxError"))
    (world_with (FileContent "{ not json")) = Return empty_normalized.
Proof.
  split; [exact I |].
  destruct (loadExecApprovals_total (plain_runtime (Throw "SyntaxError"))
              (world_with (FileContent "{ not json"))) as (f & Hf & _ & _ & _ & _ & He).
  rewrite Hf, (He I). reflexivity.
Defined.






Lemma loadExecApprovals_version_1 (rt : Runtime) (w : World) (raw : string)
    (f0 : ExecApprovalsFile) :
  approvals_file w = FileContent raw ->
  JSON_parse rt raw = Return (Some f0) ->
  version f0 = Some 1%Z ->
  loadExecApprovals rt w = Return (normalizeExecApprovals f0).
Proof.
  intros Hc Hp Hv. unfold loadExecApprovals, existsSync, readFileSync.
  rewrite Hc. cbn. rewrite Hp. cbn. unfold version_is_not_1. cbn. rewrite Hv.
  reflexivity.
Qed.



(** ** The approval socket without an answer *)

Lemma drain_lines_no_decision (pending rest : string) :
  (drain_lines (fun _ => None) pending rest).1 = None.
Proof.
  revert pending. induction rest as [| c rest IH]; intros pending; [reflexivity |].
  cbn [drain_lines]. destruct (Ascii.eqb c "010"); [| apply IH].
  destruct (negb (Js.truthy (Js.trim pending))); apply IH.
Qed.

Lemma socket_step_data (s : SocketRequest) (data : string) :
  resolved_with (socket_step (fun _ => None) s (SocketData data)) = resolved_with s.
Proof. cbn [socket_step]. rewrite drain_lines_no_decision. reflexivity. Qed.

Lemma socket_step_finish (s : SocketRequest) (e : SocketEvent) :
  unanswered s -> e = SocketError \/ e = TimerFires ->
  resolved_with (socket_step (fun _ => None) s e) = Some None.
Proof.
  intros Hs [-> | ->]; cbn [socket_step]; unfold finish;
    destruct Hs as [H | H]; rewrite H; auto.
Qed.

Lemma socket_step_unanswered (s : SocketRequest) (e : SocketEvent) :
  unanswered s -> unanswered (socket_step (fun _ => None) s e).
Proof.
  intros Hs. destruct e.
  - right. apply socket_step_finish; auto.
  - right. apply socket_step_finish; auto.
  - unfold unanswered. rewrite socket_step_data. exact Hs.
Qed.

Lemma socket_step_null (s : SocketRequest) (e : SocketEvent) :
  resolved_with s = Some None ->
  resolved_with (socket_step (fun _ => None) s e) = Some None.
Proof.
  intros Hs. destruct e.
  - apply socket_step_finish; [right |]; auto.
  - apply socket_step_finish; [right |]; auto.
  - rewrite socket_step_data. exact Hs.
Qed.

Lemma socket_fold_null (events : list SocketEvent) (s : SocketRequest) :
  resolved_with s = Some None ->
  resolved_with (fold_left (socket_step (fun _ => None)) events s) = Some None.
Proof.
  revert s. induction events as [| e events IH]; intros s Hs; [exact Hs |].
  cbn [fold_left]. apply IH, socket_step_null, Hs.
Qed.

(** When no line carries a decision, the promise resolves with [null] once
    the timer has fired; without a socket path or a token it resolves with
    [null] at once. *)
Lemma requestExecApprovalViaSocket_unanswered (socketPath_ token_ : string)
    (events : list SocketEvent) :
  (In TimerFires events ->
   requestExecApprovalViaSocket (fun _ => None) socketPath_ token_ events = Some None) /\
  (Js.truthy socketPath_ = false \/ Js.truthy token_ = false ->
   forall decision_of,
     requestExecApprovalViaSocket decision_of socketPath_ token_ events = Some None).
Proof.
  split.
  - intros Hin. unfold requestExecApprovalViaSocket.
    destruct (negb (Js.truthy socketPath_) || negb (Js.truthy token_)); [reflexivity |].
    assert (Hs : unanswered {| resolved_with := None; buffer := EmptyString |})
      by (left; reflexivity).
    revert Hs. generalize {| resolved_with := None; buffer := EmptyString |}.
    induction events as [| e events IH]; intros s Hs; [destruct Hin |].
    cbn [fold_left]. destruct Hin as [-> | Hin].
    + apply socket_fold_null, socket_step_finish; auto.
    + apply (IH Hin), socket_step_unanswered, Hs.
  - intros H decision_of. unfold requestExecApprovalViaSocket.
    destruct H as [-> | ->]; rewrite ?orb_true_r; reflexivity.
Qed.

(** ** Fallback of an unanswered approval request *)

Lemma resolveExecApprovals_writable (rt : Runtime) (agentId : option string)
    (overrides : option ExecApprovalsDefaults) (w : World)
    (r : ExecApprovalsResolved) (w' : World) :
  resolveExecApprovals rt agentId overrides w = Return (r, w') -> writable w' = true.
Proof.
  unfold resolveExecApprovals, ensureExecApprovals, saveExecApprovals.
  destruct (loadExecApprovals rt w) as [f | e]; cbn [mbind outcome_bind]; [| discriminate].
  destruct (writable w) eqn:Hw; cbn [mbind outcome_bind]; [| discriminate].
  intros [= _ <-]. reflexivity.
Qed.

Lemma recordAllowlistUse_returns (rt : Runtime) (f : ExecApprovalsFile)
    (agentId : option string) (entry : ExecAllowlistEntry) (cmd : string)
    (rp : option string) (w : World) :
  writable w = true ->
  exists f' w', recordAllowlistUse rt f agentId entry cmd rp w = Return (f', w').
Proof.
  intros Hw. unfold recordAllowlistUse, saveExecApprovals. rewrite Hw.
  cbn [mbind outcome_bind]. eauto.
Qed.

Section GatewayFallback.

Context (rt : Runtime) (defaults : ExecToolDefaults) (command_ : string)
  (security_ : ExecSecurity) (ask_ : ExecAsk)
  (resolution : option CommandResolution) (w : World).
Context (r : ExecApprovalsResolved) (w1 : World).

Let hostSecurity := minSecurity security_ (r_security (agent r)).
Let hostAsk := maxAsk ask_ (r_ask (agent r)).

Hypothesis resolved :
  resolveExecApprovals rt (d_agentId defaults) host_overrides w = Return (r, w1).
Hypothesis not_denied : hostSecurity <> SecDeny.

Context (m : option ExecAllowlistEntry).
Hypothesis matched : gateway_allowlistMatch rt hostSecurity r resolution = Return m.
Hypothesis asks : gateway_requiresAsk hostAsk hostSecurity m = true.

Lemma gatewayGate_asked (decision : option string) :
  gatewayGate rt defaults command_ security_ ask_ resolution decision w =
  (asked ← gatewayAsk rt defaults command_ hostSecurity (r_askFallback (agent r)) m
             resolution (file r) decision w1;
   if bool_decide (hostSecurity = SecAllowlist) &&
      negb (bool_decide (is_Some m)) && negb asked.1.1
   then Throw "exec denied: allowlist miss"
   else
     match m with
     | Some entry =>
         recorded ← recordAllowlistUse rt asked.1.2 (d_agentId defaults) entry command_
                      (resolution ≫= resolvedPath) asked.2;
         Return ({| approvedByAsk := asked.1.1; allowlistMatched := m;
                    approvals_after := recorded.1 |}, recorded.2)
     | None =>
         Return ({| approvedByAsk := asked.1.1; allowlistMatched := None;
                    approvals_after := asked.1.2 |}, asked.2)
     end).
Proof.
  unfold gatewayGate. rewrite resolved. cbn [mbind outcome_bind fst snd].
  fold hostSecurity hostAsk.
  rewrite (bool_decide_eq_false_2 _ not_denied).
  rewrite matched. cbn [mbind outcome_bind]. rewrite asks. reflexivity.
Qed.

Lemma gatewayGate_null_full :
  r_askFallback (agent r) = SecFull ->
  permits (gatewayGate rt defaults command_ security_ ask_ resolution None w).
Proof.
  intros Hf. rewrite gatewayGate_asked. unfold gatewayAsk. rewrite Hf.
  cbn [decision_is decision_truthy negb mbind outcome_bind orb fst snd].
  rewrite andb_false_r. 
  destruct m as [entry |].
  - destruct (recordAllowlistUse_returns rt (file r) (d_agentId defaults) entry command_
                (resolution ≫= resolvedPath) w1) as (f' & w' & ->).
    + eapply resolveExecApprovals_writable, resolved.
    + cbn. eexists _, _. reflexivity.
  - eexists _, _. reflexivity.
Qed.

Lemma gatewayGate_null_matched (entry : ExecAllowlistEntry) :
  m = Some entry ->
  r_askFallback (agent r) <> SecDeny ->
  permits (gatewayGate rt defaults command_ security_ ask_ resolution None w).
Proof.
  intros Hm Hf. rewrite gatewayGate_asked. unfold gatewayAsk. rewrite Hm.
  cbn [decision_is decision_truthy negb mbind outcome_bind orb fst snd].
  assert (Hret : (match r_askFallback (agent r) with
                  | SecDeny => Throw approval_unavailable
                  | _ => Return true
                  end : Outcome bool) = Return true)
    by (destruct (r_askFallback (agent r)); congruence).
  rewrite Hret. cbn [mbind outcome_bind orb fst snd negb].
  rewrite andb_false_r.
  destruct (recordAllowlistUse_returns rt (file r) (d_agentId defaults) entry command_
              (resolution ≫= resolvedPath) w1) as (f' & w' & ->).
  - eapply resolveExecApprovals_writable, resolved.
  - cbn. eexists _, _. reflexivity.
Qed.

Lemma gatewayGate_null_unavailable :
  r_askFallback (agent r) = SecDeny \/ (r_askFallback (agent r) = SecAllowlist /\ m = None) ->
  gatewayGate rt defaults command_ security_ ask_ resolution None w =
  Throw approval_unavailable.
Proof.
  intros H. rewrite gatewayGate_asked. unfold gatewayAsk.
  cbn [decision_is decision_truthy negb mbind outcome_bind orb fst snd].
  destruct H as [-> | [-> ->]]; reflexivity.
Qed.

Lemma gatewayGate_deny :
  gatewayGate rt defaults command_ security_ ask_ resolution (Some "deny") w =
  Throw "exec denied: user denied".
Proof. rewrite gatewayGate_asked. reflexivity. Qed.

Lemma matched_iff :
  is_Some m <->
  hostSecurity = SecAllowlist /\
  exists entry, matchAllowlist rt (resolved_allowlist r) resolution = Return (Some entry).
Proof.
  unfold gateway_allowlistMatch in matched.
  destruct (bool_decide (hostSecurity = SecAllowlist)) eqn:Hs.
  - apply bool_decide_eq_true in Hs. rewrite matched. split.
    + intros [entry ->]. eauto.
    + intros (_ & entry & [= ->]). eauto.
  - apply bool_decide_eq_false in Hs. injection matched as <-. split.
    + intros [? [=]].
    + intros [? _]. contradiction.
Qed.

(** C3 (amended): an approval request of the gateway host that ends without
    a decision falls back on [askFallback]: [full] permits the command;
    [allowlist] permits it exactly when the host security is [allowlist] and
    the allowlist matches the command resolution, and denies it otherwise;
    [deny] denies it.  An explicit [deny] decision denies on both hosts, and
    on the node host [full] permits and [deny] denies as well. *)
Theorem gateway_null_decision_fallback :
  (r_askFallback (agent r) = SecFull ->
     permits (gatewayGate rt defaults command_ security_ ask_ resolution None w)) /\
  (r_askFallback (agent r) = SecAllowlist ->
     (permits (gatewayGate rt defaults command_ security_ ask_ resolution None w) <->
      hostSecurity = SecAllowlist /\
      exists entry,
        matchAllowlist rt (resolved_allowlist r) resolution = Return (Some entry)) /\
     (~ permits (gatewayGate rt defaults command_ security_ ask_ resolution None w) ->
      gatewayGate rt defaults command_ security_ ask_ resolution None w =
      Throw approval_unavailable)) /\
  (r_askFallback (agent r) = SecDeny ->
     gatewayGate rt defaults command_ security_ ask_ resolution None w =
     Throw approval_unavailable) /\
  gatewayGate rt defaults command_ security_ ask_ resolution (Some "deny") w =
    Throw "exec denied: user denied" /\
  nodeAsk SecFull None = Return (true, Some AllowOnce) /\
  nodeAsk SecDeny None = Throw approval_unavailable /\
  (forall fallback, nodeAsk fallback (Some "deny") = Throw "exec denied: user denied").
Proof.
  split; [exact gatewayGate_null_full |].
  split.
  { intros Hf. rewrite <- matched_iff.
    assert (Hcase : m = None \/ exists entry, m = Some entry)
      by (clear; destruct m; eauto).
    split.
    - split.
      + intros Hp. destruct Hcase as [Hm | [entry Hm]]; [| rewrite Hm; eauto].
        exfalso. revert Hp. rewrite gatewayGate_null_unavailable by auto.
        intros (? & ? & [=]).
      + intros [entry Hm]. apply (gatewayGate_null_matched entry Hm). congruence.
    - intros Hn. destruct Hcase as [Hm | [entry Hm]].
      + apply gatewayGate_null_unavailable. auto.
      + exfalso. apply Hn. apply (gatewayGate_null_matched entry Hm). congruence. }
  split; [intros Hf; apply gatewayGate_null_unavailable; auto |].
  split; [exact gatewayGate_deny |].
  repeat split.
Qed.

End GatewayFallback.

(** C3 as stated fails: with host security [full], ask [always] and
    [askFallback=allowlist], the allowlist matches the command resolution,
    yet an unanswered approval request is denied. *)
Lemma gateway_fallback_allowlist_counterexample :
  (exists r w1,
     resolveExecApprovals (fallback_runtime SecFull) (Some "main") host_overrides
       fallback_world = Return (r, w1) /\
     r_askFallback (agent r) = SecAllowlist /\
     matchAllowlist (fallback_runtime SecFull) (resolved_allowlist r) (Some rg_resolution) =
       Return (Some (entry_of "RG"))) /\
  gatewayGate (fallback_runtime SecFull) main_defaults "rg --version" SecFull AskOff
    (Some rg_resolution) None fallback_world = Throw approval_unavailable.
Proof.
  split.
  - eexists _, _. split; [vm_compute; reflexivity |]. split; vm_compute; reflexivity.
  - vm_compute. reflexivity.
Qed.

Lemma gateway_null_decision_fallback_witness :
  exists r w1,
    resolveExecApprovals (fallback_runtime SecAllowlist) (Some "main") host_overrides
      fallback_world = Return (r, w1) /\
    r_askFallback (agent r) = SecAllowlist /\
    (permits (gatewayGate (fallback_runtime SecAllowlist) main_defaults "rg --version"
                SecFull AskOff (Some rg_resolution) None fallback_world) <->
     minSecurity SecFull (r_security (agent r)) = SecAllowlist /\
     exists entry,
       matchAllowlist (fallback_runtime SecAllowlist) (resolved_allowlist r)
         (Some rg_resolution) = Return (Some entry)).
Proof.
  eexists _, _. split; [vm_compute; reflexivity |]. split; [reflexivity |].
  refine (proj1 (proj1 (proj2
    (gateway_null_decision_fallback (fallback_runtime SecAllowlist) main_defaults
       "rg --version" SecFull AskOff (Some rg_resolution) fallback_world
       _ _ _ _ (Some (entry_of "RG")) _ _)) _)).
  - vm_compute; reflexivity.
  - vm_compute; discriminate.
  - vm_compute; reflexivity.
  - vm_compute; reflexivity.
  - reflexivity.
Defined.

(** ** The SSRF guard *)

Lemma bool_decide_Some_Z (a v : Z) : bool_decide (Some a = Some v) = (a =? v)%Z.
Proof.
  destruct (Z.eqb_spec a v) as [-> | Hne].
  - apply bool_decide_eq_true_2. reflexivity.
  - apply bool_decide_eq_false_2. congruence.
Qed.

(** The private IPv4 ranges: 0/8, 10/8, 127/8, 169.254/16, 172.16/12,
    192.168/16 and 100.64/10. *)
Lemma isPrivateIpv4_ranges (a b c d : Z) :
  isPrivateIpv4 [a; b; c; d] = true <->
  (a = 0 \/ a = 10 \/ a = 127 \/ (a = 169 /\ b = 254) \/
   (a = 172 /\ 16 <= b <= 31) \/ (a = 192 /\ b = 168) \/
   (a = 100 /\ 64 <= b <= 127))%Z.
Proof.
  unfold isPrivateIpv4. cbn [lookup list_lookup]. rewrite !bool_decide_Some_Z.
  repeat match goal with
         | |- context [(?x =? ?y)%Z] => destruct (Z.eqb_spec x y)
         | |- context [(?x <=? ?y)%Z] => destruct (Z.leb_spec x y)
         end;
    cbn [andb]; split; intros Hyp; try reflexivity; try discriminate; lia.
Qed.

(** Every sample of a blocked name or range is rejected, and the
    neighbours just outside the IPv4 ranges pass. *)
Lemma blocked_samples_rejected :
  forallb is_blocked blocked_samples = true /\
  forallb (fun h => negb (is_blocked h))
    ["11.0.0.1"; "172.15.0.1"; "172.32.0.1"; "100.63.0.1"; "100.128.0.1";
     "169.253.0.1"; "192.167.0.1"; "::ffff:8.8.8.8"] = true.
Proof. split; vm_compute; reflexivity. Qed.

(** C6 (code evaluated at the failing inputs): the literals [fe90::1] and
    [febf::1] lie in fe80::/10 and [fed0::1] lies in fec0::/10, yet the
    guard lets all three pass, bracketed or not; only the first sixteen bits
    [fe80:] and [fec0:] are compared. *)
Theorem ipv6_link_local_passes :
  isPrivateIpAddress "fe90::1" = false /\
  isPrivateIpAddress "fed0::1" = false /\
  assertPublicHostname "fe90::1" literal_lookup = Passed /\
  assertPublicHostname "[febf::1]" literal_lookup = Passed /\
  assertPublicHostname "fed0::1" literal_lookup = Passed /\
  assertPublicHostname "fe80::1" literal_lookup =
    Raised (SsrFBlockedError "Blocked: private/internal IP address").
Proof. repeat split; vm_compute; reflexivity. Qed.

(** ** Session model overrides *)

Lemma applyModelOverride_paired (entry : SessionEntry) (selection : ModelSelection) :
  overrides_paired (applyModelOverrideToSessionEntry entry selection).
Proof.
  unfold overrides_paired, applyModelOverrideToSessionEntry.
  destruct (isDefault selection); cbn; split; intros [x H]; try discriminate; eauto.
Qed.

(** C8: the override operations leave [providerOverride] and
    [modelOverride] both set or both cleared; a reset that selects a model
    clears [authProfileOverride] with its source and compaction counter; and
    without a reset the session entry and the body are left unchanged. *)
Theorem model_overrides_paired_and_reset
    (select : string -> option (ModelSelection * string))
    (body : string) (entry : SessionEntry) :
  (forall selection, overrides_paired (applyModelOverrideToSessionEntry entry selection)) /\
  (forall reset,
     overrides_paired entry ->
     overrides_paired (applyResetModelOverride select reset body entry).1) /\
  (forall selection rest,
     select body = Some (selection, rest) ->
     let entry' := (applyResetModelOverride select true body entry).1 in
     authProfileOverride entry' = None /\
     authProfileOverrideSource entry' = None /\
     authProfileOverrideCompactionCount entry' = None /\
     (isDefault selection = false ->
      providerOverride entry' = Some (provider selection) /\
      modelOverride entry' = Some (model selection)) /\
     (isDefault selection = true ->
      providerOverride entry' = None /\ modelOverride entry' = None)) /\
  applyResetModelOverride select false body entry = (entry, body).
Proof.
  split; [intros; apply applyModelOverride_paired |].
  split.
  { intros reset Hp. unfold applyResetModelOverride.
    destruct reset; cbn; [| exact Hp].
    destruct (select body) as [[selection rest] |]; cbn; [| exact Hp].
    apply (applyModelOverride_paired entry selection). }
  split; [| reflexivity].
  intros selection rest Hs. unfold applyResetModelOverride. cbn. rewrite Hs. cbn.
  unfold applyModelOverrideToSessionEntry.
  destruct (isDefault selection); cbn; repeat split; intros; try discriminate; reflexivity.
Qed.

Lemma model_overrides_paired_and_reset_witness :
  select_minimax "minimax summarize" =
    Some ({| provider := "minimax"; model := "m2.1"; isDefault := false |}, "summarize") /\
  applyResetModelOverride select_minimax true "minimax summarize" entry_s1 =
    ({| sessionId := "s1"; updatedAt := 0%Z; providerOverride := Some "minimax";
        modelOverride := Some "m2.1"; authProfileOverride := None;
        authProfileOverrideSource := None;
        authProfileOverrideCompactionCount := None |}, "summarize") /\
  authProfileOverride
    (applyResetModelOverride select_minimax true "minimax summarize" entry_s1).1 = None.
Proof.
  split; [reflexivity |]. split; [reflexivity |].
  apply (proj1 (proj2 (proj2 (model_overrides_paired_and_reset select_minimax
                                  "minimax summarize" entry_s1)))
           {| provider := "minimax"; model := "m2.1"; isDefault := false |} "summarize").
  reflexivity.
Defined.

(** ** Push-to-transport mapping *)

(** C9: a snapshot whose [health.ok] is the boolean [b] maps to [health(b)];
    the event [health] with [payload.ok = b] maps to [health(b)]; [tick]
    maps to [tick]; [chat] with payload [{runId, sessionKey, state}] maps to
    the chat event with these fields; an unknown event name is dropped; a
    sequence gap maps to [seqGap] with its two numbers. *)
Theorem mapPushToTransportEvent_rules :
  (forall hello b,
     member (health (snapshot hello)) "ok" = Some (AnyBool b) ->
     mapPushToTransportEvent (PushSnapshot hello) = Some (TransportHealth b)) /\
  (forall p b n,
     member p "ok" = Some (AnyBool b) ->
     mapPushToTransportEvent
       (PushEvent {| event := "health"; payload := Some p; seq := n |}) =
     Some (TransportHealth b)) /\
  (forall p n,
     mapPushToTransportEvent (PushEvent {| event := "tick"; payload := p; seq := n |}) =
     Some TransportTick) /\
  (forall r k s n,
     mapPushToTransportEvent
       (PushEvent {| event := "chat"; payload := Some (chat_value r k s); seq := n |}) =
     Some (TransportChat {| runId := r; sessionKey := k; state := s |})) /\
  (forall frame,
     known_event (event frame) = false ->
     mapPushToTransportEvent (PushEvent frame) = None) /\
  (forall expected received,
     mapPushToTransportEvent (PushSeqGap expected received) =
     Some (TransportSeqGap expected received)).
Proof.
  repeat split.
  - intros hello b H. cbn. rewrite H. reflexivity.
  - intros p b n H. cbn. rewrite H. reflexivity.
  - intros [ev p n]. unfold known_event. cbn.
    destruct (String.eqb ev "health"), (String.eqb ev "tick"), (String.eqb ev "chat");
      cbn; congruence.
Qed.

Lemma mapPushToTransportEvent_rules_witness :
  mapPushToTransportEvent
    (PushSnapshot {| protocol := 2%Z;
                     snapshot := {| health := health_value false; uptimems := 123%Z |} |}) =
    Some (TransportHealth false) /\
  mapPushToTransportEvent
    (PushEvent {| event := "health"; payload := Some (health_value true);
                  seq := Some 1%Z |}) = Some (TransportHealth true) /\
  mapPushToTransportEvent
    (PushEvent {| event := "unknown";
                  payload := Some (AnyDictionary [("a", AnyInt 1)]);
                  seq := Some 1%Z |}) = None.
Proof.
  split; [| split].
  - apply (proj1 mapPushToTransportEvent_rules). reflexivity.
  - apply (proj1 (proj2 mapPushToTransportEvent_rules)). reflexivity.
  - apply (proj1 (proj2 (proj2 (proj2 (proj2 mapPushToTransportEvent_rules))))).
    reflexivity.
Defined.

(** ** Allowlist patterns as globs *)

(** *** Facts about single characters *)

Ltac ascii_cases c :=
  destruct c as [[] [] [] [] [] [] [] []]; vm_compute; try reflexivity; try discriminate.

Lemma lower_char_eqb_star c : Ascii.eqb (Js.lower_char c) "*" = Ascii.eqb c "*".
Proof. ascii_cases c. Qed.

Lemma lower_char_eqb_question c : Ascii.eqb (Js.lower_char c) "?" = Ascii.eqb c "?".
Proof. ascii_cases c. Qed.

Lemma lower_char_plain c : plain_char (Js.lower_char c) = plain_char c.
Proof. ascii_cases c. Qed.

Lemma lower_char_line_terminator c :
  RegExp.is_line_terminator (Js.lower_char c) = RegExp.is_line_terminator c.
Proof. ascii_cases c. Qed.

Lemma lower_canonicalize_lower c :
  Js.lower_char (RegExp.canonicalize (Js.lower_char c)) = Js.lower_char c.
Proof. ascii_cases c. Qed.

Lemma canonicalize_lower_slash c :
  Ascii.eqb (RegExp.canonicalize (Js.lower_char c)) "/" = Ascii.eqb c "/".
Proof. ascii_cases c. Qed.

Lemma literal_matches_same_letter c d :
  RegExp.atom_matches (RegExp.Lit (Js.lower_char c)) (Js.lower_char d) = same_letter c d.
Proof.
  unfold RegExp.atom_matches, same_letter.
  destruct (Ascii.eqb_spec (Js.lower_char c) (Js.lower_char d)) as [-> | Hne].
  - apply Ascii.eqb_refl.
  - apply Ascii.eqb_neq. intros Heq. apply Hne.
    rewrite <- (lower_canonicalize_lower c), <- (lower_canonicalize_lower d).
    congruence.
Qed.

Lemma plain_char_cases c :
  plain_char c = true ->
  c = "*"%char \/ c = "?"%char \/
  (Ascii.eqb c "*" = false /\ Ascii.eqb c "?" = false /\ Ascii.eqb c "^" = false /\
   Ascii.eqb c "$" = false /\ Ascii.eqb c "." = false /\ Ascii.eqb c "[" = false /\
   Ascii.eqb c "\" = false /\ RegExp.is_syntax_char c = false).
Proof. ascii_cases c; auto 10. Qed.

(** *** The regular expression of a plain pattern *)

Lemma escape_replace_char (ch : ascii) :
  escape_replace (String ch EmptyString) = String ch EmptyString.
Proof. reflexivity. Qed.

Lemma globToRegExp_from_cons (ch : ascii) (r : string) :
  globToRegExp_from (String ch r) =
  if Ascii.eqb ch "*" then
    match r with
    | String next r' =>
        if Ascii.eqb next "*" then ".*" +:+ globToRegExp_from r'
        else "[^/]*" +:+ globToRegExp_from r
    | EmptyString => "[^/]*" +:+ globToRegExp_from r
    end
  else if Ascii.eqb ch "?" then "." +:+ globToRegExp_from r
  else escape_replace (String ch EmptyString) +:+ globToRegExp_from r.
Proof. reflexivity. Qed.

Lemma glob_tokens_cons (ch : ascii) (r : string) :
  glob_tokens (String ch r) =
  if Ascii.eqb ch "*" then
    match r with
    | String next r' =>
        if Ascii.eqb next "*" then GlobDeep :: glob_tokens r'
        else GlobStar :: glob_tokens r
    | EmptyString => GlobStar :: glob_tokens r
    end
  else if Ascii.eqb ch "?" then GlobOne :: glob_tokens r
  else GlobChar ch :: glob_tokens r.
Proof. reflexivity. Qed.

Lemma globToRegExp_from_head (p : string) :
  plain_pattern p = true ->
  exists k rest,
    globToRegExp_from p +:+ "$" = String k rest /\ Ascii.eqb k "*" = false.
Proof.
  destruct p as [| c r]; cbn [plain_pattern globToRegExp_from].
  - intros _. exists "$"%char, EmptyString. split; reflexivity.
  - intros H. apply andb_true_iff in H as [Hc _].
    destruct (Ascii.eqb_spec c "*") as [-> | Hstar].
    + destruct r as [| d r'].
      * eexists _, _. split; reflexivity.
      * destruct (Ascii.eqb d "*"); eexists _, _; split; reflexivity.
    + destruct (Ascii.eqb_spec c "?") as [-> | Hq].
      * eexists _, _. split; reflexivity.
      * exists c, (globToRegExp_from r +:+ "$"). split; [reflexivity |].
        apply Ascii.eqb_neq, Hstar.
Qed.

Lemma parse_dot_star (rest : string) :
  RegExp.parse (String "." (String "*" rest)) =
  cons (RegExp.Star RegExp.Dot) <$> RegExp.parse rest.
Proof. reflexivity. Qed.

Lemma parse_not_slash_star (rest : string) :
  RegExp.parse ("[^/]*" +:+ rest) =
  cons (RegExp.Star RegExp.NotSlash) <$> RegExp.parse rest.
Proof. reflexivity. Qed.

Lemma parse_dot_one (rest : string) k rest' :
  rest = String k rest' -> Ascii.eqb k "*" = false ->
  RegExp.parse (String "." rest) = cons (RegExp.One RegExp.Dot) <$> RegExp.parse rest.
Proof. intros -> Hk. cbn. rewrite Hk. reflexivity. Qed.

Lemma parse_literal_one (c : ascii) (rest : string) k rest' :
  Ascii.eqb c "^" = false -> Ascii.eqb c "$" = false -> Ascii.eqb c "." = false ->
  Ascii.eqb c "[" = false -> RegExp.is_syntax_char c = false ->
  rest = String k rest' -> Ascii.eqb k "*" = false ->
  RegExp.parse (String c rest) = cons (RegExp.One (RegExp.Lit c)) <$> RegExp.parse rest.
Proof.
  intros H1 H2 H3 H4 H5 -> Hk. cbn [RegExp.parse].
  rewrite H1, H2, H3, H4, H5, Hk. reflexivity.
Qed.

Lemma parse_globToRegExp_from_both (p : string) :
  (plain_pattern p = true ->
   RegExp.parse (globToRegExp_from p +:+ "$") =
   Some (map node_of (glob_tokens p) ++ [RegExp.Eol])) /\
  (forall c, plain_pattern (String c p) = true ->
   RegExp.parse (globToRegExp_from (String c p) +:+ "$") =
   Some (map node_of (glob_tokens (String c p)) ++ [RegExp.Eol])).
Proof.
  induction p as [| d r [IH1 IH2]].
  - split; [reflexivity |].
    intros c H. cbn [plain_pattern] in H. apply andb_true_iff in H as [Hc _].
    destruct (plain_char_cases c Hc) as [-> | [-> | (Hs & Hq & H1 & H2 & H3 & H4 & _ & H5)]];
      [reflexivity | reflexivity |].
    rewrite globToRegExp_from_cons, glob_tokens_cons, Hs, Hq, escape_replace_char.
    change ((String c EmptyString +:+ globToRegExp_from EmptyString) +:+ "$")
      with (String c "$").
    rewrite (parse_literal_one c "$" "$"%char EmptyString H1 H2 H3 H4 H5 eq_refl eq_refl).
    reflexivity.
  - split; [exact (IH2 d) |].
    intros c H.
    assert (Hc : plain_char c = true)
      by (cbn [plain_pattern] in H; apply andb_true_iff in H; tauto).
    assert (Hrest : plain_pattern (String d r) = true)
      by (cbn [plain_pattern] in H; apply andb_true_iff in H; tauto).
    destruct (globToRegExp_from_head (String d r) Hrest) as (k & rest' & Hhead & Hk).
    rewrite (globToRegExp_from_cons c), (glob_tokens_cons c).
    destruct (plain_char_cases c Hc) as [-> | [-> | (Hs & Hq & H1 & H2 & H3 & H4 & _ & H5)]].
    + cbn [Ascii.eqb Bool.eqb].
      destruct (Ascii.eqb_spec d "*") as [-> | Hd].
      * assert (Hr : plain_pattern r = true)
          by (cbn [plain_pattern] in Hrest; apply andb_true_iff in Hrest; tauto).
        change ((".*" +:+ globToRegExp_from r) +:+ "$") with
          (String "." (String "*" (globToRegExp_from r +:+ "$"))).
        rewrite parse_dot_star, (IH1 Hr). reflexivity.
      * change (("[^/]*" +:+ globToRegExp_from (String d r)) +:+ "$") with
          ("[^/]*" +:+ (globToRegExp_from (String d r) +:+ "$")).
        rewrite parse_not_slash_star, (IH2 d Hrest). reflexivity.
    + cbn [Ascii.eqb Bool.eqb].
      change (("." +:+ globToRegExp_from (String d r)) +:+ "$") with
        (String "." (globToRegExp_from (String d r) +:+ "$")).
      rewrite (parse_dot_one _ k rest' Hhead Hk), (IH2 d Hrest). reflexivity.
    + rewrite Hs, Hq, escape_replace_char.
      change ((String c EmptyString +:+ globToRegExp_from (String d r)) +:+ "$") with
        (String c (globToRegExp_from (String d r) +:+ "$")).
      rewrite (parse_literal_one c _ k rest' H1 H2 H3 H4 H5 Hhead Hk), (IH2 d Hrest).
      reflexivity.
Qed.

Lemma parse_globToRegExp (p : string) :
  plain_pattern p = true ->
  RegExp.parse (globToRegExp p) =
  Some (RegExp.Bol :: map node_of (glob_tokens p) ++ [RegExp.Eol]).
Proof.
  intros H. unfold globToRegExp.
  change ("^" +:+ globToRegExp_from p +:+ "$") with
    (String "^" (globToRegExp_from p +:+ "$")).
  cbn [RegExp.parse Ascii.eqb Bool.eqb].
  rewrite (proj1 (parse_globToRegExp_from_both p) H). reflexivity.
Qed.

(** *** Matching the regular expression of a plain pattern *)

Lemma match_here_star (a : RegExp.atom) (r : list RegExp.node) (st : bool) (s : string) :
  RegExp.match_here (RegExp.Star a :: r) st s =
  RegExp.match_here r st s ||
  match s with
  | String c s' => RegExp.atom_matches a c && RegExp.match_here (RegExp.Star a :: r) false s'
  | EmptyString => false
  end.
Proof. destruct s; reflexivity. Qed.

Lemma spec_glob_match_star (g : list glob_token) (s : string) :
  spec_glob_match (GlobStar :: g) s =
  spec_glob_match g s ||
  match s with
  | String d s' => negb (Ascii.eqb d "/") && spec_glob_match (GlobStar :: g) s'
  | EmptyString => false
  end.
Proof. destruct s; reflexivity. Qed.

Lemma spec_glob_match_deep (g : list glob_token) (s : string) :
  spec_glob_match (GlobDeep :: g) s =
  spec_glob_match g s ||
  match s with
  | String _ s' => spec_glob_match (GlobDeep :: g) s'
  | EmptyString => false
  end.
Proof. destruct s; reflexivity. Qed.

Lemma dot_matches_lower (d : ascii) :
  RegExp.is_line_terminator d = false ->
  RegExp.atom_matches RegExp.Dot (Js.lower_char d) = true.
Proof.
  intros H. unfold RegExp.atom_matches. rewrite lower_char_line_terminator, H. reflexivity.
Qed.

Lemma not_slash_matches_lower (d : ascii) :
  RegExp.atom_matches RegExp.NotSlash (Js.lower_char d) = negb (Ascii.eqb d "/").
Proof. unfold RegExp.atom_matches. rewrite canonicalize_lower_slash. reflexivity. Qed.

Lemma no_line_terminator_cons (d : ascii) (s : string) :
  no_line_terminator (String d s) = true ->
  RegExp.is_line_terminator d = false /\ no_line_terminator s = true.
Proof.
  cbn [no_line_terminator]. intros H. apply andb_true_iff in H as [H1 H2].
  apply negb_true_iff in H1. auto.
Qed.

Lemma match_here_glob (g : list glob_token) :
  forall (st : bool) (s : string),
    no_line_terminator s = true ->
    RegExp.match_here (map node_of (map lower_token g) ++ [RegExp.Eol]) st
      (Js.toLowerCase s) =
    spec_glob_match g s.
Proof.
  induction g as [| t g IH]; intros st s Hs.
  - destruct s; reflexivity.
  - destruct t; cbn [map lower_token node_of app].
    + (* ** *)
      revert st. induction s as [| d s IHs]; intros st.
      * rewrite match_here_star, spec_glob_match_deep.
        rewrite (IH st EmptyString Hs). cbn. rewrite orb_false_r. reflexivity.
      * destruct (no_line_terminator_cons d s Hs) as [Hd Hs'].
        rewrite match_here_star, spec_glob_match_deep.
        rewrite (IH st (String d s) Hs). cbn [Js.toLowerCase].
        rewrite (dot_matches_lower d Hd), (IHs Hs' false). reflexivity.
    + (* * *)
      revert st. induction s as [| d s IHs]; intros st.
      * rewrite match_here_star, spec_glob_match_star.
        rewrite (IH st EmptyString Hs). cbn. rewrite orb_false_r. reflexivity.
      * destruct (no_line_terminator_cons d s Hs) as [Hd Hs'].
        rewrite match_here_star, spec_glob_match_star.
        rewrite (IH st (String d s) Hs). cbn [Js.toLowerCase].
        rewrite (not_slash_matches_lower d), (IHs Hs' false). reflexivity.
    + (* ? *)
      destruct s as [| d s]; [reflexivity |].
      destruct (no_line_terminator_cons d s Hs) as [Hd Hs'].
      cbn [Js.toLowerCase RegExp.match_here spec_glob_match].
      rewrite (dot_matches_lower d Hd), (IH false s Hs'). reflexivity.
    + (* a literal character *)
      destruct s as [| d s]; [reflexivity |].
      destruct (no_line_terminator_cons d s Hs) as [Hd Hs'].
      cbn [Js.toLowerCase RegExp.match_here spec_glob_match].
      rewrite literal_matches_same_letter, (IH false s Hs'). reflexivity.
Qed.

Lemma search_bol_later (r : list RegExp.node) (s : string) :
  RegExp.search (RegExp.Bol :: r) false s = false.
Proof. induction s as [| c s IH]; [reflexivity |]. cbn. exact IH. Qed.

Lemma test_anchored (r : list RegExp.node) (s : string) :
  RegExp.test (RegExp.Bol :: r) s = RegExp.match_here r true s.
Proof.
  unfold RegExp.test. destruct s as [| c s].
  - cbn. rewrite orb_false_r. reflexivity.
  - cbn [RegExp.search]. rewrite search_bol_later, orb_false_r. reflexivity.
Qed.

(** *** Lower case and backslash pairs on plain patterns *)

Lemma plain_pattern_lower (p : string) :
  plain_pattern (Js.toLowerCase p) = plain_pattern p.
Proof.
  induction p as [| c r IH]; [reflexivity |].
  cbn [Js.toLowerCase plain_pattern]. rewrite lower_char_plain, IH. reflexivity.
Qed.

Lemma plain_char_not_backslash (c : ascii) :
  plain_char c = true -> Ascii.eqb c "\" = false.
Proof. ascii_cases c. Qed.

Lemma replace_backslash_pairs_plain (p : string) :
  plain_pattern p = true -> replace_backslash_pairs p = p.
Proof.
  induction p as [| c r IH]; [reflexivity |].
  cbn [plain_pattern]. intros H. apply andb_true_iff in H as [Hc Hr].
  cbn [replace_backslash_pairs]. rewrite (plain_char_not_backslash c Hc).
  destruct r as [| d r']; [reflexivity |].
  cbn [andb]. rewrite (IH Hr). reflexivity.
Qed.

Lemma glob_tokens_lower_both (p : string) :
  glob_tokens (Js.toLowerCase p) = map lower_token (glob_tokens p) /\
  forall c, glob_tokens (Js.toLowerCase (String c p)) =
            map lower_token (glob_tokens (String c p)).
Proof.
  induction p as [| d r [IH1 IH2]].
  - split; [reflexivity |]. intros c. cbn [Js.toLowerCase].
    rewrite !glob_tokens_cons, lower_char_eqb_star, lower_char_eqb_question.
    destruct (Ascii.eqb c "*"), (Ascii.eqb c "?"); reflexivity.
  - split; [exact (IH2 d) |]. intros c.
    change (Js.toLowerCase (String c (String d r))) with
      (String (Js.lower_char c) (Js.toLowerCase (String d r))).
    rewrite (glob_tokens_cons (Js.lower_char c)), (glob_tokens_cons c).
    rewrite lower_char_eqb_star, lower_char_eqb_question.
    change (Js.toLowerCase (String d r)) with
      (String (Js.lower_char d) (Js.toLowerCase r)) at 1.
    cbn iota. rewrite lower_char_eqb_star.
    change (String (Js.lower_char d) (Js.toLowerCase r)) with
      (Js.toLowerCase (String d r)).
    destruct (Ascii.eqb c "*"), (Ascii.eqb d "*"), (Ascii.eqb c "?");
      cbn [map lower_token]; rewrite ?IH1, ?(IH2 d); reflexivity.
Qed.

Lemma no_line_terminator_replace_both (t : string) :
  (no_line_terminator t = true ->
   no_line_terminator (replace_backslash_pairs t) = true) /\
  (forall a, no_line_terminator (String a t) = true ->
   no_line_terminator (replace_backslash_pairs (String a t)) = true).
Proof.
  induction t as [| b r [IH1 IH2]].
  - split; [reflexivity |]. intros a H. exact H.
  - split; [exact (IH2 b) |]. intros a H.
    destruct (no_line_terminator_cons a _ H) as [Ha Hbr].
    destruct (no_line_terminator_cons b _ Hbr) as [Hb Hr].
    change (replace_backslash_pairs (String a (String b r))) with
      (if Ascii.eqb a "\" && Ascii.eqb b "\"
       then String "/" (replace_backslash_pairs r)
       else String a (replace_backslash_pairs (String b r))).
    destruct (Ascii.eqb a "\" && Ascii.eqb b "\").
    + cbn [no_line_terminator]. rewrite (IH1 Hr). reflexivity.
    + cbn [no_line_terminator]. rewrite Ha, (IH2 b Hbr). reflexivity.
Qed.

(** On a plain pattern [matchesPattern] decides the glob semantics. *)
Lemma matchesPattern_plain (rt : Runtime) (p t : string) :
  Js.truthy (Js.trim p) = true ->
  Js.startsWith (Js.trim p) "~" = false ->
  plain_pattern (Js.trim p) = true ->
  no_line_terminator t = true ->
  matchesPattern rt p t =
  Return (spec_glob_match (glob_tokens (Js.trim p)) (replace_backslash_pairs t)).
Proof.
  intros Hne Htilde Hplain Ht. unfold matchesPattern, normalizeMatchTarget, RegExp_test.
  rewrite Hne, Htilde. cbn [negb].
  rewrite (replace_backslash_pairs_plain _ Hplain).
  rewrite parse_globToRegExp by (rewrite plain_pattern_lower; exact Hplain).
  rewrite test_anchored, (proj1 (glob_tokens_lower_both _)).
  rewrite match_here_glob by (apply no_line_terminator_replace_both, Ht).
  reflexivity.
Qed.

(** *** [trim] is idempotent *)

Lemma trimEnd_cons (c : ascii) (r : string) :
  Js.trimEnd (String c r) =
  match Js.trimEnd r with
  | EmptyString => if Js.is_space c then EmptyString else String c EmptyString
  | String d u => String c (String d u)
  end.
Proof. reflexivity. Qed.

Lemma trimEnd_idempotent (s : string) : Js.trimEnd (Js.trimEnd s) = Js.trimEnd s.
Proof.
  induction s as [| c r IH]; [reflexivity |].
  rewrite (trimEnd_cons c r). destruct (Js.trimEnd r) as [| d u] eqn:Hu.
  - destruct (Js.is_space c) eqn:Hc; [reflexivity |].
    rewrite trimEnd_cons. cbn [Js.trimEnd]. rewrite Hc. reflexivity.
  - rewrite (trimEnd_cons c (String d u)), IH. reflexivity.
Qed.

Lemma trimStart_shape (s : string) :
  Js.trimStart s = EmptyString \/
  exists c r, Js.trimStart s = String c r /\ Js.is_space c = false.
Proof.
  induction s as [| c r IH]; [left; reflexivity |].
  cbn [Js.trimStart]. destruct (Js.is_space c) eqn:Hc; [exact IH |].
  right. exists c, r. auto.
Qed.

Lemma trimEnd_head (c : ascii) (r : string) :
  Js.is_space c = false -> exists r', Js.trimEnd (String c r) = String c r'.
Proof.
  intros Hc. rewrite trimEnd_cons. destruct (Js.trimEnd r); rewrite ?Hc; eauto.
Qed.

Lemma trim_idempotent (s : string) : Js.trim (Js.trim s) = Js.trim s.
Proof.
  unfold Js.trim. destruct (trimStart_shape s) as [-> | (c & r & -> & Hc)];
    [reflexivity |].
  destruct (trimEnd_head c r Hc) as [r' Hr']. rewrite Hr'.
  cbn [Js.trimStart]. rewrite Hc, <- Hr'. apply trimEnd_idempotent.
Qed.

(** *** The allowlist entry against a command resolution *)

(** C1 as stated fails: the pattern [rg~] holds no path separator and, as a
    glob, matches the executable name [rg~]; the code matches it against
    the resolved path and finds no match. *)
Lemma matchAllowlist_tilde_counterexample :
  Js.includes "rg~" "/" = false /\
  Js.includes "rg~" "\" = false /\
  spec_glob_match (glob_tokens "rg~") (executableName tilde_resolution) = true /\
  matchAllowlist (plain_runtime (Throw "SyntaxError")) [entry_of "rg~"]
    (Some tilde_resolution) = Return None.
Proof. repeat split; vm_compute; reflexivity. Qed.

Lemma replace_backslash_pairs_none (t : string) :
  no_backslash_pair t = true -> replace_backslash_pairs t = t.
Proof.
  induction t as [| a t IH]; [reflexivity |].
  destruct t as [| b r]; [reflexivity |].
  change (no_backslash_pair (String a (String b r))) with
    (negb (Ascii.eqb a "\" && Ascii.eqb b "\") && no_backslash_pair (String b r)).
  change (replace_backslash_pairs (String a (String b r))) with
    (if Ascii.eqb a "\" && Ascii.eqb b "\"
     then String "/" (replace_backslash_pairs r)
     else String a (replace_backslash_pairs (String b r))).
  intros H. apply andb_true_iff in H as [Hab Ht]. apply negb_true_iff in Hab.
  rewrite Hab, (IH Ht). reflexivity.
Qed.

(** C1 (amended): for an allowlist entry whose trimmed pattern is not empty,
    does not start with a tilde and holds no regular-expression syntax
    besides [*] and [?], and for a match target without line terminators
    and without two backslashes in a row, [matchAllowlist] decides the glob
    semantics on the target as it is ([**] any characters, [*] anything but
    [/], [?] one character, other characters themselves, letters in either
    case).  The target is the resolved path, or else the raw executable,
    when the pattern holds a slash, a backslash or a tilde, and the
    executable name otherwise; an empty target never matches.  [RG] matches
    the resolution of [rg] at [/opt/homebrew/bin/rg], [/opt/*/rg] does not,
    and [/opt/**/rg] does. *)
Theorem matchAllowlist_glob_semantics :
  (forall (rt : Runtime) (e : ExecAllowlistEntry) (res : CommandResolution),
     let p := Js.trim (pattern e) in
     let target := match_target p res in
     Js.truthy p = true ->
     Js.startsWith p "~" = false ->
     plain_pattern p = true ->
     Js.truthy target = true ->
     no_line_terminator target = true ->
     no_backslash_pair target = true ->
     matchAllowlist rt [e] (Some res) =
     Return (if spec_glob_match (glob_tokens p) target then Some e else None)) /\
  (forall (rt : Runtime) (e : ExecAllowlistEntry) (res : CommandResolution),
     Js.truthy (match_target (Js.trim (pattern e)) res) = false ->
     matchAllowlist rt [e] (Some res) = Return None) /\
  (forall rt : Runtime,
     matchAllowlist rt [entry_of "RG"] (Some rg_resolution) = Return (Some (entry_of "RG")) /\
     matchAllowlist rt [entry_of "/opt/*/rg"] (Some rg_resolution) = Return None /\
     matchAllowlist rt [entry_of "/opt/**/rg"] (Some rg_resolution) =
       Return (Some (entry_of "/opt/**/rg"))).
Proof.
  split; [| split].
  - intros rt e res p target Hp Htilde Hplain Htarget Hlt Hpair.
    unfold matchAllowlist. cbn [matchAllowlist_entries]. fold p.
    rewrite Hp. cbn [negb].
    assert (Hm : matchesPattern rt p target =
                 Return (spec_glob_match (glob_tokens p) target)).
    { assert (Hpp : Js.trim p = p) by apply trim_idempotent.
      pose proof (matchesPattern_plain rt p target) as H.
      rewrite Hpp, (replace_backslash_pairs_none target Hpair) in H.
      apply H; assumption. }
    unfold target, match_target in *.
    destruct (hasPath p).
    + rewrite Htarget, Hm. cbn [mbind outcome_bind].
      destruct (spec_glob_match _ _); reflexivity.
    + rewrite Htarget, Hm. cbn [mbind outcome_bind].
      destruct (spec_glob_match _ _); reflexivity.
  - intros rt e res Htarget.
    unfold matchAllowlist. cbn [matchAllowlist_entries].
    unfold match_target in Htarget.
    destruct (negb (Js.truthy (Js.trim (pattern e)))); [reflexivity |].
    destruct (hasPath (Js.trim (pattern e))); rewrite Htarget; reflexivity.
  - intros rt. repeat split; vm_compute; reflexivity.
Qed.

Lemma matchAllowlist_glob_semantics_witness :
  matchAllowlist (plain_runtime (Throw "SyntaxError")) [entry_of "  /OPT/**/r?  "]
    (Some rg_resolution) = Return (Some (entry_of "  /OPT/**/r?  ")) /\
  matchAllowlist (plain_runtime (Throw "SyntaxError")) [entry_of "rg~"]
    (Some tilde_resolution) = Return None.
Proof.
  split.
  - exact (proj1 matchAllowlist_glob_semantics (plain_runtime (Throw "SyntaxError"))
             (entry_of "  /OPT/**/r?  ") rg_resolution
             eq_refl eq_refl eq_refl eq_refl eq_refl eq_refl).
  - exact (proj1 matchAllowlist_glob_semantics (plain_runtime (Throw "SyntaxError"))
             (entry_of "rg~") tilde_resolution
             eq_refl eq_refl eq_refl eq_refl eq_refl eq_refl).
Defined.

(** The replacement that should escape regular-expression syntax never
    applies to a single character, so a dot of the pattern stays a wildcard:
    the pattern [r.] matches the executable [rg]. *)
Remark pattern_dot_is_wildcard (rt : Runtime) :
  (forall ch, escape_replace (String ch EmptyString) = String ch EmptyString) /\
  matchAllowlist rt [entry_of "r."] (Some rg_resolution) = Return (Some (entry_of "r.")).
Proof. split; [intros; reflexivity | vm_compute; reflexivity]. Qed.

(** The replacement in [normalizeMatchTarget] takes two backslashes in a
    row for a slash, in the target as in the pattern: the pattern [a?b]
    matches the executable named [a], two backslashes, [b], of four
    characters, which the glob does not match. *)
Remark target_backslash_pair_is_slash (rt : Runtime) :
  no_backslash_pair (executableName backslash_resolution) = false /\
  spec_glob_match (glob_tokens "a?b") (executableName backslash_resolution) = false /\
  matchAllowlist rt [entry_of "a?b"] (Some backslash_resolution) =
    Return (Some (entry_of "a?b")).
Proof. repeat split; vm_compute; reflexivity. Qed.

(** * Further properties *)

(** ** Normalizing and reading the approvals file *)

Lemma nonempty_trimmed_idempotent (v : option string) :
  nonempty_trimmed (nonempty_trimmed v) = nonempty_trimmed v.
Proof.
  destruct v as [s |]; [| reflexivity]. unfold nonempty_trimmed. cbn [fmap option_fmap option_map].
  destruct (Js.truthy (Js.trim s) && (0 <? String.length (Js.trim s))%nat) eqn:H;
    [| reflexivity].
  cbn [fmap option_fmap option_map]. rewrite trim_idempotent, H. reflexivity.
Qed.

(** X1: normalizing an approvals file twice gives the same file as
    normalizing it once. *)
Theorem normalizeExecApprovals_idempotent (f : ExecApprovalsFile) :
  normalizeExecApprovals (normalizeExecApprovals f) = normalizeExecApprovals f.
Proof.
  unfold normalizeExecApprovals.
  cbn [socket defaults agents mbind option_bind socket_path socket_token security ask
       askFallback autoAllowSkills default].
  rewrite !nonempty_trimmed_idempotent. reflexivity.
Qed.



(** ** The first token of a command *)

Lemma trim_head_not_space (s : string) (c : ascii) (r : string) :
  Js.trim s = String c r -> Js.is_space c = false.
Proof.
  unfold Js.trim. destruct (trimStart_shape s) as [-> | (c0 & r0 & -> & Hc)];
    [discriminate |].
  destruct (trimEnd_head c0 r0 Hc) as [r' ->]. intros [= <- _]. exact Hc.
Qed.

Lemma leading_non_space_split (s : string) :
  exists tail,
    s = leading_non_space s +:+ tail /\
    no_space (leading_non_space s) = true /\
    match tail with
    | EmptyString => True
    | String c _ => Js.is_space c = true
    end.
Proof.
  induction s as [| c r (tail & Hs & Hn & Ht)].
  - exists EmptyString. repeat split.
  - cbn [leading_non_space]. destruct (Js.is_space c) eqn:Hc.
    + exists (String c r). repeat split. exact Hc.
    + exists tail. cbn [no_space]. rewrite Hc, Hn.
      split; [change (String c r = String c (leading_non_space r +:+ tail)); f_equal;
              exact Hs |].
      split; [reflexivity | exact Ht].
Qed.

Lemma index_of_split (c : ascii) (s : string) (n : nat) :
  index_of c s = Some n ->
  exists tail, s = take n s +:+ String c tail /\ lacks c (take n s) = true.
Proof.
  revert n. induction s as [| d r IH]; intros n; [discriminate |].
  cbn [index_of]. destruct (Ascii.eqb_spec d c) as [-> | Hd].
  - intros [= <-]. exists r. split; reflexivity.
  - destruct (index_of c r) as [m |]; [| discriminate]. intros [= <-].
    destruct (IH m eq_refl) as (tail & Hs & Hl). exists tail.
    cbn [take lacks]. rewrite Hl.
    apply Ascii.eqb_neq in Hd. rewrite Hd.
    split; [change (String d r = String d (take m r +:+ String c tail)); f_equal;
            exact Hs | reflexivity].
Qed.

(** X3: [parseFirstToken] yields nothing exactly for a blank command.  An
    unquoted command yields its leading run of characters that are not white
    space: the token is not empty, holds no white space and is followed by
    white space or by the end.  A command that opens with a quote yields the
    text up to the next quote of the same kind; when that quote is missing,
    or comes right behind the opening one, it yields all the text after the
    opening quote. *)
Theorem parseFirstToken_spec (command_ : string) :
  (parseFirstToken command_ = None <-> Js.trim command_ = EmptyString) /\
  (forall first rest,
     Js.trim command_ = String first rest -> is_quote first = false ->
     exists token tail,
       parseFirstToken command_ = Some token /\
       Js.trim command_ = token +:+ tail /\
       Js.truthy token = true /\ no_space token = true /\
       match tail with
       | EmptyString => True
       | String c _ => Js.is_space c = true
       end) /\
  (forall first rest n,
     Js.trim command_ = String first rest -> is_quote first = true ->
     index_of first rest = Some (S n) ->
     exists token tail,
       parseFirstToken command_ = Some token /\
       rest = token +:+ String first tail /\
       Js.truthy token = true /\ lacks first token = true) /\
  (forall first rest,
     Js.trim command_ = String first rest -> is_quote first = true ->
     index_of first rest = None \/ index_of first rest = Some 0%nat ->
     parseFirstToken command_ = Some rest).
Proof.
  unfold parseFirstToken. repeat split.
  - destruct (Js.trim command_) as [| first rest] eqn:Ht; [reflexivity |].
    pose proof (trim_head_not_space _ _ _ Ht) as Hf.
    destruct (is_quote first).
    + destruct (index_of first rest) as [[| n] |]; discriminate.
    + cbn [leading_non_space]. rewrite Hf. discriminate.
  - intros ->. reflexivity.
  - intros first rest Ht Hq. rewrite Ht, Hq.
    pose proof (trim_head_not_space _ _ _ Ht) as Hf.
    destruct (leading_non_space_split (String first rest)) as (tail & Hs & Hn & Htail).
    exists (leading_non_space (String first rest)), tail.
    split; [cbn [leading_non_space]; rewrite Hf; reflexivity |].
    split; [exact Hs |]. split; [cbn [leading_non_space]; rewrite Hf; reflexivity |].
    split; assumption.
  - intros first rest n Ht Hq Hi. rewrite Ht, Hq, Hi.
    destruct (index_of_split first rest (S n) Hi) as (tail & Hs & Hl).
    exists (take (S n) rest), tail. repeat split; try assumption.
    destruct rest; [discriminate | reflexivity].
  - intros first rest Ht Hq [Hi | Hi]; rewrite Ht, Hq, Hi; reflexivity.
Qed.

Lemma parseFirstToken_spec_witness :
  parseFirstToken "  /usr/bin/env node  " = Some "/usr/bin/env" /\
  (exists token tail,
     parseFirstToken "'my tool' --flag" = Some token /\
     "my tool' --flag" = token +:+ String "'" tail /\
     Js.truthy token = true /\ lacks "'" token = true).
Proof.
  split.
  - destruct (proj1 (proj2 (parseFirstToken_spec "  /usr/bin/env node  "))
                "/"%char "usr/bin/env node" eq_refl eq_refl)
      as (token & tail & Hp & _).
    rewrite Hp. vm_compute in Hp. exact (eq_sym Hp).
  - apply (proj1 (proj2 (proj2 (parseFirstToken_spec "'my tool' --flag")))
             "'"%char "my tool' --flag" 6%nat); reflexivity.
Defined.

(** ** Adding to the allowlist and recording a use *)

Lemma stored_allowlist_with_allowlist (f : ExecApprovalsFile) (target key : string)
    (existing : ExecApprovalsAgent) (l : list ExecAllowlistEntry) :
  stored_allowlist (with_allowlist f target existing l) key =
  if decide (target = key) then l else stored_allowlist f key.
Proof.
  unfold stored_allowlist, stored_agent, with_allowlist. cbn [agents from_option id].
  destruct (decide (target = key)) as [-> | Hne].
  - rewrite lookup_insert_eq. reflexivity.
  - rewrite lookup_insert_ne by exact Hne. reflexivity.
Qed.

Lemma existsb_pattern_In (p : string) (l : list ExecAllowlistEntry) :
  existsb (fun entry => String.eqb (pattern entry) p) l = true <-> In p (map pattern l).
Proof.
  rewrite existsb_exists, in_map_iff. split.
  - intros (e & He & Hp). apply String.eqb_eq in Hp. eauto.
  - intros (e & Hp & He). exists e. split; [exact He |]. apply String.eqb_eq, Hp.
Qed.

(** X4: [addAllowlistEntry] adds the trimmed pattern, stamped with the
    current time, behind the entries the agent already has, writes the file,
    and leaves every other agent and the socket and default settings as they
    were; a second call with the same pattern changes nothing.  A blank
    pattern, or one that is already listed, leaves the file and the disk as
    they are, even where the disk cannot be written. *)
Theorem addAllowlistEntry_spec (rt : Runtime) (f : ExecApprovalsFile)
    (agentId : option string) (p : string) (w : World) :
  let key := agent_key agentId in
  (Js.truthy (Js.trim p) = false \/ In (Js.trim p) (map pattern (stored_allowlist f key)) ->
   addAllowlistEntry rt f agentId p w = Return (f, w)) /\
  (writable w = true ->
   Js.truthy (Js.trim p) = true ->
   ~ In (Js.trim p) (map pattern (stored_allowlist f key)) ->
   exists f' w',
     addAllowlistEntry rt f agentId p w = Return (f', w') /\
     stored_allowlist f' key =
       stored_allowlist f key ++
       [{| pattern := Js.trim p; lastUsedAt := Some (now w);
           lastUsedCommand := None; lastResolvedPath := None |}] /\
     (forall other, other <> key -> stored_agent f' other = stored_agent f other) /\
     (version f' = version f /\ socket f' = socket f /\ defaults f' = defaults f) /\
     approvals_file w' = FileContent (JSON_stringify rt f' +:+ String "010" EmptyString) /\
     addAllowlistEntry rt f' agentId p w' = Return (f', w')).
Proof.
  cbn zeta. unfold agent_key.
  assert (Hnoop : forall f0 w0,
            Js.truthy (Js.trim p) = false \/
            In (Js.trim p) (map pattern (stored_allowlist f0 (default "default" agentId))) ->
            addAllowlistEntry rt f0 agentId p w0 = Return (f0, w0)).
  { intros f0 w0 H. unfold addAllowlistEntry.
    destruct (Js.truthy (Js.trim p)) eqn:Ht; [| reflexivity]. cbn [negb].
    destruct H as [H | H]; [discriminate |].
    apply existsb_pattern_In in H. unfold stored_allowlist, stored_agent in H.
    rewrite H. reflexivity. }
  split; [apply Hnoop |].
  intros Hw Ht Hnew.
  assert (Hex : existsb (fun entry => String.eqb (pattern entry) (Js.trim p))
                  (stored_allowlist f (default "default" agentId)) = false).
  { apply not_true_is_false. intros H. apply Hnew, existsb_pattern_In, H. }
  unfold addAllowlistEntry at 1. rewrite Ht. cbn [negb].
  unfold stored_allowlist, stored_agent in Hex. rewrite Hex.
  unfold saveExecApprovals. rewrite Hw. cbn [mbind outcome_bind fst snd].
  eexists _, _. split; [reflexivity |].
  split; [rewrite stored_allowlist_with_allowlist, decide_True by reflexivity;
          reflexivity |].
  split.
  { intros other Hne. unfold stored_agent, with_allowlist. cbn [agents from_option id].
    rewrite lookup_insert_ne by congruence. reflexivity. }
  split; [repeat split |]. split; [reflexivity |].
  apply Hnoop. right.
  rewrite stored_allowlist_with_allowlist, decide_True by reflexivity.
  rewrite map_app, in_app_iff. right. left. reflexivity.
Qed.

Lemma addAllowlistEntry_spec_witness :
  exists f' w',
    addAllowlistEntry (plain_runtime (Throw "SyntaxError")) wildcard_merge_file (Some "main")
      "  /usr/bin/git " (world_with FileMissing) = Return (f', w') /\
    pattern <$> stored_allowlist f' "main" = ["/usr/bin/uname"; "/usr/bin/git"] /\
    pattern <$> stored_allowlist f' "*" = ["/bin/hostname"].
Proof.
  destruct (proj2 (addAllowlistEntry_spec (plain_runtime (Throw "SyntaxError"))
                     wildcard_merge_file (Some "main") "  /usr/bin/git "
                     (world_with FileMissing)))
    as (f' & w' & Hadd & Hl & Hother & _); [reflexivity | reflexivity | |].
  - vm_compute. intros [H | []]. discriminate.
  - exists f', w'. split; [exact Hadd |]. split.
    + unfold agent_key in Hl. cbn [from_option id] in Hl. rewrite Hl. vm_compute. reflexivity.
    + unfold stored_allowlist. rewrite (Hother "*") by discriminate. vm_compute. reflexivity.
Defined.

Lemma record_map_spec (entry : ExecAllowlistEntry) (at_ : Z) (cmd : string)
    (rp : option string) (l : list ExecAllowlistEntry) :
  let l' :=
    map (fun item =>
           if String.eqb (pattern item) (pattern entry) then
             {| pattern := pattern item; lastUsedAt := Some at_;
                lastUsedCommand := Some cmd; lastResolvedPath := rp |}
           else item) l in
  map pattern l' = map pattern l /\
  Forall2 (fun old new =>
             new = if String.eqb (pattern old) (pattern entry)
                   then used_entry old at_ cmd rp else old) l l' /\
  (~ In (pattern entry) (map pattern l) -> l' = l).
Proof.
  cbn zeta. induction l as [| item l (IH1 & IH2 & IH3)].
  - repeat split. constructor.
  - cbn [map]. split; [| split].
    + rewrite IH1. destruct (String.eqb (pattern item) (pattern entry)); reflexivity.
    + constructor; [reflexivity | exact IH2].
    + intros Hn. cbn [In] in Hn. rewrite IH3 by tauto.
      destruct (String.eqb_spec (pattern item) (pattern entry)) as [He | _];
        [exfalso; apply Hn; left; exact He | reflexivity].
Qed.

(** X5: [recordAllowlistUse] stamps the time, the command and the resolved
    path on the agent's entries that carry the pattern of the matched entry
    and writes the file.  The patterns and their order, the agent's other
    entries, every other agent and the settings stay as they were; when the
    agent itself holds no entry with that pattern (the match came from the
    wildcard agent) no use is recorded on any entry. *)
Theorem recordAllowlistUse_spec (rt : Runtime) (f : ExecApprovalsFile)
    (agentId : option string) (entry : ExecAllowlistEntry) (command_ : string)
    (resolvedPath_ : option string) (w : World) :
  writable w = true ->
  let key := agent_key agentId in
  exists f' w',
    recordAllowlistUse rt f agentId entry command_ resolvedPath_ w = Return (f', w') /\
    map pattern (stored_allowlist f' key) = map pattern (stored_allowlist f key) /\
    Forall2 (fun old new =>
               new = if String.eqb (pattern old) (pattern entry)
                     then used_entry old (now w) command_ resolvedPath_ else old)
      (stored_allowlist f key) (stored_allowlist f' key) /\
    (~ In (pattern entry) (map pattern (stored_allowlist f key)) ->
     stored_allowlist f' key = stored_allowlist f key) /\
    (forall other, other <> key -> stored_agent f' other = stored_agent f other) /\
    (version f' = version f /\ socket f' = socket f /\ defaults f' = defaults f) /\
    approvals_file w' = FileContent (JSON_stringify rt f' +:+ String "010" EmptyString).
Proof.
  intros Hw. cbn zeta. unfold agent_key, recordAllowlistUse, saveExecApprovals.
  rewrite Hw. cbn [mbind outcome_bind]. eexists _, _. split; [reflexivity |].
  rewrite stored_allowlist_with_allowlist, decide_True by reflexivity.
  destruct (record_map_spec entry (now w) command_ resolvedPath_
              (stored_allowlist f (default "default" agentId))) as (H1 & H2 & H3).
  split; [exact H1 |]. split; [exact H2 |]. split; [exact H3 |].
  split.
  { intros other Hne. unfold stored_agent, with_allowlist. cbn [agents from_option id].
    rewrite lookup_insert_ne by congruence. reflexivity. }
  repeat split.
Qed.

Lemma recordAllowlistUse_spec_witness :
  exists f' w',
    recordAllowlistUse (plain_runtime (Throw "SyntaxError")) wildcard_merge_file (Some "main")
      (entry_of "/bin/hostname") "hostname -f" (Some "/bin/hostname")
      (world_with FileMissing) = Return (f', w') /\
    stored_allowlist f' "main" = stored_allowlist wildcard_merge_file "main" /\
    stored_agent f' "*" = stored_agent wildcard_merge_file "*".
Proof.
  destruct (recordAllowlistUse_spec (plain_runtime (Throw "SyntaxError"))
              wildcard_merge_file (Some "main") (entry_of "/bin/hostname") "hostname -f"
              (Some "/bin/hostname") (world_with FileMissing) eq_refl)
    as (f' & w' & Hrec & _ & _ & Hsame & Hother & _).
  exists f', w'. split; [exact Hrec |]. split.
  - apply Hsame. vm_compute. intros [H | []]. discriminate.
  - apply Hother. discriminate.
Defined.

(** ** The allowlist as an ordered list: the first match wins *)

Lemma matchAllowlist_entries_cons (rt : Runtime) (e : ExecAllowlistEntry)
    (rest : list ExecAllowlistEntry) (res : CommandResolution) :
  matchAllowlist_entries rt (e :: rest) res =
  (m ← entry_matches rt res e;
   if m : bool then Return (Some e) else matchAllowlist_entries rt rest res).
Proof.
  cbn [matchAllowlist_entries]. unfold entry_matches, match_target.
  destruct (negb (Js.truthy (Js.trim (pattern e)))); [reflexivity |].
  destruct (hasPath (Js.trim (pattern e))).
  - destruct (Js.truthy (default (rawExecutable res) (resolvedPath res))); reflexivity.
  - destruct (Js.truthy (executableName res)); reflexivity.
Qed.

Lemma matchAllowlist_as_entries (rt : Runtime) (entries : list ExecAllowlistEntry)
    (res : CommandResolution) :
  matchAllowlist rt entries (Some res) = matchAllowlist_entries rt entries res.
Proof. destruct entries; reflexivity. Qed.

Lemma matchAllowlist_entries_app (rt : Runtime) (l1 l2 : list ExecAllowlistEntry)
    (res : CommandResolution) :
  Forall (fun x => entry_matches rt res x = Return false) l1 ->
  matchAllowlist_entries rt (l1 ++ l2) res = matchAllowlist_entries rt l2 res.
Proof.
  induction 1 as [| x l1 Hx _ IH]; [reflexivity |].
  cbn [app]. rewrite matchAllowlist_entries_cons, Hx. exact IH.
Qed.

Lemma matchAllowlist_entries_none (rt : Runtime) (l : list ExecAllowlistEntry)
    (res : CommandResolution) :
  matchAllowlist_entries rt l res = Return None <->
  Forall (fun x => entry_matches rt res x = Return false) l.
Proof.
  induction l as [| x l IH].
  - split; [constructor | reflexivity].
  - rewrite matchAllowlist_entries_cons. split.
    + destruct (entry_matches rt res x) as [[] | e] eqn:Hx; cbn [mbind outcome_bind];
        try discriminate.
      intros H. constructor; [exact Hx | apply IH, H].
    + intros H. inversion H as [| ? ? Hx Hl]; subst. rewrite Hx. apply IH, Hl.
Qed.

(** X6: [matchAllowlist] returns the first entry, in list order, whose
    pattern matches: an entry is returned exactly when it matches and no
    entry before it does, and [null] exactly when no entry matches.  Entries
    with a blank pattern never match, and without a resolution nothing
    does. *)
Theorem matchAllowlist_first_match (rt : Runtime) (entries : list ExecAllowlistEntry)
    (res : CommandResolution) :
  (forall e,
     matchAllowlist rt entries (Some res) = Return (Some e) <->
     exists l1 l2,
       entries = l1 ++ e :: l2 /\
       Forall (fun x => entry_matches rt res x = Return false) l1 /\
       entry_matches rt res e = Return true) /\
  (matchAllowlist rt entries (Some res) = Return None <->
   Forall (fun x => entry_matches rt res x = Return false) entries) /\
  (forall e, Js.truthy (Js.trim (pattern e)) = false ->
             entry_matches rt res e = Return false) /\
  matchAllowlist rt entries None = Return None.
Proof.
  rewrite matchAllowlist_as_entries. split; [| split; [| split]].
  - intros e. split.
    + induction entries as [| x l IH]; [discriminate |].
      rewrite matchAllowlist_entries_cons.
      destruct (entry_matches rt res x) as [[] | err] eqn:Hx; cbn [mbind outcome_bind];
        try discriminate.
      * intros [= <-]. exists [], l. repeat split; [constructor | exact Hx].
      * intros H. destruct (IH H) as (l1 & l2 & -> & Hl1 & He).
        exists (x :: l1), l2. repeat split; [constructor; assumption | exact He].
    + intros (l1 & l2 & -> & Hl1 & He).
      rewrite (matchAllowlist_entries_app rt l1 (e :: l2) res Hl1).
      rewrite matchAllowlist_entries_cons, He. reflexivity.
  - apply matchAllowlist_entries_none.
  - intros e He. unfold entry_matches. rewrite He. reflexivity.
  - destruct entries; reflexivity.
Qed.

Lemma matchAllowlist_first_match_witness :
  matchAllowlist (plain_runtime (Throw "SyntaxError"))
    [entry_of "   "; entry_of "/opt/*/rg"; entry_of "r?"; entry_of "rg"]
    (Some rg_resolution) = Return (Some (entry_of "r?")).
Proof.
  apply (proj1 (matchAllowlist_first_match (plain_runtime (Throw "SyntaxError"))
                  [entry_of "   "; entry_of "/opt/*/rg"; entry_of "r?"; entry_of "rg"]
                  rg_resolution) (entry_of "r?")).
  exists [entry_of "   "; entry_of "/opt/*/rg"], [entry_of "rg"].
  split; [reflexivity |]. split; [| vm_compute; reflexivity].
  repeat constructor.
Defined.

(** ** Letter case in patterns and targets *)

Lemma lower_char_backslash (c : ascii) :
  Ascii.eqb (Js.lower_char c) "\" = Ascii.eqb c "\".
Proof. ascii_cases c. Qed.

Lemma lower_char_tilde (c : ascii) :
  Ascii.eqb "~" (Js.lower_char c) = Ascii.eqb "~" c.
Proof. ascii_cases c. Qed.

Lemma lower_char_space (c : ascii) : Js.is_space (Js.lower_char c) = Js.is_space c.
Proof. ascii_cases c. Qed.

Lemma lower_char_idempotent (c : ascii) :
  Js.lower_char (Js.lower_char c) = Js.lower_char c.
Proof. ascii_cases c. Qed.

Lemma toLowerCase_idempotent (s : string) :
  Js.toLowerCase (Js.toLowerCase s) = Js.toLowerCase s.
Proof.
  induction s as [| c r IH]; [reflexivity |].
  cbn [Js.toLowerCase]. rewrite lower_char_idempotent, IH. reflexivity.
Qed.

Lemma replace_backslash_pairs_lower_both (t : string) :
  Js.toLowerCase (replace_backslash_pairs t) = replace_backslash_pairs (Js.toLowerCase t) /\
  forall a, Js.toLowerCase (replace_backslash_pairs (String a t)) =
            replace_backslash_pairs (Js.toLowerCase (String a t)).
Proof.
  induction t as [| b r [IH1 IH2]].
  - split; [reflexivity |]. intros a. reflexivity.
  - split; [exact (IH2 b) |]. intros a.
    change (replace_backslash_pairs (String a (String b r))) with
      (if Ascii.eqb a "\" && Ascii.eqb b "\"
       then String "/" (replace_backslash_pairs r)
       else String a (replace_backslash_pairs (String b r))).
    change (replace_backslash_pairs (Js.toLowerCase (String a (String b r)))) with
      (if Ascii.eqb (Js.lower_char a) "\" && Ascii.eqb (Js.lower_char b) "\"
       then String "/" (replace_backslash_pairs (Js.toLowerCase r))
       else String (Js.lower_char a)
              (replace_backslash_pairs (Js.toLowerCase (String b r)))).
    rewrite !lower_char_backslash.
    destruct (Ascii.eqb a "\" && Ascii.eqb b "\").
    + cbn [Js.toLowerCase]. rewrite IH1. reflexivity.
    + rewrite <- (IH2 b). reflexivity.
Qed.

Lemma normalizeMatchTarget_lower (t1 t2 : string) :
  Js.toLowerCase t1 = Js.toLowerCase t2 -> normalizeMatchTarget t1 = normalizeMatchTarget t2.
Proof.
  intros H. unfold normalizeMatchTarget.
  rewrite !(proj1 (replace_backslash_pairs_lower_both _)), H. reflexivity.
Qed.

Lemma trimStart_lower (s : string) :
  Js.trimStart (Js.toLowerCase s) = Js.toLowerCase (Js.trimStart s).
Proof.
  induction s as [| c r IH]; [reflexivity |].
  cbn [Js.toLowerCase Js.trimStart]. rewrite lower_char_space.
  destruct (Js.is_space c); [exact IH | reflexivity].
Qed.

Lemma trimEnd_lower (s : string) :
  Js.trimEnd (Js.toLowerCase s) = Js.toLowerCase (Js.trimEnd s).
Proof.
  induction s as [| c r IH]; [reflexivity |].
  cbn [Js.toLowerCase]. rewrite !trimEnd_cons, IH, lower_char_space.
  destruct (Js.trimEnd r); cbn [Js.toLowerCase]; [destruct (Js.is_space c) |]; reflexivity.
Qed.

Lemma trim_lower (s : string) : Js.trim (Js.toLowerCase s) = Js.toLowerCase (Js.trim s).
Proof. unfold Js.trim. rewrite trimStart_lower, trimEnd_lower. reflexivity. Qed.

Lemma truthy_lower (s : string) : Js.truthy (Js.toLowerCase s) = Js.truthy s.
Proof. destruct s; reflexivity. Qed.

Lemma startsWith_tilde_lower (s : string) :
  Js.startsWith (Js.toLowerCase s) "~" = Js.startsWith s "~".
Proof.
  destruct s as [| c r]; [reflexivity |]. cbn [Js.toLowerCase Js.startsWith].
  rewrite lower_char_tilde. destruct r; reflexivity.
Qed.

(** X7: letter case never matters to [matchesPattern], whatever the
    pattern: two targets that differ only in the case of letters get the same
    answer, and so do two patterns that differ only in case, as long as they
    do not start with a tilde. *)
Theorem matchesPattern_ignores_case (rt : Runtime) :
  (forall p t1 t2,
     Js.toLowerCase t1 = Js.toLowerCase t2 ->
     matchesPattern rt p t1 = matchesPattern rt p t2) /\
  (forall p1 p2 t,
     Js.toLowerCase p1 = Js.toLowerCase p2 ->
     Js.startsWith (Js.trim p1) "~" = false ->
     matchesPattern rt p1 t = matchesPattern rt p2 t).
Proof.
  split.
  - intros p t1 t2 H. unfold matchesPattern.
    rewrite (normalizeMatchTarget_lower t1 t2 H). reflexivity.
  - intros p1 p2 t H Ht.
    assert (Htrim : Js.toLowerCase (Js.trim p1) = Js.toLowerCase (Js.trim p2))
      by (rewrite <- !trim_lower, H; reflexivity).
    assert (Ht2 : Js.startsWith (Js.trim p2) "~" = false)
      by (rewrite <- startsWith_tilde_lower, <- Htrim, startsWith_tilde_lower; exact Ht).
    unfold matchesPattern. rewrite Ht, Ht2.
    rewrite <- (truthy_lower (Js.trim p1)), Htrim, truthy_lower.
    rewrite (normalizeMatchTarget_lower _ _ Htrim). reflexivity.
Qed.

Lemma matchesPattern_ignores_case_witness :
  matchesPattern (plain_runtime (Throw "SyntaxError")) "/Opt/**/RG" "/opt/homebrew/bin/rg" =
  matchesPattern (plain_runtime (Throw "SyntaxError")) "/opt/**/rg" "/OPT/homebrew/BIN/rg".
Proof.
  rewrite (proj2 (matchesPattern_ignores_case (plain_runtime (Throw "SyntaxError")))
             "/Opt/**/RG" "/opt/**/rg" "/opt/homebrew/bin/rg" eq_refl eq_refl).
  apply (proj1 (matchesPattern_ignores_case (plain_runtime (Throw "SyntaxError")))
           "/opt/**/rg" "/opt/homebrew/bin/rg" "/OPT/homebrew/BIN/rg").
  reflexivity.
Defined.

(** ** Patterns without glob characters *)

Lemma exact_char_cases (c : ascii) :
  exact_char c = true ->
  Ascii.eqb c "*" = false /\ Ascii.eqb c "?" = false /\ Ascii.eqb c "\" = false /\
  (c = "."%char \/
   (Ascii.eqb c "." = false /\ Ascii.eqb c "^" = false /\ Ascii.eqb c "$" = false /\
    Ascii.eqb c "[" = false /\ RegExp.is_syntax_char c = false)).
Proof. ascii_cases c; auto 10. Qed.

Lemma lower_char_exact (c : ascii) : exact_char (Js.lower_char c) = exact_char c.
Proof. ascii_cases c. Qed.

Lemma lower_char_eqb_dot (c : ascii) : Ascii.eqb (Js.lower_char c) "." = Ascii.eqb c ".".
Proof. ascii_cases c. Qed.

Lemma same_letter_dot_not_terminator (b : ascii) :
  same_letter "." b = true -> RegExp.is_line_terminator b = false.
Proof. ascii_cases b. Qed.

Lemma same_letter_refl (a : ascii) : same_letter a a = true.
Proof. apply Ascii.eqb_refl. Qed.

Lemma exact_pattern_lower (p : string) :
  exact_pattern (Js.toLowerCase p) = exact_pattern p.
Proof.
  induction p as [| c r IH]; [reflexivity |].
  cbn [Js.toLowerCase exact_pattern]. rewrite lower_char_exact, IH. reflexivity.
Qed.

Lemma exact_pattern_cons (c : ascii) (r : string) :
  exact_pattern (String c r) = true -> exact_char c = true /\ exact_pattern r = true.
Proof. cbn [exact_pattern]. intros H. apply andb_true_iff in H. exact H. Qed.

Lemma globToRegExp_from_exact (p : string) :
  exact_pattern p = true -> globToRegExp_from p = p.
Proof.
  induction p as [| c r IH]; [reflexivity |]. intros H.
  destruct (exact_pattern_cons c r H) as [Hc Hr].
  destruct (exact_char_cases c Hc) as (Hs & Hq & _).
  rewrite globToRegExp_from_cons, Hs, Hq, escape_replace_char, (IH Hr). reflexivity.
Qed.

Lemma replace_backslash_pairs_exact (p : string) :
  exact_pattern p = true -> replace_backslash_pairs p = p.
Proof.
  induction p as [| c r IH]; [reflexivity |]. intros H.
  destruct (exact_pattern_cons c r H) as [Hc Hr].
  destruct (exact_char_cases c Hc) as (_ & _ & Hb & _).
  cbn [replace_backslash_pairs]. rewrite Hb.
  destruct r as [| d r']; [reflexivity |]. cbn [andb]. rewrite (IH Hr). reflexivity.
Qed.

Lemma exact_head_not_star (r : string) :
  exact_pattern r = true ->
  exists k rest, r +:+ "$" = String k rest /\ Ascii.eqb k "*" = false.
Proof.
  destruct r as [| d r']; intros H.
  - exists "$"%char, EmptyString. split; reflexivity.
  - destruct (exact_pattern_cons d r' H) as [Hd _].
    destruct (exact_char_cases d Hd) as (Hs & _).
    exists d, (r' +:+ "$"). split; [reflexivity | exact Hs].
Qed.

Lemma parse_exact (s : string) :
  exact_pattern s = true ->
  RegExp.parse (s +:+ "$") =
  Some (map exact_node (list_ascii_of_string s) ++ [RegExp.Eol]).
Proof.
  induction s as [| c r IH]; [reflexivity |]. intros H.
  destruct (exact_pattern_cons c r H) as [Hc Hr].
  destruct (exact_head_not_star r Hr) as (k & rest & Hhead & Hk).
  change (String c r +:+ "$") with (String c (r +:+ "$")).
  cbn [list_ascii_of_string map app]. unfold exact_node at 1.
  destruct (exact_char_cases c Hc) as (_ & _ & _ & [-> | (H0 & H1 & H2 & H3 & H4)]).
  - rewrite (parse_dot_one _ k rest Hhead Hk), (IH Hr). reflexivity.
  - rewrite H0, (parse_literal_one c _ k rest H1 H2 H0 H3 H4 Hhead Hk), (IH Hr).
    reflexivity.
Qed.

Lemma match_here_exact (p : string) :
  forall (st : bool) (t : string),
    RegExp.match_here
      (map exact_node (list_ascii_of_string (Js.toLowerCase p)) ++ [RegExp.Eol]) st
      (Js.toLowerCase t) =
    letters_agree p t.
Proof.
  induction p as [| a p IH]; intros st t.
  - destruct t; reflexivity.
  - destruct t as [| b t]; cbn [Js.toLowerCase list_ascii_of_string map app letters_agree].
    + unfold exact_node. destruct (Ascii.eqb (Js.lower_char a) "."); reflexivity.
    + unfold exact_node at 1. rewrite lower_char_eqb_dot.
      destruct (Ascii.eqb_spec a ".") as [-> | Ha].
      * cbn [RegExp.match_here RegExp.atom_matches andb].
        rewrite lower_char_line_terminator, (IH false t).
        destruct (RegExp.is_line_terminator b) eqn:Hb; [| reflexivity].
        cbn [negb orb].
        destruct (same_letter "." b) eqn:Hs; [| reflexivity].
        rewrite (same_letter_dot_not_terminator b Hs) in Hb. discriminate.
      * cbn [RegExp.match_here andb orb].
        rewrite literal_matches_same_letter, (IH false t). reflexivity.
Qed.

Lemma letters_agree_refl (p : string) : letters_agree p p = true.
Proof.
  induction p as [| a p IH]; [reflexivity |].
  cbn [letters_agree]. rewrite same_letter_refl, orb_true_r, IH. reflexivity.
Qed.

Lemma matchesPattern_exact_all (rt : Runtime) (p t : string) :
  Js.truthy (Js.trim p) = true ->
  Js.startsWith (Js.trim p) "~" = false ->
  exact_pattern (Js.trim p) = true ->
  matchesPattern rt p t = Return (letters_agree (Js.trim p) (replace_backslash_pairs t)).
Proof.
  intros Hne Htilde Hexact.
  unfold matchesPattern, normalizeMatchTarget, RegExp_test, globToRegExp.
  rewrite Hne, Htilde. cbn [negb].
  rewrite (replace_backslash_pairs_exact _ Hexact).
  rewrite globToRegExp_from_exact by (rewrite exact_pattern_lower; exact Hexact).
  change ("^" +:+ Js.toLowerCase (Js.trim p) +:+ "$") with
    (String "^" (Js.toLowerCase (Js.trim p) +:+ "$")).
  cbn [RegExp.parse Ascii.eqb Bool.eqb].
  rewrite parse_exact by (rewrite exact_pattern_lower; exact Hexact).
  cbn [fmap option_fmap option_map]. rewrite test_anchored, match_here_exact.
  reflexivity.
Qed.

(** X8: a pattern without glob characters and without regular-expression
    syntax other than the dot matches a target exactly when the two have the
    same length and agree position by position, letters in either case and a
    dot of the pattern with any character but a line terminator (pairs of
    backslashes in the target counting as a slash).  Such a pattern always
    matches its own text. *)
Theorem matchesPattern_exact (rt : Runtime) (p : string) :
  Js.truthy (Js.trim p) = true ->
  Js.startsWith (Js.trim p) "~" = false ->
  exact_pattern (Js.trim p) = true ->
  (forall t, matchesPattern rt p t =
             Return (letters_agree (Js.trim p) (replace_backslash_pairs t))) /\
  matchesPattern rt p (Js.trim p) = Return true.
Proof.
  intros Hne Htilde Hexact.
  split; [intros t; apply matchesPattern_exact_all; assumption |].
  rewrite matchesPattern_exact_all by assumption.
  rewrite (replace_backslash_pairs_exact _ Hexact), letters_agree_refl. reflexivity.
Qed.

Lemma matchesPattern_exact_witness :
  matchesPattern (plain_runtime (Throw "SyntaxError")) " /usr/bin/python3.11 "
    "/usr/bin/python3.11" = Return true /\
  matchesPattern (plain_runtime (Throw "SyntaxError")) " /usr/bin/python3.11 "
    "/USR/bin/python3x11" = Return true.
Proof.
  split.
  - exact (proj2 (matchesPattern_exact (plain_runtime (Throw "SyntaxError"))
                    " /usr/bin/python3.11 " eq_refl eq_refl eq_refl)).
  - exact (proj1 (matchesPattern_exact (plain_runtime (Throw "SyntaxError"))
                    " /usr/bin/python3.11 " eq_refl eq_refl eq_refl) "/USR/bin/python3x11").
Defined.

(** ** Ensuring and resolving the approvals file *)

Lemma nonempty_trimmed_fixed (v : option string) (s : string) :
  nonempty_trimmed v = Some s -> nonempty_trimmed (Some s) = Some s.
Proof. intros H. rewrite <- H. apply nonempty_trimmed_idempotent. Qed.

Lemma default_nonempty_trimmed (d : string) (v : option string) :
  trimmed_nonempty d ->
  nonempty_trimmed (Some (default d (nonempty_trimmed v))) =
  Some (default d (nonempty_trimmed v)).
Proof.
  intros Hd. destruct (nonempty_trimmed v) as [s |] eqn:Hv; cbn [from_option id].
  - exact (nonempty_trimmed_fixed v s Hv).
  - exact Hd.
Qed.

Lemma ensureExecApprovals_inv (rt : Runtime) (w : World) (f1 : ExecApprovalsFile)
    (w1 : World) :
  ensureExecApprovals rt w = Return (f1, w1) ->
  exists g,
    loadExecApprovals rt w = Return g /\
    writable w = true /\
    f1 = {| version := Some 1%Z;
            socket := Some
              {| socket_path :=
                   Some (default (resolveExecApprovalsSocketPath rt)
                           (nonempty_trimmed (socket g ≫= socket_path)));
                 socket_token :=
                   Some (default (random_token w)
                           (nonempty_trimmed (socket g ≫= socket_token))) |};
            defaults := defaults (normalizeExecApprovals g);
            agents := agents (normalizeExecApprovals g) |} /\
    w1 = {| approvals_file := FileContent (saved_text rt f1); writable := true;
            random_token := random_token w; now := now w |}.
Proof.
  unfold ensureExecApprovals, saveExecApprovals.
  destruct (loadExecApprovals rt w) as [g | e]; cbn [mbind outcome_bind]; [| discriminate].
  destruct (writable w) eqn:Hw; cbn [mbind outcome_bind]; [| discriminate].
  intros [= <- <-]. exists g. split; [reflexivity |]. split; [reflexivity |].
  cbn [normalizeExecApprovals socket mbind option_bind socket_path socket_token version].
  unfold generateToken. rewrite !nonempty_trimmed_idempotent.
  split; reflexivity.
Qed.

(** X9: once [ensureExecApprovals] has run, running it again changes
    nothing: provided the JSON codec reads back the file it wrote and the
    default socket path and the generated token are not blank and carry no
    surrounding white space, the loader returns the ensured file, and a
    second run returns the same file, socket path and token and leaves the
    disk as it is. *)
Theorem ensureExecApprovals_stable (rt : Runtime) (w : World) (f1 : ExecApprovalsFile)
    (w1 : World) :
  ensureExecApprovals rt w = Return (f1, w1) ->
  JSON_parse rt (saved_text rt f1) = Return (Some f1) ->
  trimmed_nonempty (resolveExecApprovalsSocketPath rt) ->
  trimmed_nonempty (random_token w) ->
  loadExecApprovals rt w1 = Return f1 /\
  ensureExecApprovals rt w1 = Return (f1, w1).
Proof.
  intros He Hcodec Hpath Htoken.
  destruct (ensureExecApprovals_inv rt w f1 w1 He) as (g & Hload & Hw & Hf1 & Hw1).
  assert (Hnorm : normalizeExecApprovals f1 = f1).
  { rewrite Hf1. unfold normalizeExecApprovals at 1.
    cbn [socket defaults agents mbind option_bind socket_path socket_token security ask
         askFallback autoAllowSkills from_option id normalizeExecApprovals].
    rewrite (default_nonempty_trimmed _ _ Hpath), (default_nonempty_trimmed _ _ Htoken).
    reflexivity. }
  assert (Hl1 : loadExecApprovals rt w1 = Return f1).
  { rewrite <- Hnorm. apply (loadExecApprovals_version_1 rt w1 (saved_text rt f1)).
    - rewrite Hw1. reflexivity.
    - exact Hcodec.
    - rewrite Hf1. reflexivity. }
  split; [exact Hl1 |].
  unfold ensureExecApprovals, saveExecApprovals. rewrite Hl1.
  cbn [mbind outcome_bind]. rewrite Hnorm.
  assert (Hsock : socket f1 =
                  Some {| socket_path :=
                            Some (default (resolveExecApprovalsSocketPath rt)
                                    (nonempty_trimmed (socket g ≫= socket_path)));
                          socket_token :=
                            Some (default (random_token w)
                                    (nonempty_trimmed (socket g ≫= socket_token))) |})
    by (rewrite Hf1; reflexivity).
  rewrite Hsock. cbn [mbind option_bind socket_path socket_token].
  rewrite (default_nonempty_trimmed _ _ Hpath), (default_nonempty_trimmed _ _ Htoken).
  cbn [from_option id].
  assert (Hsame : {| version := version f1;
                     socket := Some
                       {| socket_path :=
                            Some (default (resolveExecApprovalsSocketPath rt)
                                    (nonempty_trimmed (socket g ≫= socket_path)));
                          socket_token :=
                            Some (default (random_token w)
                                    (nonempty_trimmed (socket g ≫= socket_token))) |};
                     defaults := defaults f1; agents := agents f1 |} = f1)
    by (rewrite Hf1 at 4; rewrite Hf1; reflexivity).
  rewrite Hsame. rewrite Hw1 at 1. cbn [writable mbind outcome_bind].
  rewrite Hw1. reflexivity.
Qed.

Lemma ensureExecApprovals_stable_witness :
  exists f1 w1,
    ensureExecApprovals fresh_runtime (world_with FileMissing) = Return (f1, w1) /\
    loadExecApprovals fresh_runtime w1 = Return f1 /\
    ensureExecApprovals fresh_runtime w1 = Return (f1, w1).
Proof.
  exists (fresh_file fresh_runtime (world_with FileMissing)).
  exists (world_with (FileContent (saved_text fresh_runtime
                                     (fresh_file fresh_runtime (world_with FileMissing))))).
  split; [vm_compute; reflexivity |].
  apply (ensureExecApprovals_stable fresh_runtime (world_with FileMissing));
    vm_compute; reflexivity.
Defined.



(** X11: a missing, unreadable or malformed approvals file is replaced on
    the first resolution.  Where the file can be written,
    [resolveExecApprovals] returns and leaves on disk a fresh file with the
    default socket path, the generated token, no defaults and no agents
    (whatever the old file held is lost); the resolved defaults are the
    caller's overrides over deny, on-miss, deny and false, the agent's
    settings equal the defaults, and the allowlist is empty, for every agent
    id. *)
Theorem resolveExecApprovals_fresh (rt : Runtime) (agentId : option string)
    (overrides : option ExecApprovalsDefaults) (w : World) :
  malformed rt w ->
  writable w = true ->
  exists r w',
    resolveExecApprovals rt agentId overrides w = Return (r, w') /\
    file r = fresh_file rt w /\
    approvals_file w' = FileContent (saved_text rt (fresh_file rt w)) /\
    token r = random_token w /\
    socketPath r = expandHome rt (resolveExecApprovalsSocketPath rt) /\
    resolved_defaults r =
      {| r_security := default SecDeny (overrides ≫= security);
         r_ask := default AskOnMiss (overrides ≫= ask);
         r_askFallback := default SecDeny (overrides ≫= askFallback);
         r_autoAllowSkills := default false (overrides ≫= autoAllowSkills) |} /\
    agent r = resolved_defaults r /\
    resolved_allowlist r = [].
Proof.
  intros Hm Hw.
  destruct (loadExecApprovals_cases rt w) as [[_ Hl] | (raw & f0 & Hc & Hp & Hv & _)].
  - unfold resolveExecApprovals, ensureExecApprovals, saveExecApprovals.
    rewrite Hl. cbn [mbind outcome_bind]. rewrite Hw. cbn [mbind outcome_bind].
    eexists _, _. split; [reflexivity |].
    cbn [file token socketPath resolved_defaults agent resolved_allowlist fst snd].
    split; [reflexivity |]. split; [reflexivity |]. split; [reflexivity |].
    split; [reflexivity |].
    split; [| split].
    + destruct overrides as [[[[] |] [[] |] [[] |] [[] |]] |]; reflexivity.
    + destruct overrides as [[[[] |] [[] |] [[] |] [[] |]] |]; reflexivity.
    + reflexivity.
  - exfalso. unfold malformed in Hm. rewrite Hc, Hp in Hm.
    unfold version_is_not_1 in Hm. cbn in Hm. rewrite Hv in Hm. discriminate.
Qed.

Lemma resolveExecApprovals_fresh_witness :
  exists r w',
    resolveExecApprovals (plain_runtime (Throw "SyntaxError")) (Some "main") None
      (world_with (FileContent "{ not json")) = Return (r, w') /\
    file r = fresh_file (plain_runtime (Throw "SyntaxError"))
               (world_with (FileContent "{ not json")) /\
    resolved_allowlist r = [].
Proof.
  destruct (resolveExecApprovals_fresh (plain_runtime (Throw "SyntaxError")) (Some "main")
              None (world_with (FileContent "{ not json")) I eq_refl)
    as (r & w' & Hr & Hf & _ & _ & _ & _ & _ & Ha).
  exists r, w'. auto.
Defined.

(** ** The approval socket *)

Lemma string_app_assoc (a b c : string) : (a +:+ b) +:+ c = a +:+ (b +:+ c).
Proof.
  induction a as [| x a IH]; [reflexivity |].
  change (String x ((a +:+ b) +:+ c) = String x (a +:+ (b +:+ c))). f_equal. exact IH.
Qed.

Lemma string_app_empty (a : string) : a +:+ EmptyString = a.
Proof.
  induction a as [| x a IH]; [reflexivity |].
  change (String x (a +:+ EmptyString) = String x a). f_equal. exact IH.
Qed.

Lemma lacks_app (c : ascii) (a b : string) :
  lacks c (a +:+ b) = lacks c a && lacks c b.
Proof.
  induction a as [| x a IH]; [reflexivity |].
  change (negb (Ascii.eqb x c) && lacks c (a +:+ b) =
          negb (Ascii.eqb x c) && lacks c a && lacks c b).
  rewrite IH. destruct (Ascii.eqb x c); reflexivity.
Qed.

(** Draining a buffer in two parts: a decision found in the first part
    ends the loop, and otherwise the loop goes on over the second part
    with the text pending after the first. *)
Lemma drain_lines_app (d : string -> option string) (x y pending : string) :
  drain_lines d pending (x +:+ y) =
  match (drain_lines d pending x).1 with
  | Some dd => (Some dd, (drain_lines d pending x).2 +:+ y)
  | None => drain_lines d (drain_lines d pending x).2 y
  end.
Proof.
  revert pending. induction x as [| c x IH]; intros pending; [reflexivity |].
  change (String c x +:+ y) with (String c (x +:+ y)). cbn [drain_lines].
  destruct (Ascii.eqb c "010").
  - destruct (negb (Js.truthy (Js.trim pending))); [apply IH |].
    destruct (d (Js.trim pending)); [reflexivity | apply IH].
  - apply IH.
Qed.

Lemma drain_lines_no_newline (d : string -> option string) (pending x : string) :
  lacks "010" x = true -> drain_lines d pending x = (None, pending +:+ x).
Proof.
  revert pending. induction x as [| c x IH]; intros pending H.
  - cbn. rewrite string_app_empty. reflexivity.
  - cbn in H. apply andb_true_iff in H as [Hc Hx]. cbn [drain_lines].
    apply negb_true_iff in Hc. rewrite Hc, (IH _ Hx), string_app_assoc. reflexivity.
Qed.

Lemma drain_lines_rest (d : string -> option string) (pending x : string) :
  lacks "010" pending = true ->
  (drain_lines d pending x).1 = None ->
  lacks "010" (drain_lines d pending x).2 = true.
Proof.
  revert pending. induction x as [| c x IH]; intros pending Hp; [intros _; exact Hp |].
  cbn [drain_lines]. destruct (Ascii.eqb c "010") eqn:Hc.
  - destruct (negb (Js.truthy (Js.trim pending))); [apply IH; reflexivity |].
    destruct (d (Js.trim pending)); [discriminate | apply IH; reflexivity].
  - apply IH. rewrite lacks_app, Hp. cbn. rewrite Hc. reflexivity.
Qed.

Lemma socket_step_resolved (d : string -> option string) (s : SocketRequest)
    (e : SocketEvent) (v : SocketDecision) :
  resolved_with s = Some v -> resolved_with (socket_step d s e) = Some v.
Proof.
  intros Hs. destruct e as [| | data]; cbn [socket_step]; unfold finish.
  - rewrite Hs. exact Hs.
  - rewrite Hs. exact Hs.
  - destruct (drain_lines d EmptyString (buffer s +:+ data)).1; cbn [resolved_with].
    + rewrite Hs. reflexivity.
    + exact Hs.
Qed.

Lemma socket_fold_resolved (d : string -> option string) (events : list SocketEvent)
    (s : SocketRequest) (v : SocketDecision) :
  resolved_with s = Some v ->
  resolved_with (fold_left (socket_step d) events s) = Some v.
Proof.
  revert s. induction events as [| e events IH]; intros s Hs; [exact Hs |].
  cbn [fold_left]. apply IH, socket_step_resolved, Hs.
Qed.

Lemma socket_step_alike (d : string -> option string) (s s' : SocketRequest)
    (e : SocketEvent) :
  alike s s' -> alike (socket_step d s e) (socket_step d s' e).
Proof.
  intros [Hr Hb]. destruct (resolved_with s) as [v |] eqn:Hs.
  - split.
    + rewrite (socket_step_resolved d s e v Hs).
      symmetry. apply socket_step_resolved. symmetry. exact Hr.
    + rewrite (socket_step_resolved d s e v Hs). discriminate.
  - destruct (Hb eq_refl) as [Hbuf Hl]. symmetry in Hr.
    destruct e as [| | data]; cbn [socket_step]; unfold finish.
    + rewrite Hs, Hr. cbn [resolved_with]. split; [reflexivity | discriminate].
    + rewrite Hs, Hr. cbn [resolved_with]. split; [reflexivity | discriminate].
    + rewrite <- Hbuf.
      pose proof (drain_lines_rest d EmptyString (buffer s +:+ data) eq_refl) as Hrest.
      destruct (drain_lines d EmptyString (buffer s +:+ data)) as [[dd |] rest];
        cbn [fst snd resolved_with buffer] in *.
      * rewrite Hs, Hr. cbn [resolved_with]. split; [reflexivity | discriminate].
      * rewrite Hs, Hr. split; [reflexivity |]. intros _. split; [reflexivity |].
        apply Hrest. reflexivity.
Qed.

Lemma socket_fold_alike (d : string -> option string) (events : list SocketEvent)
    (s s' : SocketRequest) :
  alike s s' ->
  alike (fold_left (socket_step d) events s) (fold_left (socket_step d) events s').
Proof.
  revert s s'. induction events as [| e events IH]; intros s s' H; [exact H |].
  cbn [fold_left]. apply IH, socket_step_alike, H.
Qed.

Lemma socket_step_chunks (d : string -> option string) (s s' : SocketRequest)
    (a b : string) :
  alike s s' ->
  alike (socket_step d (socket_step d s (SocketData a)) (SocketData b))
        (socket_step d s' (SocketData (a +:+ b))).
Proof.
  intros [Hr Hb]. destruct (resolved_with s) as [v |] eqn:Hs.
  - assert (H2 : resolved_with
                   (socket_step d (socket_step d s (SocketData a)) (SocketData b)) = Some v)
      by (apply socket_step_resolved, socket_step_resolved, Hs).
    split; [| rewrite H2; discriminate].
    rewrite H2. symmetry. apply socket_step_resolved. symmetry. exact Hr.
  - destruct (Hb eq_refl) as [Hbuf Hl].
    destruct s as [r buf], s' as [r' buf']. cbn [resolved_with buffer] in *.
    subst r r' buf'. cbn [socket_step buffer resolved_with].
    rewrite <- string_app_assoc, (drain_lines_app d (buf +:+ a) b EmptyString).
    pose proof (drain_lines_rest d EmptyString (buf +:+ a) eq_refl) as Hrest.
    destruct (drain_lines d EmptyString (buf +:+ a)) as [[dd |] rest]; cbn [fst snd] in *.
    + unfold finish. cbn [resolved_with buffer].
      destruct (drain_lines d EmptyString (rest +:+ b)) as [[d2 |] r2];
        cbn [fst snd resolved_with buffer]; (split; [reflexivity | discriminate]).
    + specialize (Hrest eq_refl). cbn [buffer resolved_with].
      rewrite (drain_lines_app d rest b EmptyString),
        (drain_lines_no_newline d EmptyString rest Hrest).
      cbn [fst snd]. change (EmptyString +:+ rest) with rest.
      pose proof (drain_lines_rest d rest b Hrest) as Hrest2.
      destruct (drain_lines d rest b) as [[dd |] rest2]; cbn [fst snd] in *.
      * unfold finish. cbn [resolved_with buffer]. split; [reflexivity | discriminate].
      * split; [reflexivity |]. intros _. split; [reflexivity | apply Hrest2; reflexivity].
Qed.

(** X12: the promise of [requestExecApprovalViaSocket] settles once: after
    it has resolved with a value, no later error, timer or data changes
    that value.  A decision that arrives after the timeout is ignored, and
    a timeout or error after a decision does not undo it. *)
Theorem requestExecApprovalViaSocket_settles_once (decision_of : string -> option string)
    (socketPath_ token_ : string) (events later : list SocketEvent) (v : SocketDecision) :
  requestExecApprovalViaSocket decision_of socketPath_ token_ events = Some v ->
  requestExecApprovalViaSocket decision_of socketPath_ token_ (events ++ later) = Some v.
Proof.
  unfold requestExecApprovalViaSocket.
  destruct (negb (Js.truthy socketPath_) || negb (Js.truthy token_)); [auto |].
  intros H. rewrite fold_left_app. apply socket_fold_resolved, H.
Qed.

(** Text that arrives as two pieces gives the same result as the same text
    arriving as one piece. *)
Lemma socket_text_pieces (decision_of : string -> option string)
    (socketPath_ token_ : string) (before after : list SocketEvent) (a b : string) :
  requestExecApprovalViaSocket decision_of socketPath_ token_
    (before ++ SocketData a :: SocketData b :: after) =
  requestExecApprovalViaSocket decision_of socketPath_ token_
    (before ++ SocketData (a +:+ b) :: after).
Proof.
  unfold requestExecApprovalViaSocket.
  destruct (negb (Js.truthy socketPath_) || negb (Js.truthy token_)); [reflexivity |].
  rewrite !fold_left_app. cbn [fold_left].
  apply socket_fold_alike, socket_step_chunks.
  apply socket_fold_alike. split; [reflexivity |]. intros _. split; reflexivity.
Qed.

(** X13: where the cut between two chunks splits no character, the answer
    does not depend on the cut.  The data handler decodes every chunk on
    its own; when decoding the two chunks one after the other gives the
    text of decoding them joined (no multi-byte character lies across the
    cut), the two chunks give the same result as the one joined chunk,
    wherever in the sequence of events this happens. *)
Theorem requestExecApprovalViaSocket_chunking (toString : list Byte.byte -> string)
    (decision_of : string -> option string) (socketPath_ token_ : string)
    (before after : list SocketInput) (a b : list Byte.byte) :
  toString (a ++ b) = toString a +:+ toString b ->
  requestExecApprovalViaSocket_bytes toString decision_of socketPath_ token_
    (before ++ InputChunk a :: InputChunk b :: after) =
  requestExecApprovalViaSocket_bytes toString decision_of socketPath_ token_
    (before ++ InputChunk (a ++ b) :: after).
Proof.
  intros Hcut. unfold requestExecApprovalViaSocket_bytes.
  rewrite !map_app. cbn [map decoded]. rewrite Hcut. apply socket_text_pieces.
Qed.

Lemma requestExecApprovalViaSocket_chunking_witness :
  requestExecApprovalViaSocket_bytes string_of_list_byte line_decision
    "/run/approvals.sock" "dG9rZW4"
    ([InputChunk (list_byte_of_string "allow-")] ++
     InputChunk (list_byte_of_string "on") ::
     InputChunk (list_byte_of_string (line_of "ce")) :: [InputTimer]) =
  Some (Some "allow-once").
Proof.
  rewrite (requestExecApprovalViaSocket_chunking string_of_list_byte line_decision
             "/run/approvals.sock" "dG9rZW4"
             [InputChunk (list_byte_of_string "allow-")] [InputTimer]
             (list_byte_of_string "on") (list_byte_of_string (line_of "ce")) eq_refl).
  vm_compute. reflexivity.
Defined.

Lemma requestExecApprovalViaSocket_settles_once_witness :
  requestExecApprovalViaSocket line_decision "/run/approvals.sock" "dG9rZW4"
    ([SocketData (line_of "allow-once")] ++ [TimerFires; SocketData (line_of "deny")]) =
  Some (Some "allow-once").
Proof.
  apply (requestExecApprovalViaSocket_settles_once line_decision "/run/approvals.sock"
           "dG9rZW4" [SocketData (line_of "allow-once")]).
  vm_compute. reflexivity.
Defined.

(** ** A pattern added after allow-always *)

Lemma matchAllowlist_entries_prefix (rt : Runtime) (l l2 : list ExecAllowlistEntry)
    (res : CommandResolution) (e : ExecAllowlistEntry) :
  matchAllowlist_entries rt l res = Return (Some e) ->
  matchAllowlist_entries rt (l ++ l2) res = Return (Some e).
Proof.
  induction l as [| x l IH]; [discriminate |].
  cbn [app]. rewrite !matchAllowlist_entries_cons.
  destruct (entry_matches rt res x) as [[] | err]; cbn [mbind outcome_bind]; auto.
Qed.

Lemma addAllowlistEntry_cases (rt : Runtime) (f : ExecApprovalsFile)
    (agentId : option string) (p : string) (w : World) (f' : ExecApprovalsFile)
    (w' : World) :
  addAllowlistEntry rt f agentId p w = Return (f', w') ->
  (f' = f /\ (Js.truthy (Js.trim p) = false \/
              In (Js.trim p) (map pattern (stored_allowlist f (agent_key agentId))))) \/
  stored_allowlist f' (agent_key agentId) =
    stored_allowlist f (agent_key agentId) ++ [added_entry p w].
Proof.
  unfold addAllowlistEntry, agent_key.
  destruct (Js.truthy (Js.trim p)) eqn:Ht; cbn [negb]; [| intros [= <- <-]; auto].
  fold (stored_agent f (default "default" agentId)).
  fold (stored_allowlist f (default "default" agentId)).
  destruct (existsb _ (stored_allowlist f (default "default" agentId))) eqn:Hex.
  - intros [= <- <-]. left. split; [reflexivity |]. right.
    apply existsb_pattern_In, Hex.
  - destruct (saveExecApprovals rt _ w) as [w2 | e]; cbn [mbind outcome_bind];
      [| discriminate].
    intros [= <- <-]. right.
    rewrite stored_allowlist_with_allowlist, decide_True by reflexivity. reflexivity.
Qed.

Lemma entry_matches_own (rt : Runtime) (res : CommandResolution) (e : ExecAllowlistEntry) :
  Js.trim (pattern e) = pattern e ->
  Js.truthy (pattern e) = true ->
  Js.startsWith (pattern e) "~" = false ->
  exact_pattern (pattern e) = true ->
  match_target (pattern e) res = pattern e ->
  entry_matches rt res e = Return true.
Proof.
  intros Htrim Hne Htilde Hexact Htarget. unfold entry_matches.
  rewrite Htrim, Hne, Htarget, Hne. cbn [negb].
  rewrite matchesPattern_exact_all by (rewrite Htrim; assumption).
  rewrite Htrim, (replace_backslash_pairs_exact _ Hexact), letters_agree_refl.
  reflexivity.
Qed.

(** X14: the pattern that an allow-always decision adds makes the command
    pass the allowlist afterwards.  For a command whose pattern (the
    resolved path, or else the raw executable) has no surrounding white
    space, no glob character and no regular-expression syntax other than the
    dot, does not start with a tilde and is what the allowlist compares it
    with: once [addAllowlistEntry] has returned, matching the agent's
    allowlist finds an entry, provided matching the old list did not throw;
    after a miss it is the new entry, at the end of the list. *)
Theorem allow_always_then_matches (rt : Runtime) (f : ExecApprovalsFile)
    (agentId : option string) (command_ : string) (res : CommandResolution) (w : World)
    (f' : ExecApprovalsFile) (w' : World) (m : option ExecAllowlistEntry) :
  let p := allow_always_pattern (Some res) command_ in
  let key := agent_key agentId in
  Js.trim p = p ->
  Js.truthy p = true ->
  Js.startsWith p "~" = false ->
  exact_pattern p = true ->
  match_target p res = p ->
  matchAllowlist rt (stored_allowlist f key) (Some res) = Return m ->
  addAllowlistEntry rt f agentId p w = Return (f', w') ->
  exists e,
    matchAllowlist rt (stored_allowlist f' key) (Some res) = Return (Some e) /\
    (m = None ->
     e = added_entry p w /\ stored_allowlist f' key = stored_allowlist f key ++ [e]).
Proof.
  cbn zeta. set (p := allow_always_pattern (Some res) command_).
  intros Htrim Hne Htilde Hexact Htarget Hm Hadd.
  rewrite matchAllowlist_as_entries in Hm.
  assert (Hown : forall x, pattern x = p -> entry_matches rt res x = Return true).
  { intros x Hx. apply entry_matches_own; rewrite Hx; assumption. }
  destruct (addAllowlistEntry_cases rt f agentId p w f' w' Hadd) as [[-> Hsame] | Happ].
  - destruct m as [e |].
    + exists e. rewrite matchAllowlist_as_entries. split; [exact Hm | discriminate].
    + exfalso. destruct Hsame as [Hblank | Hin]; [rewrite Htrim in Hblank; congruence |].
      rewrite Htrim in Hin. apply in_map_iff in Hin as (x & Hx & Hin).
      apply matchAllowlist_entries_none in Hm.
      rewrite List.Forall_forall in Hm. specialize (Hm x Hin).
      rewrite (Hown x Hx) in Hm. discriminate.
  - rewrite matchAllowlist_as_entries, Happ. destruct m as [e |].
    + exists e. split; [apply matchAllowlist_entries_prefix, Hm | discriminate].
    + exists (added_entry p w). split; [| auto].
      apply matchAllowlist_entries_none in Hm.
      rewrite (matchAllowlist_entries_app rt _ _ res Hm), matchAllowlist_entries_cons.
      rewrite Hown by (cbn [added_entry pattern]; exact Htrim). reflexivity.
Qed.

Lemma allow_always_then_matches_witness :
  exists f' w' e,
    addAllowlistEntry (plain_runtime (Throw "SyntaxError")) empty_normalized (Some "main")
      (allow_always_pattern (Some rg_resolution) "rg --version")
      (world_with FileMissing) = Return (f', w') /\
    matchAllowlist (plain_runtime (Throw "SyntaxError")) (stored_allowlist f' "main")
      (Some rg_resolution) = Return (Some e) /\
    e = added_entry "/opt/homebrew/bin/rg" (world_with FileMissing).
Proof.
  destruct (addAllowlistEntry (plain_runtime (Throw "SyntaxError")) empty_normalized
              (Some "main") (allow_always_pattern (Some rg_resolution) "rg --version")
              (world_with FileMissing)) as [[f' w'] | err] eqn:Hadd;
    [| vm_compute in Hadd; discriminate].
  destruct (allow_always_then_matches (plain_runtime (Throw "SyntaxError")) empty_normalized
              (Some "main") "rg --version" rg_resolution (world_with FileMissing) f' w' None
              eq_refl eq_refl eq_refl eq_refl eq_refl eq_refl Hadd) as (e & He & Hlast).
  exists f', w', e. split; [reflexivity |]. split; [exact He |].
  exact (proj1 (Hlast eq_refl)).
Defined.

(** ** What the gateway gate lets through *)

Lemma decision_is_eq (decision : option string) (value : string) :
  decision_is decision value = true <-> decision = Some value.
Proof.
  destruct decision as [d |]; cbn [decision_is].
  - rewrite String.eqb_eq. split; congruence.
  - split; discriminate.
Qed.

Lemma gatewayAsk_approved (rt : Runtime) (defaults : ExecToolDefaults) (command_ : string)
    (hostSecurity askFallback_ : ExecSecurity) (m : option ExecAllowlistEntry)
    (resolution : option CommandResolution) (f : ExecApprovalsFile)
    (decision : option string) (w : World) (approved : bool) (f' : ExecApprovalsFile)
    (w' : World) :
  gatewayAsk rt defaults command_ hostSecurity askFallback_ m resolution f decision w =
    Return (approved, f', w') ->
  decision <> Some "deny" /\
  (approved = true <->
   decision = Some "allow-once" \/ decision = Some "allow-always" \/
   (decision_truthy decision = false /\
    (askFallback_ = SecFull \/ (askFallback_ = SecAllowlist /\ is_Some m)))).
Proof.
  unfold gatewayAsk.
  destruct (decision_is decision "deny") eqn:Hdeny; [discriminate |].
  assert (Hnd : decision <> Some "deny").
  { intros H. apply decision_is_eq in H. congruence. }
  destruct (decision_truthy decision) eqn:Htruthy; cbn [negb mbind outcome_bind orb].
  - destruct (decision_is decision "allow-always") eqn:Halways.
    + intros H. assert (approved = true) as ->.
      { destruct (_ && _) in H; [| congruence].
        destruct (addAllowlistEntry _ _ _ _ _) in H; cbn [mbind outcome_bind] in H;
          congruence. }
      apply decision_is_eq in Halways. split; [exact Hnd |]. split; auto.
    + intros [= <- _ _]. split; [exact Hnd |].
      rewrite decision_is_eq. split; [auto |].
      intros [H | [H | [H _]]]; [exact H | | discriminate].
      apply decision_is_eq in H. congruence.
  - assert (Hno : forall v, Js.truthy v = true -> decision_is decision v = false).
    { intros v Hv. destruct decision as [d |]; [| reflexivity]. cbn in *.
      destruct (String.eqb_spec d v) as [-> |]; congruence. }
    rewrite (Hno "allow-always" eq_refl).
    assert (Hnot : forall v, Js.truthy v = true -> decision <> Some v).
    { intros v Hv H. apply decision_is_eq in H. rewrite (Hno v Hv) in H. discriminate. }
    destruct askFallback_; [| destruct m as [entry |] |]; cbn [mbind outcome_bind orb];
      try discriminate.
    + intros [= <- _ _]. split; [exact Hnd |]. split; [| reflexivity]. intros _.
      right. right. split; [reflexivity |]. right. split; [reflexivity | eauto].
    + intros [= <- _ _]. split; [exact Hnd |]. split; [| reflexivity]. intros _.
      right. right. split; [reflexivity |]. left. reflexivity.
Qed.

Lemma gateway_allowlistMatch_some (rt : Runtime) (hostSecurity : ExecSecurity)
    (r : ExecApprovalsResolved) (resolution : option CommandResolution)
    (entry : ExecAllowlistEntry) :
  gateway_allowlistMatch rt hostSecurity r resolution = Return (Some entry) ->
  hostSecurity = SecAllowlist /\
  matchAllowlist rt (resolved_allowlist r) resolution = Return (Some entry).
Proof.
  unfold gateway_allowlistMatch.
  destruct (bool_decide (hostSecurity = SecAllowlist)) eqn:Hs; [| discriminate].
  apply bool_decide_eq_true in Hs. auto.
Qed.

(** X15: what the gateway gate lets through.  When [gatewayGate] returns,
    the host security (the stricter of the tool's and the agent's) is not
    [deny]; under [allowlist] the command matched the allowlist or was
    approved; a reported match is a match of the resolved allowlist under
    host security [allowlist]; and the command counts as approved only when
    an approval was required and the decision was allow-once or
    allow-always, or there was no decision and the fallback is [full], or
    [allowlist] with a match.  A [deny] decision and any other
    unrecognised decision never approve. *)
Theorem gatewayGate_sound (rt : Runtime) (defaults : ExecToolDefaults) (command_ : string)
    (security_ : ExecSecurity) (ask_ : ExecAsk) (resolution : option CommandResolution)
    (decision : option string) (w : World) (pass : GatewayPass) (w' : World) :
  gatewayGate rt defaults command_ security_ ask_ resolution decision w =
    Return (pass, w') ->
  exists r w1,
    resolveExecApprovals rt (d_agentId defaults) host_overrides w = Return (r, w1) /\
    let hostSecurity := minSecurity security_ (r_security (agent r)) in
    let hostAsk := maxAsk ask_ (r_ask (agent r)) in
    hostSecurity <> SecDeny /\
    (hostSecurity = SecAllowlist ->
     is_Some (allowlistMatched pass) \/ approvedByAsk pass = true) /\
    (forall entry,
       allowlistMatched pass = Some entry ->
       hostSecurity = SecAllowlist /\
       matchAllowlist rt (resolved_allowlist r) resolution = Return (Some entry)) /\
    (approvedByAsk pass = true ->
     gateway_requiresAsk hostAsk hostSecurity (allowlistMatched pass) = true /\
     (decision = Some "allow-once" \/ decision = Some "allow-always" \/
      (decision_truthy decision = false /\
       (r_askFallback (agent r) = SecFull \/
        (r_askFallback (agent r) = SecAllowlist /\ is_Some (allowlistMatched pass)))))).
Proof.
  intros H. unfold gatewayGate in H.
  destruct (resolveExecApprovals rt (d_agentId defaults) host_overrides w)
    as [[r w1] | e] eqn:Hr; cbn [mbind outcome_bind fst snd] in H; [| discriminate].
  exists r, w1. split; [reflexivity |]. cbn zeta.
  set (hs := minSecurity security_ (r_security (agent r))) in *.
  set (ha := maxAsk ask_ (r_ask (agent r))) in *.
  destruct (bool_decide (hs = SecDeny)) eqn:Hd; [discriminate |].
  apply bool_decide_eq_false in Hd. split; [exact Hd |].
  destruct (gateway_allowlistMatch rt hs r resolution) as [m | e] eqn:Hm;
    cbn [mbind outcome_bind] in H; [| discriminate].
  assert (Hmatch : forall entry, m = Some entry ->
                     hs = SecAllowlist /\
                     matchAllowlist rt (resolved_allowlist r) resolution =
                       Return (Some entry)).
  { intros entry ->. apply gateway_allowlistMatch_some, Hm. }
  assert (Hgate : exists approved f2 w2,
             (if gateway_requiresAsk ha hs m
              then gatewayAsk rt defaults command_ hs (r_askFallback (agent r)) m
                     resolution (file r) decision w1
              else Return (false, file r, w1)) = Return (approved, f2, w2) /\
             approvedByAsk pass = approved /\ allowlistMatched pass = m /\
             (bool_decide (hs = SecAllowlist) && negb (bool_decide (is_Some m)) &&
              negb approved = false)).
  { destruct (if gateway_requiresAsk ha hs m then _ else _) as [[[approved f2] w2] | e];
      cbn [mbind outcome_bind fst snd] in H; [| discriminate].
    exists approved, f2, w2. split; [reflexivity |].
    destruct (_ && _ && negb approved) eqn:Hmiss; [discriminate |].
    destruct m as [entry |].
    - destruct (recordAllowlistUse _ _ _ _ _ _ _) as [rec | e];
        cbn [mbind outcome_bind] in H; [| discriminate].
      injection H as <- _. auto.
    - injection H as <- _. auto. }
  destruct Hgate as (approved & f2 & w2 & Hask & -> & -> & Hmiss).
  split; [| split; [exact Hmatch |]].
  - intros Hs. rewrite (bool_decide_eq_true_2 _ Hs) in Hmiss. cbn [andb] in Hmiss.
    destruct (bool_decide (is_Some m)) eqn:Hsome.
    + left. apply bool_decide_eq_true in Hsome. exact Hsome.
    + right. destruct approved; [reflexivity | discriminate].
  - intros Happroved.
    destruct (gateway_requiresAsk ha hs m) eqn:Hq; [| congruence].
    split; [reflexivity |].
    apply (gatewayAsk_approved _ _ _ _ _ _ _ _ _ _ _ _ _ Hask), Happroved.
Qed.

Lemma gatewayGate_sound_witness :
  exists pass w' r w1,
    gatewayGate (fallback_runtime SecAllowlist) main_defaults "rg --version" SecFull AskOff
      (Some rg_resolution) (Some "allow-once") fallback_world = Return (pass, w') /\
    resolveExecApprovals (fallback_runtime SecAllowlist) (Some "main") host_overrides
      fallback_world = Return (r, w1) /\
    minSecurity SecFull (r_security (agent r)) <> SecDeny /\
    approvedByAsk pass = true.
Proof.
  destruct (gatewayGate (fallback_runtime SecAllowlist) main_defaults "rg --version" SecFull
              AskOff (Some rg_resolution) (Some "allow-once") fallback_world)
    as [[pass w'] | err] eqn:Hg; [| vm_compute in Hg; discriminate].
  destruct (gatewayGate_sound _ _ _ _ _ _ _ _ _ _ Hg) as (r & w1 & Hr & Hd & _).
  exists pass, w', r, w1. split; [reflexivity |]. split; [exact Hr |].
  split; [exact Hd |]. vm_compute in Hg. injection Hg as <- _. reflexivity.
Defined.

(** ** Which requests the exec tool accepts *)

(** X16: the exec tool accepts a request exactly when the command is not
    empty, an elevated request passes the elevated gates, and a request that
    is not elevated names no host or the configured one (sandbox when none
    is configured).  An accepted request that is not elevated runs on the
    configured host, so a request can only leave that host by elevation, and
    its security is never above the configured one nor its ask below it. *)
Theorem resolveExecPolicy_accepts (defaults : ExecToolDefaults) (params : ExecParams) :
  ((exists pol, resolveExecPolicy defaults params = Return pol) <->
   Js.truthy (command params) = true /\
   (elevatedRequested defaults params = true -> elevated_gates_fail defaults = false) /\
   (elevatedRequested defaults params = false ->
    forall rh, normalizeExecHost (p_host params) = Some rh ->
               rh = default HostSandbox (d_host defaults))) /\
  (forall pol,
     resolveExecPolicy defaults params = Return pol ->
     elevatedRequested defaults params = false ->
     host pol = default HostSandbox (d_host defaults) /\
     (security_order (policy_security pol) <=
      security_order (configuredSecurity defaults (host pol)))%Z /\
     (ask_order (configuredAsk defaults) <= ask_order (policy_ask pol))%Z).
Proof.
  split.
  - unfold resolveExecPolicy.
    destruct (Js.truthy (command params)); cbn [negb];
      [| split; [intros [? [=]] | intros [[=] _]]].
    destruct (elevatedRequested defaults params); cbn [negb andb].
    + destruct (elevated_gates_fail defaults).
      * split; [intros [? [=]] | intros (_ & H & _); discriminate (H eq_refl)].
      * split; [intros _; repeat split; discriminate | eauto].
    + destruct (normalizeExecHost (p_host params)) as [rh |].
      * destruct (bool_decide (rh = default HostSandbox (d_host defaults))) eqn:Hrh;
          cbn [negb].
        -- apply bool_decide_eq_true in Hrh. split; [| eauto].
           intros _. split; [reflexivity |]. split; [discriminate |].
           intros _ rh' [= <-]. exact Hrh.
        -- apply bool_decide_eq_false in Hrh. split; [intros [? [=]] |].
           intros (_ & _ & H). exfalso. apply Hrh, H; reflexivity.
      * split; [| eauto]. intros _. split; [reflexivity |]. split; discriminate.
  - intros pol Hpol He.
    destruct (resolveExecPolicy_inv _ _ _ Hpol) as (Hh & Hs & Ha).
    rewrite He in Hh, Hs.
    assert (Hhost : host pol = default HostSandbox (d_host defaults)).
    { rewrite Hh. unfold resolveExecPolicy in Hpol. rewrite He in Hpol.
      destruct (negb (Js.truthy (command params))); [discriminate |].
      cbn [andb negb] in Hpol.
      destruct (normalizeExecHost (p_host params)) as [rh |]; [| reflexivity].
      destruct (bool_decide (rh = default HostSandbox (d_host defaults))) eqn:Hrh;
        [| discriminate].
      apply bool_decide_eq_true in Hrh. exact Hrh. }
    split; [exact Hhost |]. split.
    + rewrite Hs, minSecurity_order. lia.
    + rewrite Ha, maxAsk_order. lia.
Qed.

Lemma resolveExecPolicy_accepts_witness :
  (exists pol, resolveExecPolicy witness_defaults (witness_params false) = Return pol) /\
  (forall pol,
     resolveExecPolicy witness_defaults (witness_params false) = Return pol ->
     host pol = HostSandbox).
Proof.
  split.
  - apply (proj1 (resolveExecPolicy_accepts witness_defaults (witness_params false))).
    split; [reflexivity |]. split; [discriminate |]. intros _ rh [=].
  - intros pol Hpol.
    exact (proj1 (proj2 (resolveExecPolicy_accepts witness_defaults (witness_params false))
                          pol Hpol eq_refl)).
Defined.

(** ** Path lists of the child environment *)

Lemma filter_and {A : Type} (f g : A -> bool) (l : list A) :
  List.filter f (List.filter g l) = List.filter (fun x => f x && g x) l.
Proof.
  induction l as [| x l IH]; [reflexivity |].
  cbn [List.filter]. destruct (g x); cbn [List.filter].
  - rewrite andb_true_r. destruct (f x); [f_equal |]; exact IH.
  - rewrite andb_false_r. exact IH.
Qed.

Lemma filter_all {A : Type} (f : A -> bool) (l : list A) :
  (forall x, In x l -> f x = true) -> List.filter f l = l.
Proof.
  induction l as [| x l IH]; intros H; [reflexivity |].
  cbn [List.filter]. rewrite (H x) by (left; reflexivity).
  f_equal. apply IH. intros y Hy. apply H. right. exact Hy.
Qed.

Lemma filter_none {A : Type} (f : A -> bool) (l : list A) :
  (forall x, In x l -> f x = false) -> List.filter f l = [].
Proof.
  induction l as [| x l IH]; intros H; [reflexivity |].
  cbn [List.filter]. rewrite (H x) by (left; reflexivity).
  apply IH. intros y Hy. apply H. right. exact Hy.
Qed.

Lemma In_nub (x : string) (l : list string) : In x (nub l) <-> In x l.
Proof.
  induction l as [| y l IH]; [reflexivity |].
  cbn [nub In]. rewrite filter_In, IH.
  destruct (String.eqb_spec x y) as [-> | Hne]; cbn [negb].
  - split; auto.
  - split; [intros [H | [H _]]; auto | intros [H | H]; auto].
Qed.

Lemma NoDup_nub (l : list string) : List.NoDup (nub l).
Proof.
  induction l as [| y l IH]; [constructor |].
  cbn [nub]. constructor.
  - rewrite filter_In, String.eqb_refl. intros [_ [=]].
  - apply List.NoDup_filter, IH.
Qed.

Lemma nub_NoDup (l : list string) : List.NoDup l -> nub l = l.
Proof.
  induction 1 as [| x l Hx _ IH]; [reflexivity |].
  cbn [nub]. rewrite IH. f_equal. apply filter_all.
  intros y Hy. destruct (String.eqb_spec y x) as [-> | _]; [contradiction | reflexivity].
Qed.

Lemma outside_spec (a : list string) (y : string) : outside a y = true <-> ~ In y a.
Proof.
  unfold outside. rewrite negb_true_iff, <- not_true_iff_false, existsb_exists.
  split.
  - intros H Hy. apply H. exists y. split; [exact Hy | apply String.eqb_refl].
  - intros H (x & Hx & He). apply String.eqb_eq in He. subst x. contradiction.
Qed.

Lemma nub_app (a b : list string) :
  nub (a ++ b) = nub a ++ List.filter (outside a) (nub b).
Proof.
  induction a as [| x a IH].
  - cbn [app nub]. symmetry. apply filter_all. reflexivity.
  - cbn [app nub]. rewrite IH, List.filter_app, filter_and. f_equal. f_equal.
    apply List.filter_ext. intros y. unfold outside. cbn [existsb].
    destruct (String.eqb y x), (existsb (String.eqb y) a); reflexivity.
Qed.

Lemma mergePathPrepend_loop_nub (l : list string) (seen : gset string)
    (merged : list string) :
  mergePathPrepend_loop l seen merged =
  merged ++ List.filter (fun y => negb (bool_decide (y ∈ seen))) (nub l).
Proof.
  revert seen merged. induction l as [| x l IH]; intros seen merged.
  - cbn. rewrite app_nil_r. reflexivity.
  - cbn [mergePathPrepend_loop nub List.filter].
    destruct (bool_decide (x ∈ seen)) eqn:Hx; cbn [negb].
    + rewrite IH, filter_and. f_equal. apply List.filter_ext. intros y.
      destruct (String.eqb_spec y x) as [-> | _]; cbn [negb];
        [rewrite Hx; reflexivity | symmetry; apply andb_true_r].
    + rewrite IH, <- app_assoc, filter_and. cbn [app]. f_equal. f_equal.
      apply List.filter_ext. intros y.
      destruct (String.eqb_spec y x) as [-> | Hne]; cbn [negb].
      * rewrite bool_decide_eq_true_2
          by (apply elem_of_union_l, elem_of_singleton_2; reflexivity).
        rewrite andb_false_r. reflexivity.
      * rewrite andb_true_r. f_equal. apply bool_decide_ext.
        rewrite elem_of_union, elem_of_singleton. tauto.
Qed.

Lemma normalizePathPrepend_loop_merge (l : list string) (seen : gset string)
    (normalized : list string) :
  normalizePathPrepend_loop l seen normalized =
  mergePathPrepend_loop (List.filter Js.truthy (map Js.trim l)) seen normalized.
Proof.
  revert seen normalized. induction l as [| x l IH]; intros seen normalized;
    [reflexivity |].
  cbn [normalizePathPrepend_loop map List.filter].
  destruct (Js.truthy (Js.trim x)); cbn [negb orb mergePathPrepend_loop].
  - destruct (bool_decide (Js.trim x ∈ seen)); apply IH.
  - apply IH.
Qed.

Lemma loop_from_empty (l : list string) : mergePathPrepend_loop l ∅ [] = nub l.
Proof.
  rewrite mergePathPrepend_loop_nub. cbn [app]. apply filter_all.
  intros y _. rewrite bool_decide_eq_false_2 by apply not_elem_of_empty. reflexivity.
Qed.

(** X17: [normalizePathPrepend] returns the trimmed entries that are not
    empty, each once, in the order of their first occurrence; the result
    has no repetition, and normalizing it again changes nothing. *)
Theorem normalizePathPrepend_spec (entries : option (list string)) :
  normalizePathPrepend entries =
    nub (List.filter Js.truthy (map Js.trim (default [] entries))) /\
  List.NoDup (normalizePathPrepend entries) /\
  (forall x, In x (normalizePathPrepend entries) <->
             Js.truthy x = true /\ exists e, In e (default [] entries) /\ Js.trim e = x) /\
  normalizePathPrepend (Some (normalizePathPrepend entries)) = normalizePathPrepend entries.
Proof.
  assert (Heq : forall es, normalizePathPrepend es =
                           nub (List.filter Js.truthy (map Js.trim (default [] es)))).
  { intros [l |]; [| reflexivity].
    unfold normalizePathPrepend. rewrite normalizePathPrepend_loop_merge.
    apply loop_from_empty. }
  assert (Hin : forall x, In x (normalizePathPrepend entries) <->
                  Js.truthy x = true /\
                  exists e, In e (default [] entries) /\ Js.trim e = x).
  { intros x. rewrite Heq, In_nub, filter_In, in_map_iff. split.
    - intros [(e & He & Hi) Ht]. eauto.
    - intros [Ht (e & Hi & He)]. eauto. }
  split; [apply Heq |]. split; [rewrite Heq; apply NoDup_nub |]. split; [exact Hin |].
  rewrite (Heq (Some _)). cbn [from_option id].
  assert (Hfix : List.filter Js.truthy (map Js.trim (normalizePathPrepend entries)) =
                 normalizePathPrepend entries).
  { assert (Hmap : map Js.trim (normalizePathPrepend entries) =
                   normalizePathPrepend entries).
    { rewrite <- (map_id (normalizePathPrepend entries)) at 2.
      apply map_ext_in. intros x Hx. apply Hin in Hx as (_ & e & _ & <-).
      apply trim_idempotent. }
    rewrite Hmap. apply filter_all. intros x Hx. apply Hin in Hx. tauto. }
  rewrite Hfix. apply nub_NoDup. rewrite Heq. apply NoDup_nub.
Qed.

Lemma split_lacks (d : ascii) (p : string) :
  lacks d p = true -> Js.split d p = [p].
Proof.
  induction p as [| c p IH]; [reflexivity |].
  cbn [lacks Js.split]. intros H. apply andb_true_iff in H as [Hc Hp].
  apply negb_true_iff in Hc. rewrite Hc, (IH Hp). reflexivity.
Qed.

Lemma split_app_sep (d : ascii) (p s : string) :
  lacks d p = true -> Js.split d (p +:+ String d s) = p :: Js.split d s.
Proof.
  induction p as [| c p IH].
  - intros _. change (EmptyString +:+ String d s) with (String d s).
    cbn [Js.split]. rewrite Ascii.eqb_refl. reflexivity.
  - cbn [lacks]. intros H. apply andb_true_iff in H as [Hc Hp].
    apply negb_true_iff in Hc.
    change (String c p +:+ String d s) with (String c (p +:+ String d s)).
    cbn [Js.split]. rewrite Hc, (IH Hp). reflexivity.
Qed.

Lemma join_cons (d : ascii) (p q : string) (rest : list string) :
  join d (p :: q :: rest) = p +:+ String d (join d (q :: rest)).
Proof. reflexivity. Qed.

Lemma split_join (d : ascii) (l : list string) :
  l <> [] ->
  List.Forall (fun p => lacks d p = true) l ->
  Js.split d (join d l) = l.
Proof.
  induction l as [| p l IH]; [congruence |].
  intros _ H. inversion H as [| ? ? Hp Hl]; subst.
  destruct l as [| q rest]; [apply split_lacks, Hp |].
  rewrite join_cons, (split_app_sep d p _ Hp), IH by (congruence || exact Hl).
  reflexivity.
Qed.

Lemma split_parts_lack (d : ascii) (s : string) :
  List.Forall (fun p => lacks d p = true) (Js.split d s).
Proof.
  induction s as [| c s IH]; [repeat constructor |].
  cbn [Js.split]. destruct (Ascii.eqb c d) eqn:Hc.
  - constructor; [reflexivity | exact IH].
  - destruct (Js.split d s) as [| h t]; [repeat constructor; cbn; rewrite Hc; reflexivity |].
    inversion IH as [| ? ? Hh Ht]; subst. constructor; [| exact Ht].
    cbn [lacks]. rewrite Hc, Hh. reflexivity.
Qed.

Lemma lacks_trimStart (d : ascii) (s : string) :
  lacks d s = true -> lacks d (Js.trimStart s) = true.
Proof.
  induction s as [| c s IH]; [reflexivity |].
  intros H. cbn [Js.trimStart]. destruct (Js.is_space c); [| exact H].
  cbn [lacks] in H. apply andb_true_iff in H as [_ Hs]. apply IH, Hs.
Qed.

Lemma lacks_trimEnd (d : ascii) (s : string) :
  lacks d s = true -> lacks d (Js.trimEnd s) = true.
Proof.
  induction s as [| c s IH]; [reflexivity |].
  cbn [lacks]. intros H. apply andb_true_iff in H as [Hc Hs].
  rewrite trimEnd_cons. specialize (IH Hs).
  destruct (Js.trimEnd s) as [| e u].
  - destruct (Js.is_space c); [reflexivity |]. cbn [lacks]. rewrite Hc. reflexivity.
  - change (lacks d (String c (String e u))) with
      (negb (Ascii.eqb c d) && lacks d (String e u)).
    rewrite Hc, IH. reflexivity.
Qed.

Lemma path_parts_entries (d : ascii) (s : string) :
  List.Forall (fun p => path_entry d p = true) (path_parts d s).
Proof.
  unfold path_parts. apply List.Forall_forall. intros p Hp.
  apply filter_In in Hp as [Hp Ht]. apply in_map_iff in Hp as (e & <- & He).
  unfold path_entry. rewrite Ht, trim_idempotent, String.eqb_refl. cbn [andb].
  pose proof (split_parts_lack d s) as Hall. rewrite List.Forall_forall in Hall.
  apply lacks_trimEnd, lacks_trimStart, Hall, He.
Qed.

Lemma path_parts_join (d : ascii) (l : list string) :
  l <> [] ->
  List.Forall (fun p => path_entry d p = true) l ->
  path_parts d (join d l) = l.
Proof.
  intros Hne Hall. unfold path_parts.
  rewrite List.Forall_forall in Hall.
  assert (Hparts : forall p, In p l ->
            Js.truthy p = true /\ Js.trim p = p /\ lacks d p = true).
  { intros p Hp. specialize (Hall p Hp). unfold path_entry in Hall.
    apply andb_true_iff in Hall as [Hall Hl]. apply andb_true_iff in Hall as [Ht He].
    apply String.eqb_eq in He. auto. }
  rewrite split_join;
    [| exact Hne | apply List.Forall_forall; intros p Hp; apply (Hparts p Hp)].
  assert (Hmap : map Js.trim l = l).
  { rewrite <- (map_id l) at 2. apply map_ext_in. intros p Hp. apply (Hparts p Hp). }
  rewrite Hmap. apply filter_all. intros p Hp. apply (Hparts p Hp).
Qed.

(** X18: [mergePathPrepend] puts the prepended entries first and the
    entries of the existing value behind them, each entry once.  For a
    non-empty list of prepended entries that are not empty and hold neither
    surrounding white space nor the delimiter, splitting the merged value
    gives the prepended entries in their order followed by the existing
    entries that are not among them, without repetition, and merging the
    same entries into the merged value gives the merged value again. *)
Theorem mergePathPrepend_spec (delimiter : ascii) (existing : option string)
    (prepend : list string) :
  prepend <> [] ->
  List.Forall (fun p => path_entry delimiter p = true) prepend ->
  exists merged,
    mergePathPrepend delimiter existing prepend = Some merged /\
    path_parts delimiter merged =
      nub prepend ++
      List.filter (outside prepend)
        (nub (path_parts delimiter (default EmptyString existing))) /\
    List.NoDup (path_parts delimiter merged) /\
    mergePathPrepend delimiter (Some merged) prepend = Some merged.
Proof.
  intros Hne Hall.
  set (parts := path_parts delimiter (default EmptyString existing)).
  set (L := nub prepend ++ List.filter (outside prepend) (nub parts)).
  assert (HL : nub (prepend ++ parts) = L) by apply nub_app.
  assert (Hmerge : forall ex, mergePathPrepend delimiter ex prepend =
                     Some (join delimiter
                             (nub (prepend ++
                                   path_parts delimiter (default EmptyString ex))))).
  { intros ex. unfold mergePathPrepend. destruct prepend; [congruence |].
    rewrite loop_from_empty. reflexivity. }
  assert (HLne : L <> []).
  { unfold L. destruct prepend as [| x xs]; [congruence |]. discriminate. }
  assert (HLall : List.Forall (fun p => path_entry delimiter p = true) L).
  { apply List.Forall_forall. intros p Hp. rewrite <- HL in Hp.
    apply In_nub, in_app_iff in Hp as [Hp | Hp].
    - rewrite List.Forall_forall in Hall. apply Hall, Hp.
    - pose proof (path_parts_entries delimiter (default EmptyString existing)) as H.
      rewrite List.Forall_forall in H. apply H, Hp. }
  assert (Hparts : path_parts delimiter (join delimiter L) = L)
    by (apply path_parts_join; assumption).
  assert (HLdup : List.NoDup L) by (rewrite <- HL; apply NoDup_nub).
  exists (join delimiter L).
  split; [rewrite Hmerge; fold parts; rewrite HL; reflexivity |].
  split; [exact Hparts |]. split; [rewrite Hparts; exact HLdup |].
  rewrite Hmerge. cbn [from_option id]. rewrite Hparts. f_equal. f_equal.
  rewrite nub_app, (nub_NoDup L HLdup).
  assert (Hf : List.filter (outside prepend) L =
               List.filter (outside prepend) (nub parts)).
  { unfold L. rewrite List.filter_app, filter_and.
    rewrite (filter_none (outside prepend) (nub prepend)).
    - cbn [app]. apply List.filter_ext. intros y. apply andb_diag.
    - intros y Hy. apply (proj1 (In_nub y prepend)) in Hy.
      apply not_true_is_false. intros Ho.
      exact (proj1 (outside_spec prepend y) Ho Hy). }
  rewrite Hf. reflexivity.
Qed.

Lemma mergePathPrepend_spec_witness :
  exists merged,
    mergePathPrepend ":" (Some "/usr/bin: /opt/tools/bin ::/bin")
      ["/opt/tools/bin"; "/home/clawd/bin"] = Some merged /\
    path_parts ":" merged = ["/opt/tools/bin"; "/home/clawd/bin"; "/usr/bin"; "/bin"].
Proof.
  destruct (mergePathPrepend_spec ":" (Some "/usr/bin: /opt/tools/bin ::/bin")
              ["/opt/tools/bin"; "/home/clawd/bin"])
    as (merged & Hm & Hp & _).
  - discriminate.
  - repeat constructor.
  - exists merged. split; [exact Hm |]. rewrite Hp. reflexivity.
Defined.

Lemma set_PATH_frame (merged : option string) (env : gmap string string) (k : string) :
  k <> "PATH" -> set_PATH merged env !! k = env !! k.
Proof.
  intros Hk. unfold set_PATH. destruct merged as [m |]; [| reflexivity].
  destruct (Js.truthy m); [| reflexivity].
  apply lookup_insert_ne. congruence.
Qed.

Lemma set_PATH_keeps (merged : option string) (env : gmap string string) :
  has_PATH env = true -> has_PATH (set_PATH merged env) = true.
Proof.
  intros H. unfold set_PATH. destruct merged as [m |]; [| exact H].
  destruct (Js.truthy m) eqn:Hm; [| exact H].
  unfold has_PATH. rewrite lookup_insert_eq. exact Hm.
Qed.

(** X19: [applyPathPrepend] and [applyShellPath] touch no variable of the
    environment other than [PATH], and a [PATH] that is set and not empty
    stays so.  With [requireExisting], an environment without a usable
    [PATH] is left as it is, and so is every environment when the shell
    path holds no entry. *)
Theorem apply_path_frame (delimiter : ascii) (env : gmap string string) (prepend : list string)
    (requireExisting : bool) (shellPath : option string) :
  (forall k, k <> "PATH" ->
     applyPathPrepend delimiter env prepend requireExisting !! k = env !! k /\
     applyShellPath delimiter env shellPath !! k = env !! k) /\
  (has_PATH env = true ->
   has_PATH (applyPathPrepend delimiter env prepend requireExisting) = true /\
   has_PATH (applyShellPath delimiter env shellPath) = true) /\
  (has_PATH env = false -> applyPathPrepend delimiter env prepend true = env) /\
  (path_parts delimiter (default EmptyString shellPath) = [] ->
   applyShellPath delimiter env shellPath = env).
Proof.
  split; [| split; [| split]].
  - intros k Hk. split.
    + unfold applyPathPrepend. destruct prepend; [reflexivity |].
      destruct (requireExisting && negb (has_PATH env)); [reflexivity |].
      apply set_PATH_frame, Hk.
    + unfold applyShellPath. destruct shellPath as [sp |]; [| reflexivity].
      destruct (negb (Js.truthy sp)); [reflexivity |].
      destruct (path_parts delimiter sp); [reflexivity |].
      apply set_PATH_frame, Hk.
  - intros H. split.
    + unfold applyPathPrepend. destruct prepend; [exact H |].
      destruct (requireExisting && negb (has_PATH env)); [exact H |].
      apply set_PATH_keeps, H.
    + unfold applyShellPath. destruct shellPath as [sp |]; [| exact H].
      destruct (negb (Js.truthy sp)); [exact H |].
      destruct (path_parts delimiter sp); [exact H |].
      apply set_PATH_keeps, H.
  - intros H. unfold applyPathPrepend. destruct prepend; [reflexivity |].
    rewrite H. reflexivity.
  - intros H. unfold applyShellPath. destruct shellPath as [sp |]; [| reflexivity].
    cbn [from_option id] in H. rewrite H. destruct (negb (Js.truthy sp)); reflexivity.
Qed.

Lemma apply_path_frame_witness :
  applyPathPrepend ":" home_env ["/opt/tools/bin"] true = home_env /\
  applyPathPrepend ":" home_env ["/opt/tools/bin"] false !! "HOME" = Some "/home/clawd".
Proof.
  split.
  - apply (proj1 (proj2 (proj2 (apply_path_frame ":" home_env ["/opt/tools/bin"] true
                                  None)))).
    reflexivity.
  - destruct (proj1 (apply_path_frame ":" home_env ["/opt/tools/bin"] false None) "HOME")
      as [H _]; [discriminate |].
    rewrite H. reflexivity.
Defined.

(** ** The exit notification *)

Lemma single_spaces_replace (b : bool) (s : string) :
  single_spaces b (replace_space_runs b s) = true.
Proof.
  revert b. induction s as [| c r IH]; intros b; [reflexivity |].
  cbn [replace_space_runs]. destruct (Js.is_space c) eqn:Hc.
  - destruct b; [apply IH |]. cbn [single_spaces]. rewrite IH. reflexivity.
  - cbn [single_spaces]. rewrite Hc. apply IH.
Qed.

Lemma single_spaces_trimStart (b : bool) (s : string) :
  single_spaces b s = true -> single_spaces true (Js.trimStart s) = true.
Proof.
  revert b. induction s as [| c r IH]; intros b H; [reflexivity |].
  cbn [Js.trimStart]. cbn [single_spaces] in H. destruct (Js.is_space c) eqn:Hc.
  - apply andb_true_iff in H as [_ H]. apply (IH true H).
  - cbn [single_spaces]. rewrite Hc. exact H.
Qed.

Lemma single_spaces_trimEnd (b : bool) (s : string) :
  single_spaces b s = true -> single_spaces b (Js.trimEnd s) = true.
Proof.
  revert b. induction s as [| c r IH]; intros b H; [reflexivity |].
  rewrite trimEnd_cons. cbn [single_spaces] in H.
  destruct (Js.trimEnd r) as [| d u] eqn:Hr.
  - destruct (Js.is_space c) eqn:Hc; [reflexivity |].
    cbn [single_spaces]. rewrite Hc. reflexivity.
  - cbn [single_spaces]. fold (single_spaces true (String d u)).
    fold (single_spaces false (String d u)).
    destruct (Js.is_space c).
    + apply andb_true_iff in H as [H1 H2]. rewrite H1. apply (IH true H2).
    + apply (IH false H).
Qed.

Lemma ends_clean_trimEnd (s : string) : ends_clean (Js.trimEnd s) = true.
Proof.
  induction s as [| c r IH]; [reflexivity |].
  rewrite trimEnd_cons. destruct (Js.trimEnd r) as [| d u].
  - destruct (Js.is_space c) eqn:Hc; [reflexivity |]. cbn. rewrite Hc. reflexivity.
  - exact IH.
Qed.

Lemma letters_replace (b : bool) (s : string) : letters (replace_space_runs b s) = letters s.
Proof.
  revert b. induction s as [| c r IH]; intros b; [reflexivity |].
  cbn [replace_space_runs letters]. destruct (Js.is_space c) eqn:Hc.
  - destruct b; [apply IH |]. cbn [letters]. apply IH.
  - cbn [letters]. rewrite Hc, IH. reflexivity.
Qed.

Lemma letters_trimStart (s : string) : letters (Js.trimStart s) = letters s.
Proof.
  induction s as [| c r IH]; [reflexivity |].
  cbn [Js.trimStart letters]. destruct (Js.is_space c) eqn:Hc; [exact IH |].
  cbn [letters]. rewrite Hc. reflexivity.
Qed.

Lemma letters_trimEnd (s : string) : letters (Js.trimEnd s) = letters s.
Proof.
  induction s as [| c r IH]; [reflexivity |].
  rewrite trimEnd_cons. cbn [letters]. rewrite <- IH.
  destruct (Js.trimEnd r) as [| d u].
  - destruct (Js.is_space c) eqn:Hc; cbn [letters]; rewrite ?Hc; reflexivity.
  - change (letters (String c (String d u))) with
      (if Js.is_space c then letters (String d u) else String c (letters (String d u))).
    reflexivity.
Qed.

Lemma replace_single_spaces (b : bool) (s : string) :
  single_spaces b s = true -> replace_space_runs b s = s.
Proof.
  revert b. induction s as [| c r IH]; intros b H; [reflexivity |].
  cbn [single_spaces] in H. cbn [replace_space_runs].
  destruct (Js.is_space c).
  - apply andb_true_iff in H as [H Hr]. apply andb_true_iff in H as [Hc Hb].
    apply Ascii.eqb_eq in Hc. apply negb_true_iff in Hb. subst c b.
    rewrite (IH true Hr). reflexivity.
  - rewrite (IH false H). reflexivity.
Qed.

Lemma trimEnd_ends_clean (s : string) : ends_clean s = true -> Js.trimEnd s = s.
Proof.
  induction s as [| c r IH]; [reflexivity |].
  intros H. rewrite trimEnd_cons. destruct r as [| d u].
  - cbn in *. apply negb_true_iff in H. rewrite H. reflexivity.
  - rewrite (IH H). reflexivity.
Qed.

Lemma trim_tidy (s : string) : tidy s = true -> Js.trim s = s.
Proof.
  unfold tidy, Js.trim. intros H. apply andb_true_iff in H as [Hs He].
  assert (Hstart : Js.trimStart s = s).
  { destruct s as [| c r]; [reflexivity |]. cbn [single_spaces] in Hs.
    cbn [Js.trimStart]. destruct (Js.is_space c); [| reflexivity].
    rewrite andb_false_r in Hs. discriminate. }
  rewrite Hstart. apply trimEnd_ends_clean, He.
Qed.

(** X20: [normalizeNotifyOutput] gives one line of words separated by
    single spaces: the result has no white space at either end, no
    white-space character other than the space and no two spaces in a row,
    and its other characters are those of the input in the same order.
    Text that already has this form is returned as it is, so normalizing
    twice equals normalizing once. *)
Theorem normalizeNotifyOutput_tidy (value : string) :
  tidy (normalizeNotifyOutput value) = true /\
  letters (normalizeNotifyOutput value) = letters value /\
  (tidy value = true -> normalizeNotifyOutput value = value) /\
  normalizeNotifyOutput (normalizeNotifyOutput value) = normalizeNotifyOutput value.
Proof.
  assert (Htidy : forall v, tidy (normalizeNotifyOutput v) = true).
  { intros v. unfold tidy, normalizeNotifyOutput, Js.trim.
    rewrite ends_clean_trimEnd, andb_true_r.
    apply single_spaces_trimEnd, (single_spaces_trimStart false), single_spaces_replace. }
  assert (Hfix : forall v, tidy v = true -> normalizeNotifyOutput v = v).
  { intros v H. unfold normalizeNotifyOutput.
    rewrite (replace_single_spaces false v); [apply trim_tidy, H |].
    unfold tidy in H. apply andb_true_iff in H as [H _].
    destruct v as [| c r]; [reflexivity |]. cbn [single_spaces] in *.
    destruct (Js.is_space c); [| exact H].
    rewrite andb_false_r in H. discriminate. }
  split; [apply Htidy |]. split; [| split; [apply Hfix | apply Hfix, Htidy]].
  unfold normalizeNotifyOutput, Js.trim.
  rewrite letters_trimEnd, letters_trimStart. apply letters_replace.
Qed.

Lemma normalizeNotifyOutput_tidy_witness :
  normalizeNotifyOutput "exit code 0" = "exit code 0" /\
  tidy (normalizeNotifyOutput (String "009" " exit  code" +:+ String "010" " 0 ")) = true.
Proof.
  split.
  - apply (proj1 (proj2 (proj2 (normalizeNotifyOutput_tidy "exit code 0")))). reflexivity.
  - apply (proj1 (normalizeNotifyOutput_tidy _)).
Defined.

Lemma maybeNotifyOnExit_skip (tail : string -> nat -> string) (show : Z -> string)
    (session : ProcessSession) (status : ExitStatus) (out : Outbox) :
  announces session = false ->
  maybeNotifyOnExit tail show session status out = (session, out).
Proof.
  unfold announces, maybeNotifyOnExit.
  destruct (ps_backgrounded session); [| reflexivity].
  destruct (ps_notifyOnExit session); [| reflexivity].
  destruct (ps_exitNotified session); [reflexivity |].
  destruct (ps_sessionKey session) as [key |]; [| reflexivity].
  cbn [negb orb andb fmap option_fmap option_map]. intros ->. reflexivity.
Qed.

(** X21: an exit is announced at most once.  [maybeNotifyOnExit] announces
    exactly when the session is backgrounded, asks for the notification,
    has not been announced and has a session key that is not blank: it then
    queues one system event for the trimmed session key and one heartbeat
    request and marks the session as announced, and otherwise changes
    nothing.  A further call, with whatever status, changes nothing. *)
Theorem maybeNotifyOnExit_once (tail : string -> nat -> string) (show : Z -> string)
    (session : ProcessSession) (status status' : ExitStatus) (out : Outbox) :
  let after := maybeNotifyOnExit tail show session status out in
  (announces session = false -> after = (session, out)) /\
  (announces session = true ->
   exists key summary,
     ps_sessionKey session = Some key /\
     system_events after.2 = system_events out ++ [(summary, Js.trim key)] /\
     heartbeats after.2 = heartbeats out ++ ["exec:" +:+ ps_id session +:+ ":exit"] /\
     ps_exitNotified after.1 = true /\
     ps_id after.1 = ps_id session /\ ps_backgrounded after.1 = ps_backgrounded session) /\
  maybeNotifyOnExit tail show after.1 status' after.2 = after.
Proof.
  cbn zeta. destruct (announces session) eqn:Ha.
  - split; [discriminate |].
    assert (Hform : exists key summary,
              ps_sessionKey session = Some key /\
              maybeNotifyOnExit tail show session status out =
              ({| ps_id := ps_id session; ps_backgrounded := ps_backgrounded session;
                  ps_notifyOnExit := ps_notifyOnExit session; ps_exitNotified := true;
                  ps_sessionKey := ps_sessionKey session;
                  ps_exitSignal := ps_exitSignal session;
                  ps_exitCode := ps_exitCode session; ps_tail := ps_tail session;
                  ps_aggregated := ps_aggregated session |},
               {| system_events := system_events out ++ [(summary, Js.trim key)];
                  heartbeats :=
                    heartbeats out ++ ["exec:" +:+ ps_id session +:+ ":exit"] |})).
    { unfold announces in Ha. unfold maybeNotifyOnExit.
      destruct (ps_backgrounded session); [| discriminate].
      destruct (ps_notifyOnExit session); [| discriminate].
      destruct (ps_exitNotified session); [discriminate |].
      destruct (ps_sessionKey session) as [key |]; [| discriminate].
      cbn [negb orb andb fmap option_fmap option_map] in *. rewrite Ha. cbn [negb].
      eexists key, _. split; reflexivity. }
    destruct Hform as (key & summary & Hk & ->). cbn [fst snd]. split.
    + intros _. exists key, summary. repeat split; [exact Hk].
    + apply maybeNotifyOnExit_skip. unfold announces. cbn [ps_exitNotified negb].
      rewrite andb_false_r. reflexivity.
  - rewrite (maybeNotifyOnExit_skip _ _ _ _ _ Ha). cbn [fst snd].
    split; [reflexivity |]. split; [discriminate |].
    apply maybeNotifyOnExit_skip, Ha.
Qed.

Lemma maybeNotifyOnExit_once_witness :
  exists after,
    maybeNotifyOnExit (fun text _ => text) (fun _ => "0") finished_session Completed
      {| system_events := []; heartbeats := [] |} = after /\
    system_events after.2 = [("Exec completed (a1b2c3d4, code 0)", "agent:main")] /\
    maybeNotifyOnExit (fun text _ => text) (fun _ => "0") after.1 Failed after.2 = after.
Proof.
  eexists. split; [reflexivity |].
  pose proof (maybeNotifyOnExit_once (fun text _ => text) (fun _ => "0") finished_session
                Completed Failed {| system_events := []; heartbeats := [] |}) as H.
  cbn zeta in H. destruct H as (_ & Hsome & Hagain).
  destruct (Hsome eq_refl) as (key & summary & Hk & Hev & _).
  split; [| exact Hagain].
  vm_compute. reflexivity.
Defined.

(** ** Looking up an executable *)

Lemma first_existing_spec (rt : Runtime) (prt : PathRuntime) (entries : list string)
    (expanded : string) :
  (forall c,
     first_existing rt prt entries expanded = Some c <->
     exists before entry after,
       entries = before ++ entry :: after /\
       c = path_join rt entry expanded /\
       fs_existsSync prt c = true /\
       List.Forall (fun e => fs_existsSync prt (path_join rt e expanded) = false) before) /\
  (first_existing rt prt entries expanded = None <->
   List.Forall (fun e => fs_existsSync prt (path_join rt e expanded) = false) entries).
Proof.
  induction entries as [| e l [IHsome IHnone]].
  - split.
    + intros c. split; [discriminate |].
      intros (before & entry & after & H & _). destruct before; discriminate.
    + split; [constructor | reflexivity].
  - cbn [first_existing].
    destruct (fs_existsSync prt (path_join rt e expanded)) eqn:He.
    + split.
      * intros c. split.
        -- intros [= <-]. exists [], e, l. repeat split; [exact He | constructor].
        -- intros (before & entry & after & Hl & -> & Hc & Hb).
           destruct before as [| b before]; cbn [app] in Hl.
           ++ injection Hl as <- _. reflexivity.
           ++ injection Hl as <- _. inversion Hb; congruence.
      * split; [discriminate |]. intros H. inversion H; congruence.
    + split.
      * intros c. rewrite IHsome. split.
        -- intros (before & entry & after & -> & -> & Hc & Hb).
           exists (e :: before), entry, after. repeat split; [exact Hc |].
           constructor; assumption.
        -- intros (before & entry & after & Hl & -> & Hc & Hb).
           destruct before as [| b before]; cbn [app] in Hl.
           ++ injection Hl as <- _. congruence.
           ++ injection Hl as <- ->. inversion Hb; subst. eauto 8.
      * rewrite IHnone. split.
        -- intros H. constructor; assumption.
        -- intros H. inversion H; assumption.
Qed.

(** X22: [resolveExecutablePath] resolves an executable that names a path
    (it holds a slash or a backslash after [~] expansion) without looking
    at the file system, so it always returns a path for it.  Any other
    executable resolves to the first directory of the search path, in
    order, in which the file exists, and to nothing when there is none; the
    search path is the [PATH] of the given environment, or else that of the
    process, without its empty entries, so an empty [PATH] in the given
    environment hides the [PATH] of the process. *)
Theorem resolveExecutablePath_lookup (rt : Runtime) (prt : PathRuntime)
    (rawExecutable_ : string) (cwd : option string) (env : option (gmap string string)) :
  let expanded := expanded_executable rt rawExecutable_ in
  let found := resolveExecutablePath rt prt rawExecutable_ cwd env in
  (names_path expanded = true ->
   found = Some expanded \/
   (path_isAbsolute prt expanded = false /\
    exists base, found = Some (path_resolve prt base expanded))) /\
  (names_path expanded = false ->
   (forall c,
      found = Some c <->
      exists before entry after,
        search_path prt env = before ++ entry :: after /\
        c = path_join rt entry expanded /\
        fs_existsSync prt c = true /\
        List.Forall (fun e => fs_existsSync prt (path_join rt e expanded) = false) before) /\
   (found = None <->
    List.Forall (fun e => fs_existsSync prt (path_join rt e expanded) = false)
      (search_path prt env)) /\
   (env ≫= (.!! "PATH") = Some EmptyString -> found = None)).
Proof.
  cbn zeta. unfold resolveExecutablePath, expanded_executable, names_path.
  set (expanded := if Js.startsWith rawExecutable_ "~" then expandHome rt rawExecutable_
                   else rawExecutable_).
  destruct (Js.includes expanded "/" || Js.includes expanded "\") eqn:Hp.
  - split; [| discriminate]. intros _.
    destruct (path_isAbsolute prt expanded); [left; reflexivity |].
    right. split; [reflexivity |]. eauto.
  - split; [discriminate |]. intros _.
    fold (search_path prt env).
    destruct (first_existing_spec rt prt (search_path prt env) expanded) as [Hsome Hnone].
    split; [exact Hsome |]. split; [exact Hnone |].
    intros Henv. apply Hnone. unfold search_path. rewrite Henv. constructor.
Qed.

Lemma resolveExecutablePath_lookup_witness :
  resolveExecutablePath (plain_runtime (Throw "unused")) rg_files "rg" None None =
    Some "/usr/bin/rg" /\
  resolveExecutablePath (plain_runtime (Throw "unused")) rg_files "rg" None
    (Some (<["PATH" := EmptyString]> ∅)) = None.
Proof.
  split.
  - apply (proj1 (proj2 (resolveExecutablePath_lookup (plain_runtime (Throw "unused"))
                           rg_files "rg" None None) eq_refl)).
    exists ["/opt/bin"], "/usr/bin", ["/bin"].
    repeat split; repeat constructor.
  - apply (proj2 (proj2 (proj2 (resolveExecutablePath_lookup
                                  (plain_runtime (Throw "unused")) rg_files "rg" None
                                  (Some (<["PATH" := EmptyString]> ∅))) eq_refl))).
    reflexivity.
Defined.

(** ** Dotted-quad literals before the SSRF guard *)

Lemma octet_texts : forallb (fun k => octet_text (Z.of_nat k)) (List.seq 0 256) = true.
Proof. vm_compute. reflexivity. Qed.

Lemma octet_text_ok (n : Z) : is_octet n -> octet_text n = true.
Proof.
  intros [Hlo Hhi]. pose proof octet_texts as H. rewrite forallb_forall in H.
  specialize (H (Z.to_nat n)). rewrite Z2Nat.id in H by exact Hlo.
  apply H, List.in_seq. lia.
Qed.

Lemma octet_facts (n : Z) :
  is_octet n ->
  Js.parseInt (decimal n) 10 = Some n /\ digits_dots (decimal n) = true /\
  lacks "." (decimal n) = true /\ Js.truthy (decimal n) = true /\
  strip_trailing_dot (decimal n) = decimal n.
Proof.
  intros H. apply octet_text_ok in H. unfold octet_text in H.
  repeat (apply andb_true_iff in H as [H ?]).
  apply bool_decide_eq_true in H. repeat split; try assumption.
  apply String.eqb_eq. assumption.
Qed.

Lemma digit_dot_char (c : ascii) :
  is_digit c || Ascii.eqb c "." = true ->
  Js.is_space c = false /\ Js.lower_char c = c /\ Ascii.eqb c ":" = false /\
  Ascii.eqb c "[" = false.
Proof. ascii_cases c; intros _; repeat split. Qed.

Lemma digits_dots_app (a b : string) :
  digits_dots (a +:+ b) = digits_dots a && digits_dots b.
Proof.
  induction a as [| c a IH]; [reflexivity |].
  change ((is_digit c || Ascii.eqb c ".") && digits_dots (a +:+ b) =
          (is_digit c || Ascii.eqb c ".") && digits_dots a && digits_dots b).
  rewrite IH. apply andb_assoc.
Qed.

Lemma digits_dots_no_space (s : string) : digits_dots s = true -> no_space s = true.
Proof.
  induction s as [| c r IH]; [reflexivity |].
  cbn [digits_dots no_space]. intros H. apply andb_true_iff in H as [Hc Hr].
  destruct (digit_dot_char c Hc) as (-> & _). rewrite (IH Hr). reflexivity.
Qed.

Lemma trimEnd_no_space (s : string) : no_space s = true -> Js.trimEnd s = s.
Proof.
  induction s as [| c r IH]; [reflexivity |].
  cbn [no_space]. intros H. apply andb_true_iff in H as [Hc Hr].
  apply negb_true_iff in Hc. rewrite trimEnd_cons, (IH Hr).
  destruct r; [rewrite Hc |]; reflexivity.
Qed.

Lemma trim_no_space (s : string) : no_space s = true -> Js.trim s = s.
Proof.
  intros H. unfold Js.trim.
  assert (Hs : Js.trimStart s = s).
  { destruct s as [| c r]; [reflexivity |]. cbn [no_space] in H.
    apply andb_true_iff in H as [Hc _]. apply negb_true_iff in Hc.
    cbn [Js.trimStart]. rewrite Hc. reflexivity. }
  rewrite Hs. apply trimEnd_no_space, H.
Qed.

Lemma toLowerCase_digits_dots (s : string) :
  digits_dots s = true -> Js.toLowerCase s = s.
Proof.
  induction s as [| c r IH]; [reflexivity |].
  cbn [digits_dots Js.toLowerCase]. intros H. apply andb_true_iff in H as [Hc Hr].
  destruct (digit_dot_char c Hc) as (_ & -> & _). rewrite (IH Hr). reflexivity.
Qed.

Lemma includes_colon_digits_dots (s : string) :
  digits_dots s = true -> Js.includes s ":" = false.
Proof.
  induction s as [| c r IH]; [reflexivity |].
  cbn [digits_dots]. intros H. apply andb_true_iff in H as [Hc Hr].
  destruct (digit_dot_char c Hc) as (_ & _ & Hcolon & _).
  cbn [Js.includes Js.startsWith]. rewrite Ascii.eqb_sym, Hcolon, (IH Hr). reflexivity.
Qed.

Lemma endsWith_digits_dots (s suffix : string) :
  Js.endsWith s suffix = true -> digits_dots s = true -> digits_dots suffix = true.
Proof.
  induction s as [| c r IH]; cbn [Js.endsWith].
  - rewrite orb_false_r. intros H _. apply String.eqb_eq in H. subst. reflexivity.
  - intros H Hs. apply orb_true_iff in H as [H | H].
    + apply String.eqb_eq in H. subst. exact Hs.
    + cbn [digits_dots] in Hs. apply andb_true_iff in Hs as [_ Hr]. apply IH; assumption.
Qed.

Lemma strip_trailing_dot_app (x y : string) :
  y <> EmptyString -> strip_trailing_dot y = y -> strip_trailing_dot (x +:+ y) = x +:+ y.
Proof.
  intros Hy Hfix. induction x as [| c x IH]; [exact Hfix |].
  change (String c x +:+ y) with (String c (x +:+ y)).
  cbn [strip_trailing_dot]. destruct (x +:+ y) eqn:Hxy.
  - destruct x as [| e x]; [change (y = EmptyString) in Hxy; congruence |].
    change (String e (x +:+ y) = EmptyString) in Hxy. discriminate.
  - rewrite IH. reflexivity.
Qed.

Lemma dotted_split (a b c d : Z) :
  is_octet a -> is_octet b -> is_octet c -> is_octet d ->
  Js.split "." (dotted a b c d) = [decimal a; decimal b; decimal c; decimal d].
Proof.
  intros Ha Hb Hc Hd. unfold dotted.
  destruct (octet_facts a Ha) as (_ & _ & Hla & _).
  destruct (octet_facts b Hb) as (_ & _ & Hlb & _).
  destruct (octet_facts c Hc) as (_ & _ & Hlc & _).
  destruct (octet_facts d Hd) as (_ & _ & Hld & _).
  change (decimal a +:+ "." +:+ decimal b +:+ "." +:+ decimal c +:+ "." +:+ decimal d)
    with (decimal a +:+
          String "." (decimal b +:+ String "." (decimal c +:+ String "." (decimal d)))).
  rewrite !split_app_sep by assumption. rewrite (split_lacks "." _ Hld). reflexivity.
Qed.

Lemma dotted_chars (a b c d : Z) :
  is_octet a -> is_octet b -> is_octet c -> is_octet d ->
  digits_dots (dotted a b c d) = true /\ Js.truthy (dotted a b c d) = true /\
  strip_trailing_dot (dotted a b c d) = dotted a b c d.
Proof.
  intros Ha Hb Hc Hd. unfold dotted.
  destruct (octet_facts a Ha) as (_ & Hda & _ & Hta & _).
  destruct (octet_facts b Hb) as (_ & Hdb & _ & Htb & _).
  destruct (octet_facts c Hc) as (_ & Hdc & _ & Htc & _).
  destruct (octet_facts d Hd) as (_ & Hdd & _ & Htd & Hsd).
  split; [| split].
  - rewrite !digits_dots_app, Hda, Hdb, Hdc, Hdd. reflexivity.
  - destruct (decimal a); [discriminate | reflexivity].
  - assert (Hne : forall x y, Js.truthy x = true -> x +:+ y <> EmptyString).
    { intros x y Hx. destruct x; discriminate. }
    assert (Hlast : decimal d <> EmptyString)
      by (destruct (decimal d); [discriminate | congruence]).
    repeat (apply strip_trailing_dot_app;
            [first [exact Hlast | apply Hne; first [assumption | reflexivity]] |]).
    exact Hsd.
Qed.

Lemma parseIpv4_dotted (a b c d : Z) :
  is_octet a -> is_octet b -> is_octet c -> is_octet d ->
  parseIpv4 (dotted a b c d) = Some [a; b; c; d].
Proof.
  intros Ha Hb Hc Hd. unfold parseIpv4. rewrite dotted_split by assumption.
  cbn [length Nat.eqb negb map].
  destruct (octet_facts a Ha) as (-> & _), (octet_facts b Hb) as (-> & _),
    (octet_facts c Hc) as (-> & _), (octet_facts d Hd) as (-> & _).
  cbn [existsb out_of_range].
  unfold is_octet in *.
  repeat match goal with
         | |- context [(?x <? ?y)%Z] => destruct (Z.ltb_spec x y); [lia |]
         end.
  reflexivity.
Qed.

Lemma normalized_dotted (a b c d : Z) :
  is_octet a -> is_octet b -> is_octet c -> is_octet d ->
  strip_brackets (Js.toLowerCase (Js.trim (dotted a b c d))) = dotted a b c d /\
  normalizeHostname (dotted a b c d) = dotted a b c d.
Proof.
  intros Ha Hb Hc Hd.
  destruct (dotted_chars a b c d Ha Hb Hc Hd) as (Hdd & Ht & Hs).
  unfold normalizeHostname.
  rewrite (trim_no_space _ (digits_dots_no_space _ Hdd)), (toLowerCase_digits_dots _ Hdd), Hs.
  assert (Hb' : strip_brackets (dotted a b c d) = dotted a b c d).
  { unfold strip_brackets. destruct (dotted a b c d) as [| ch r]; [reflexivity |].
    cbn [digits_dots] in Hdd. apply andb_true_iff in Hdd as [Hch _].
    destruct (digit_dot_char ch Hch) as (_ & _ & _ & Hbr).
    cbn [Js.startsWith]. rewrite Ascii.eqb_sym, Hbr. reflexivity. }
  rewrite Hb'. split; reflexivity.
Qed.

Lemma isPrivateIpAddress_dotted (a b c d : Z) :
  is_octet a -> is_octet b -> is_octet c -> is_octet d ->
  isPrivateIpAddress (dotted a b c d) = isPrivateIpv4 [a; b; c; d].
Proof.
  intros Ha Hb Hc Hd.
  destruct (dotted_chars a b c d Ha Hb Hc Hd) as (Hdd & Ht & _).
  unfold isPrivateIpAddress.
  rewrite (proj1 (normalized_dotted a b c d Ha Hb Hc Hd)), Ht. cbn [negb].
  assert (Hstart : Js.startsWith (dotted a b c d) "::ffff:" = false).
  { destruct (dotted a b c d) as [| ch r]; [reflexivity |].
    cbn [digits_dots] in Hdd. apply andb_true_iff in Hdd as [Hch _].
    destruct (digit_dot_char ch Hch) as (_ & _ & Hcolon & _).
    cbn [Js.startsWith]. rewrite Ascii.eqb_sym, Hcolon. reflexivity. }
  rewrite Hstart, (includes_colon_digits_dots _ Hdd), parseIpv4_dotted by assumption.
  reflexivity.
Qed.

Lemma isBlockedHostname_dotted (a b c d : Z) :
  is_octet a -> is_octet b -> is_octet c -> is_octet d ->
  isBlockedHostname (dotted a b c d) = false.
Proof.
  intros Ha Hb Hc Hd.
  destruct (dotted_chars a b c d Ha Hb Hc Hd) as (Hdd & Ht & _).
  unfold isBlockedHostname.
  rewrite (proj2 (normalized_dotted a b c d Ha Hb Hc Hd)), Ht. cbn [negb].
  assert (Hnot : forall name, digits_dots name = false ->
                   String.eqb (dotted a b c d) name = false /\
                   Js.endsWith (dotted a b c d) name = false).
  { intros name Hname. split; apply not_true_is_false; intros H.
    - apply String.eqb_eq in H. congruence.
    - apply endsWith_digits_dots in H; congruence. }
  unfold BLOCKED_HOSTNAMES. cbn [existsb].
  rewrite (proj1 (Hnot "localhost" eq_refl)),
    (proj1 (Hnot "metadata.google.internal" eq_refl)),
    (proj2 (Hnot ".localhost" eq_refl)), (proj2 (Hnot ".local" eq_refl)),
    (proj2 (Hnot ".internal" eq_refl)).
  reflexivity.
Qed.

(** X23: every dotted-quad literal is classified by its first two octets.
    For octets between 0 and 255, [isPrivateIpAddress] holds of the literal
    exactly when it lies in 0/8, 10/8, 127/8, 169.254/16, 172.16/12,
    192.168/16 or 100.64/10; the guard rejects such a literal as a private
    address whatever the resolver would answer, and hands every other
    literal to the resolver. *)
Theorem ipv4_literal_guard (a b c d : Z) :
  is_octet a -> is_octet b -> is_octet c -> is_octet d ->
  (isPrivateIpAddress (dotted a b c d) = true <-> private_range a b) /\
  (private_range a b ->
   forall lookupFn, assertPublicHostname (dotted a b c d) lookupFn = blocked_address) /\
  (~ private_range a b ->
   forall lookupFn,
     assertPublicHostname (dotted a b c d) lookupFn = Passed <->
     exists results,
       lookupFn (dotted a b c d) = Return results /\ results <> [] /\
       existsb isPrivateIpAddress results = false).
Proof.
  intros Ha Hb Hc Hd.
  pose proof (isPrivateIpAddress_dotted a b c d Ha Hb Hc Hd) as Hp.
  pose proof (isPrivateIpv4_ranges a b c d) as Hr. fold (private_range a b) in Hr.
  destruct (dotted_chars a b c d Ha Hb Hc Hd) as (_ & Ht & _).
  assert (Hguard : forall lookupFn,
            assertPublicHostname (dotted a b c d) lookupFn =
            if isPrivateIpv4 [a; b; c; d] then blocked_address
            else match lookupFn (dotted a b c d) with
                 | Throw e => Raised (Error e)
                 | Return results =>
                     if (length results =? 0)%nat
                     then Raised (Error ("Unable to resolve hostname: " +:+
                                         dotted a b c d))
                     else if existsb isPrivateIpAddress results
                     then Raised (SsrFBlockedError
                                    "Blocked: resolves to private/internal IP address")
                     else Passed
                 end).
  { intros lookupFn. unfold assertPublicHostname.
    rewrite (proj2 (normalized_dotted a b c d Ha Hb Hc Hd)), Ht. cbn [negb].
    rewrite isBlockedHostname_dotted, Hp by assumption. reflexivity. }
  split; [rewrite Hp; exact Hr |]. split.
  - intros Hin lookupFn. rewrite Hguard, (proj2 Hr Hin). reflexivity.
  - intros Hout lookupFn. rewrite Hguard.
    destruct (isPrivateIpv4 [a; b; c; d]) eqn:Hv; [exfalso; apply Hout, Hr; reflexivity |].
    destruct (lookupFn (dotted a b c d)) as [results | e].
    + destruct results as [| r rs]; cbn [length Nat.eqb].
      * split; [discriminate | intros (x & [= <-] & Hne & _); congruence].
      * destruct (existsb isPrivateIpAddress (r :: rs)) eqn:He.
        -- split; [discriminate | intros (x & [= <-] & _ & H); congruence].
        -- split; [intros _; exists (r :: rs); repeat split; [discriminate | exact He] |
                   reflexivity].
    + split; [discriminate | intros (x & [=] & _)].
Qed.

Lemma ipv4_literal_guard_witness :
  isPrivateIpAddress (dotted 172 20 0 9) = true /\
  assertPublicHostname (dotted 172 20 0 9) (fun _ => Return ["93.184.216.34"]) =
    blocked_address.
Proof.
  destruct (ipv4_literal_guard 172 20 0 9) as (Hiff & Hblock & _);
    try (unfold is_octet; lia).
  assert (Hin : private_range 172 20).
  { unfold private_range. right. right. right. right. left. lia. }
  split; [apply Hiff, Hin | apply Hblock, Hin].
Defined.

Lemma includes_char_app (x y : string) (c : ascii) :
  Js.includes (x +:+ String c y) (String c EmptyString) = true.
Proof.
  induction x as [| e x IH].
  - change (EmptyString +:+ String c y) with (String c y).
    cbn [Js.includes Js.startsWith]. rewrite Ascii.eqb_refl. destruct y; reflexivity.
  - change (String e x +:+ String c y) with (String e (x +:+ String c y)).
    cbn [Js.includes]. rewrite IH. apply orb_true_r.
Qed.

Lemma isPrivateIpAddress_mapped (a b c d : Z) :
  is_octet a -> is_octet b -> is_octet c -> is_octet d ->
  isPrivateIpAddress (mapped a b c d) = isPrivateIpv4 [a; b; c; d].
Proof.
  intros Ha Hb Hc Hd.
  destruct (dotted_chars a b c d Ha Hb Hc Hd) as (Hdd & Ht & _).
  assert (Hnorm : strip_brackets (Js.toLowerCase (Js.trim (mapped a b c d))) =
                  mapped a b c d).
  { assert (Hns : no_space (mapped a b c d) = true)
      by exact (digits_dots_no_space _ Hdd).
    rewrite (trim_no_space _ Hns).
    change (Js.toLowerCase (mapped a b c d)) with
      ("::ffff:" +:+ Js.toLowerCase (dotted a b c d)).
    rewrite (toLowerCase_digits_dots _ Hdd). reflexivity. }
  unfold isPrivateIpAddress. rewrite Hnorm.
  change (Js.truthy (mapped a b c d)) with true.
  change (Js.startsWith (mapped a b c d) "::ffff:") with
    (Js.startsWith (dotted a b c d) EmptyString).
  assert (Hstart : Js.startsWith (dotted a b c d) EmptyString = true)
    by (destruct (dotted a b c d); reflexivity).
  rewrite Hstart.
  change (Js.drop 7 (mapped a b c d)) with (dotted a b c d).
  cbn [negb]. unfold parseIpv4FromMappedIpv6.
  assert (Hdot : Js.includes (dotted a b c d) "." = true) by apply includes_char_app.
  rewrite Hdot, parseIpv4_dotted by assumption. reflexivity.
Qed.

(** X24: what a pass of the guard tells about the resolved addresses.
    When [assertPublicHostname] passes, the normalized host is not empty,
    the resolver returned at least one address for it, and the guard's own
    test [isPrivateIpAddress] is false of every returned address; hence no
    returned dotted-quad literal, and no [::ffff:] IPv4-mapped literal of
    one, lies in a private IPv4 range.  A resolver that fails or returns
    nothing never lets a host pass.  The pass does not make every returned
    address public: an address that [isPrivateIpAddress] does not know,
    such as [fe90::1] or [::127.0.0.1], passes. *)
Theorem assertPublicHostname_passed (hostname : string) (lookupFn : LookupFn) :
  assertPublicHostname hostname lookupFn = Passed ->
  Js.truthy (normalizeHostname hostname) = true /\
  exists results,
    lookupFn (normalizeHostname hostname) = Return results /\
    results <> [] /\
    (forall address, In address results -> isPrivateIpAddress address = false) /\
    (forall a b c d,
       is_octet a -> is_octet b -> is_octet c -> is_octet d ->
       In (dotted a b c d) results \/ In (mapped a b c d) results ->
       ~ private_range a b).
Proof.
  unfold assertPublicHostname.
  destruct (Js.truthy (normalizeHostname hostname)); cbn [negb]; [| discriminate].
  destruct (isBlockedHostname (normalizeHostname hostname)); [discriminate |].
  destruct (isPrivateIpAddress (normalizeHostname hostname)); [discriminate |].
  destruct (lookupFn (normalizeHostname hostname)) as [results | e]; [| discriminate].
  destruct results as [| r rs]; [discriminate |]. cbn [length Nat.eqb].
  destruct (existsb isPrivateIpAddress (r :: rs)) eqn:He; [discriminate |].
  intros _. split; [reflexivity |]. exists (r :: rs).
  assert (Hall : forall address, In address (r :: rs) ->
                   isPrivateIpAddress address = false).
  { intros address Hin. apply not_true_is_false. intros Hp.
    assert (existsb isPrivateIpAddress (r :: rs) = true)
      by (apply existsb_exists; eauto).
    congruence. }
  split; [reflexivity |]. split; [discriminate |]. split; [exact Hall |].
  intros a b c d Ha Hb Hc Hd Hin Hrange.
  apply (isPrivateIpv4_ranges a b c d) in Hrange.
  destruct Hin as [Hin | Hin]; apply Hall in Hin.
  - rewrite isPrivateIpAddress_dotted in Hin by assumption. congruence.
  - rewrite isPrivateIpAddress_mapped in Hin by assumption. congruence.
Qed.

(** The limits of the pass: a host that resolves to a link-local IPv6
    address outside the listed prefixes, or to the IPv4-compatible form of
    the loopback address, passes the guard. *)
Remark pass_is_not_public :
  assertPublicHostname "example.com" (answers ["fe90::1"]) = Passed /\
  assertPublicHostname "example.com" (answers ["::127.0.0.1"]) = Passed.
Proof. split; vm_compute; reflexivity. Qed.

Lemma assertPublicHostname_passed_witness :
  assertPublicHostname "Example.COM." (answers ["93.184.216.34"]) = Passed /\
  exists results,
    answers ["93.184.216.34"] (normalizeHostname "Example.COM.") = Return results /\
    results <> [].
Proof.
  assert (Hp : assertPublicHostname "Example.COM." (answers ["93.184.216.34"]) = Passed)
    by (vm_compute; reflexivity).
  split; [exact Hp |].
  destruct (assertPublicHostname_passed _ _ Hp) as (_ & results & Hr & Hne & _).
  exists results. split; assumption.
Defined.

(** ** IPv4-mapped addresses written in hexadecimal *)

Lemma land_255 (x : Z) : Z.land x 255 = (x mod 256)%Z.
Proof. change 255%Z with (Z.ones 8). rewrite Z.land_ones by lia. reflexivity. Qed.

Lemma octets_of_wraps (w : Z) : octets_of w = octets (w mod 2 ^ 32).
Proof.
  unfold octets_of, octets, byte_at, to_uint32, to_int32.
  rewrite !land_255, !Z.shiftr_div_pow2 by lia.
  change (2 ^ 32)%Z with 4294967296%Z. change (2 ^ 31)%Z with 2147483648%Z.
  change (2 ^ 24)%Z with 16777216%Z. change (2 ^ 16)%Z with 65536%Z.
  change (2 ^ 8)%Z with 256%Z.
  repeat (apply (f_equal2 cons); [Z.div_mod_to_equations; lia |]). reflexivity.
Qed.

Lemma includes_char_lacks (c : ascii) (s : string) :
  lacks c s = true -> Js.includes s (String c EmptyString) = false.
Proof.
  induction s as [| d r IH]; [reflexivity |].
  cbn [lacks]. intros H. apply andb_true_iff in H as [Hd Hr].
  apply negb_true_iff in Hd.
  cbn [Js.includes Js.startsWith]. rewrite Ascii.eqb_sym, Hd, (IH Hr). reflexivity.
Qed.

(** X25: an IPv4-mapped address written as two hexadecimal groups is read
    as the IPv4 address of its 32 bits.  For groups that parse to [h] and
    [l] between 0 and ffff, [parseIpv4FromMappedIpv6] returns the octets
    [h / 256], [h mod 256], [l / 256] and [l mod 256], also where the
    32-bit shift of the high group overflows to a negative number (from
    [8000] upwards). *)
Theorem mapped_hex_octets (high_ low_ : string) (h l : Z) :
  Js.parseInt high_ 16 = Some h ->
  Js.parseInt low_ 16 = Some l ->
  (0 <= h <= 65535)%Z ->
  (0 <= l <= 65535)%Z ->
  Js.truthy high_ = true ->
  Js.truthy low_ = true ->
  lacks ":" high_ && lacks "." high_ = true ->
  lacks ":" low_ && lacks "." low_ = true ->
  parseIpv4FromMappedIpv6 (high_ +:+ ":" +:+ low_) =
    Some [h / 256; h mod 256; l / 256; l mod 256]%Z.
Proof.
  intros Hh Hl Rh Rl Th Tl Lh Ll.
  apply andb_true_iff in Lh as [Lhc Lhd]. apply andb_true_iff in Ll as [Llc Lld].
  unfold parseIpv4FromMappedIpv6.
  assert (Hdot : Js.includes (high_ +:+ ":" +:+ low_) "." = false).
  { apply includes_char_lacks. rewrite lacks_app, Lhd.
    change (lacks "." (":" +:+ low_)) with (lacks "." low_). exact Lld. }
  rewrite Hdot.
  change (high_ +:+ ":" +:+ low_) with (high_ +:+ String ":" low_).
  rewrite (split_app_sep ":" high_ low_ Lhc), (split_lacks ":" low_ Llc).
  rewrite !filter_cons_True by assumption. rewrite filter_nil.
  rewrite Hh, Hl. cbn [out_of_range].
  repeat match goal with
         | |- context [(?x <? ?y)%Z] => destruct (Z.ltb_spec x y); [lia |]
         end.
  cbn [orb]. rewrite octets_of_wraps. unfold octets, to_int32.
  rewrite Z.shiftl_mul_pow2 by lia.
  change (2 ^ 32)%Z with 4294967296%Z. change (2 ^ 31)%Z with 2147483648%Z.
  change (2 ^ 24)%Z with 16777216%Z. change (2 ^ 16)%Z with 65536%Z.
  change (2 ^ 8)%Z with 256%Z.
  apply (f_equal Some).
  repeat (apply (f_equal2 cons); [Z.div_mod_to_equations; lia |]). reflexivity.
Qed.

Lemma mapped_hex_octets_witness :
  parseIpv4FromMappedIpv6 ("c0a8" +:+ ":" +:+ "101") = Some [192; 168; 1; 1]%Z.
Proof.
  apply (mapped_hex_octets "c0a8" "101" 49320 257); try reflexivity; lia.
Defined.

(** ** Local host names before the SSRF guard *)

Lemma endsWith_refl (s : string) : Js.endsWith s s = true.
Proof. destruct s; cbn [Js.endsWith]; rewrite String.eqb_refl; reflexivity. Qed.

Lemma endsWith_app (x y : string) : Js.endsWith (x +:+ y) y = true.
Proof.
  induction x as [| c x IH]; [apply endsWith_refl |].
  change (String c x +:+ y) with (String c (x +:+ y)).
  cbn [Js.endsWith]. rewrite IH. apply orb_true_r.
Qed.

Lemma app_not_empty (x y : string) : Js.truthy y = true -> x +:+ y <> EmptyString.
Proof. intros Hy. destruct x, y; discriminate. Qed.

Lemma ends_clean_app (x y : string) :
  Js.truthy y = true -> ends_clean (x +:+ y) = ends_clean y.
Proof.
  intros Hy. induction x as [| c x IH]; [reflexivity |].
  change (String c x +:+ y) with (String c (x +:+ y)).
  cbn [ends_clean]. destruct (x +:+ y) eqn:Hxy; [| exact IH].
  exfalso. exact (app_not_empty x y Hy Hxy).
Qed.

Lemma endsWith_bracket_app (x y : string) :
  Js.truthy y = true -> Js.endsWith (x +:+ y) "]" = Js.endsWith y "]".
Proof.
  intros Hy. induction x as [| c x IH]; [reflexivity |].
  change (String c x +:+ y) with (String c (x +:+ y)).
  cbn [Js.endsWith]. rewrite IH.
  destruct (x +:+ y) as [| e r] eqn:Hxy; [exfalso; exact (app_not_empty x y Hy Hxy) |].
  assert (Hne : String.eqb (String c (String e r)) "]" = false).
  { cbn [String.eqb]. destruct (Ascii.eqb c "]"); reflexivity. }
  rewrite Hne. reflexivity.
Qed.

Lemma strip_trailing_dot_snoc (x : string) : strip_trailing_dot (x +:+ ".") = x.
Proof.
  induction x as [| c x IH]; [reflexivity |].
  change (String c x +:+ ".") with (String c (x +:+ ".")).
  cbn [strip_trailing_dot]. destruct (x +:+ ".") eqn:Hx.
  - exfalso. exact (app_not_empty x "." eq_refl Hx).
  - rewrite IH. reflexivity.
Qed.

Lemma toLowerCase_strip_trailing_dot (s : string) :
  Js.toLowerCase (strip_trailing_dot s) = strip_trailing_dot (Js.toLowerCase s).
Proof.
  induction s as [| c r IH]; [reflexivity |].
  cbn [strip_trailing_dot Js.toLowerCase]. destruct r as [| e r'].
  - cbn [Js.toLowerCase]. rewrite lower_char_eqb_dot.
    destruct (Ascii.eqb c "."); reflexivity.
  - cbn [Js.toLowerCase] in *. rewrite <- IH. reflexivity.
Qed.

Lemma local_name_tail (n : string) :
  local_name n ->
  exists label tail,
    n = label +:+ tail /\ clean_tail tail = true /\
    (existsb (String.eqb n) BLOCKED_HOSTNAMES ||
     (Js.endsWith n ".localhost" || Js.endsWith n ".local" || Js.endsWith n ".internal") =
     true).
Proof.
  intros [Hin | (label & suffix & Hin & ->)].
  - exists EmptyString, n. split; [reflexivity |].
    cbn in Hin. destruct Hin as [<- | [<- | []]]; split; reflexivity.
  - exists label, suffix. split; [reflexivity |].
    pose proof (endsWith_app label suffix) as He.
    cbn in Hin. destruct Hin as [<- | [<- | [<- | []]]]; (split; [reflexivity |]);
      rewrite He; rewrite ?orb_true_r; reflexivity.
Qed.

(** X26: local names never reach the resolver.  A host whose trimmed,
    lower-cased name is [localhost], [metadata.google.internal] or a name
    under [.localhost], [.local] or [.internal], with or without one
    trailing dot, is refused with a blocked-hostname error, whatever the
    resolver would answer. *)
Theorem local_names_blocked (hostname n : string) (lookupFn : LookupFn) :
  local_name n ->
  Js.toLowerCase (Js.trim hostname) = n \/ Js.toLowerCase (Js.trim hostname) = n +:+ "." ->
  assertPublicHostname hostname lookupFn =
    Raised (SsrFBlockedError ("Blocked hostname: " +:+ hostname)).
Proof.
  intros Hlocal Hshape.
  destruct (local_name_tail n Hlocal) as (label & tail & Hn & Htail & Hlisted).
  unfold clean_tail in Htail.
  repeat (apply andb_true_iff in Htail as [Htail ?]).
  match goal with H : String.eqb (strip_trailing_dot tail) tail = true |- _ =>
    apply String.eqb_eq in H; rename H into Hdot end.
  match goal with H : negb _ = true |- _ =>
    apply negb_true_iff in H; rename H into Hbr end.
  match goal with H : ends_clean tail = true |- _ => rename H into Hclean end.
  rename Htail into Htruthy.
  set (m := Js.toLowerCase (Js.trim hostname)) in *.
  assert (Hm_trim : Js.trim m = m).
  { unfold m. rewrite trim_lower, trim_idempotent. reflexivity. }
  assert (Hm_lower : Js.toLowerCase m = m) by apply toLowerCase_idempotent.
  assert (Hn_ne : n <> EmptyString) by (rewrite Hn; apply app_not_empty, Htruthy).
  assert (Hn_dot : strip_trailing_dot n = n).
  { rewrite Hn. apply strip_trailing_dot_app; [| exact Hdot].
    destruct tail; [discriminate | congruence]. }
  assert (Hn_strip : strip_trailing_dot m = n).
  { destruct Hshape as [-> | ->]; [exact Hn_dot | apply strip_trailing_dot_snoc]. }
  assert (Hn_br : strip_brackets n = n).
  { unfold strip_brackets. rewrite Hn at 2.
    rewrite (endsWith_bracket_app label tail Htruthy), Hbr, andb_false_r. reflexivity. }
  assert (Hn_lower : Js.toLowerCase n = n).
  { rewrite <- Hn_strip, toLowerCase_strip_trailing_dot, Hm_lower. reflexivity. }
  assert (Hn_trim : Js.trim n = n).
  { unfold Js.trim.
    assert (Hstart : Js.trimStart n = n).
    { destruct n as [| c r]; [congruence |].
      assert (Hc : Js.is_space c = false).
      { destruct Hshape as [Hs | Hs].
        - apply (trim_head_not_space m c r). rewrite Hm_trim. exact Hs.
        - apply (trim_head_not_space m c (r +:+ ".")). rewrite Hm_trim. exact Hs. }
      cbn [Js.trimStart]. rewrite Hc. reflexivity. }
    rewrite Hstart. apply trimEnd_ends_clean.
    rewrite Hn, (ends_clean_app label tail Htruthy). exact Hclean. }
  assert (Hnorm : normalizeHostname hostname = n).
  { unfold normalizeHostname. fold m. rewrite Hn_strip. exact Hn_br. }
  assert (Hagain : normalizeHostname n = n).
  { unfold normalizeHostname. rewrite Hn_trim, Hn_lower, Hn_dot. exact Hn_br. }
  unfold assertPublicHostname. rewrite Hnorm.
  assert (Ht : Js.truthy n = true) by (destruct n; [congruence | reflexivity]).
  rewrite Ht. cbn [negb].
  unfold isBlockedHostname. rewrite Hagain, Ht. cbn [negb].
  destruct (existsb (String.eqb n) BLOCKED_HOSTNAMES); [reflexivity |].
  cbn [orb] in Hlisted. rewrite Hlisted. reflexivity.
Qed.

Lemma local_names_blocked_witness :
  assertPublicHostname "  Printer.LOCAL. " (answers ["93.184.216.34"]) =
    Raised (SsrFBlockedError "Blocked hostname:   Printer.LOCAL. ").
Proof.
  apply (local_names_blocked "  Printer.LOCAL. " "printer.local").
  - right. exists "printer", ".local". split; [right; left; reflexivity | reflexivity].
  - right. reflexivity.
Defined.

(** ** The life of a session *)

Lemma step_timeout_kills (s : Session) (e : Event) :
  timeout_kills (step s e) =
  match e with
  | TimeoutExpires =>
      if timeoutTimer s then timeout_kills s ++ [(ByTimeout, yielded s || backgrounded s)]
      else timeout_kills s
  | _ => timeout_kills s
  end.
Proof.
  unfold timeout_kills. destruct s as [y b st t x tt tf yt log].
  destruct e, y, b, st, x, tt, tf, yt; cbn; try reflexivity;
    rewrite filter_app;
    first [ rewrite filter_cons_False by (cbn; congruence); rewrite filter_nil, app_nil_r;
            reflexivity
          | rewrite filter_cons_True by reflexivity; rewrite filter_nil; reflexivity ].
Qed.

Lemma step_timers_sound (s : Session) (e : Event) :
  timers_sound s -> timers_sound (step s e).
Proof.
  unfold timers_sound. rewrite step_timeout_kills.
  destruct s as [y b st t x tt tf yt log]. cbn [timeoutFinalizeTimer timeoutTimer exited].
  intros (Hf & Hx & Hk).
  destruct e, tt; cbn [timeoutTimer] in *;
    try (rewrite length_app; cbn [length]);
    destruct y, b, st, x, tf, yt; cbn in *;
    repeat split; intros; try congruence; try lia;
    try (exfalso; (discriminate (Hf eq_refl) || discriminate (Hx eq_refl))).
Qed.

Lemma step_promise_sound (s : Session) (e : Event) :
  e <> ProcessBackgrounds -> promise_sound s -> promise_sound (step s e).
Proof.
  unfold promise_sound. destruct s as [y b st t x tt tf yt log].
  cbn [yielded backgrounded settled exited]. intros He (Hyb & Hy & Hx).
  destruct e; [| | | | congruence |];
    destruct y, b, st, x, tt, tf, yt; cbn in *;
    repeat split; intros; try congruence;
    try (exfalso; (discriminate (Hy eq_refl) || discriminate (Hx eq_refl))).
Qed.

Lemma step_settled (s : Session) (e : Event) :
  settled s = true -> settled (step s e) = true.
Proof.
  destruct s as [y b st t x tt tf yt log]. cbn [settled]. intros ->.
  destruct e, y, b, x, tt, tf, yt; reflexivity.
Qed.

(** X27: every spawned session, after any sequence of events: the timeout
    has killed the child at most once; once the child has exited no timeout
    is pending, so no later event makes the timeout kill; and a settled
    promise stays settled.  As long as nothing outside [execute] marks the
    session backgrounded, the call has yielded exactly when the session is
    backgrounded, and the promise is settled as soon as the call has
    yielded or the child has exited. *)
Theorem run_sound (timeout_armed yield_armed : bool) (events : list Event) :
  let s := run (spawned timeout_armed yield_armed) events in
  (length (timeout_kills s) <= 1)%nat /\
  (exited s = true -> forall later, timeout_kills (run s later) = timeout_kills s) /\
  (settled s = true -> forall later, settled (run s later) = true) /\
  (~ In ProcessBackgrounds events ->
   yielded s = backgrounded s /\
   (yielded s = true \/ exited s = true -> settled s = true)).
Proof.
  cbn zeta.
  assert (Hrun_timers : forall evs s, timers_sound s -> timers_sound (run s evs)).
  { induction evs as [| e evs IH]; intros s H; [exact H |].
    apply (IH (step s e)), step_timers_sound, H. }
  assert (Hrun_promise : forall evs s,
            ~ In ProcessBackgrounds evs -> promise_sound s -> promise_sound (run s evs)).
  { induction evs as [| e evs IH]; intros s Hno H; [exact H |].
    apply (IH (step s e)).
    - intros Hin. apply Hno. right. exact Hin.
    - apply step_promise_sound; [| exact H]. intros ->. apply Hno. left. reflexivity. }
  assert (Hrun_settled : forall evs s, settled s = true -> settled (run s evs) = true).
  { induction evs as [| e evs IH]; intros s H; [exact H |].
    apply (IH (step s e)), step_settled, H. }
  assert (Hrun_exited : forall evs s,
            timers_sound s -> exited s = true ->
            timers_sound (run s evs) /\ exited (run s evs) = true /\
            timeout_kills (run s evs) = timeout_kills s).
  { induction evs as [| e evs IH]; intros s Ht Hx; [auto |].
    assert (Hstep : exited (step s e) = true /\
                    timeout_kills (step s e) = timeout_kills s).
    { rewrite step_timeout_kills. destruct Ht as (_ & Hxt & _).
      specialize (Hxt Hx). destruct s as [y b st t x tt tf yt log].
      cbn [exited timeoutTimer] in *. subst x tt.
      destruct e, y, b, st, tf, yt; split; reflexivity. }
    destruct Hstep as [Hx' Hk'].
    destruct (IH (step s e) (step_timers_sound s e Ht) Hx') as (H1 & H2 & H3).
    split; [exact H1 |]. split; [exact H2 |]. rewrite <- Hk'. exact H3. }
  assert (Hinit : timers_sound (spawned timeout_armed yield_armed)).
  { unfold timers_sound. cbn. destruct timeout_armed; repeat split; intros;
      try congruence; lia. }
  pose proof (Hrun_timers events _ Hinit) as Htimers.
  split; [destruct Htimers as (_ & _ & Hk); lia |].
  split; [intros Hx later; apply (Hrun_exited later _ Htimers Hx) |].
  split; [intros Hs later; apply Hrun_settled, Hs |].
  intros Hno.
  destruct (Hrun_promise events (spawned timeout_armed yield_armed) Hno) as (Hyb & Hy & Hx).
  { repeat split; intros; discriminate. }
  split; [exact Hyb |]. intros [H | H]; auto.
Qed.

Lemma run_sound_witness :
  let s := run (spawned true true) [TimeoutExpires; AbortSignal; FinalizeExpires] in
  exited s = true /\ settled s = true /\
  timeout_kills (run s [TimeoutExpires; ChildExits; TimeoutExpires]) = timeout_kills s /\
  length (timeout_kills s) = 1%nat.
Proof.
  cbn zeta.
  destruct (run_sound true true [TimeoutExpires; AbortSignal; FinalizeExpires])
    as (_ & Hexit & _ & Hpromise).
  assert (Hx : exited (run (spawned true true)
                         [TimeoutExpires; AbortSignal; FinalizeExpires]) = true)
    by reflexivity.
  split; [exact Hx |]. split.
  - apply Hpromise; [| right; exact Hx].
    intros [H | [H | [H | []]]]; discriminate.
  - split; [apply (Hexit Hx) | reflexivity].
Defined.
